(** * HDFS -> local model synchronisation daemon: a shallow embedding

    The development follows [sync.py] and [config.py].  The local file
    system is a finite map from resolved absolute paths to nodes, the remote
    file system client is a record of the three capabilities the daemon
    uses, and every method of [HdfsModelSyncer] is a computation in a small
    state-and-exception monad whose state is the local file system, a write
    counter indexing the wall clock, and the log emitted so far. *)

From Stdlib Require Import ZArith Lia DecimalString.
From Stdlib Require String.
From Stdlib Require Import Ascii.
From stdpp Require Import base option list gmap strings fin_maps.

(** * Paths, as [pathlib] and [os.path] see them *)

Module Paths.

(** A [PurePosixPath] that is absolute: its segments below the root.  A
    segment is never empty and never ["."], but it may be [".."] until the
    path is resolved. *)
Abbreviation Path := (list string).

Definition sep : Ascii.ascii := "/"%char.
Definition pardir : string := "..".
Definition curdir : string := ".".

(** [s.split("/")] *)
Fixpoint split_sep (s : string) : list string :=
  match s with
  | EmptyString => [EmptyString]
  | String c s' =>
      if Ascii.eqb c sep then EmptyString :: split_sep s'
      else match split_sep s' with
           | [] => [String c EmptyString]
           | x :: xs => String c x :: xs
           end
  end.

(** ["/".join(parts)] *)
Fixpoint join_sep (parts : list string) : string :=
  match parts with
  | [] => ""
  | [x] => x
  | x :: rest => x +:+ "/" +:+ join_sep rest
  end.

Definition is_segment (x : string) : bool :=
  negb (String.eqb x "") && negb (String.eqb x curdir).

(** The segments [pathlib] keeps when it parses a string: empty segments
    and ["."] are dropped, [".."] is kept. *)
Definition parse_parts (s : string) : list string :=
  List.filter is_segment (split_sep s).

Definition isabs (s : string) : bool :=
  match s with
  | String c _ => Ascii.eqb c sep
  | EmptyString => false
  end.

(** [p / s]: an absolute right operand replaces the left one. *)
Definition joinpath (p : Path) (s : string) : Path :=
  if isabs s then parse_parts s else p ++ parse_parts s.

(** [Path.resolve()] on a file system without symbolic links, and
    [os.path.normpath] on an absolute path: [".."] pops a segment and is
    dropped at the root. *)
Definition resolve_step (acc : Path) (x : string) : Path :=
  if String.eqb x pardir then removelast acc else acc ++ [x].

Definition resolve (p : Path) : Path := foldl resolve_step [] p.

(** [str(p)] *)
Fixpoint concat_segments (p : Path) : string :=
  match p with
  | [] => ""
  | x :: rest => "/" +:+ x +:+ concat_segments rest
  end.

Definition path_str (p : Path) : string :=
  match p with
  | [] => "/"
  | _ => concat_segments p
  end.

(** [s.startswith(prefix)] *)
Definition startswith (s prefix : string) : bool := String.prefix prefix s.

(** [p.parent] and [p.name] *)
Definition parent (p : Path) : Path := removelast p.
Definition path_name (p : Path) : string := List.last p "".

(** [p.with_suffix(p.suffix + ".tmp")]: whatever the old suffix is, the
    final segment becomes [name + ".tmp"]; a path with an empty name has
    none ([ValueError]). *)
Definition with_tmp_suffix (p : Path) : option Path :=
  match p with
  | [] => None
  | _ => Some (parent p ++ [path_name p +:+ ".tmp"])
  end.

(** [os.path.abspath(s)] in the working directory [cwd] *)
Definition abspath (cwd : Path) (s : string) : Path := resolve (joinpath cwd s).

Fixpoint strip_common (a b : list string) : list string * list string :=
  match a, b with
  | x :: a', y :: b' => if String.eqb x y then strip_common a' b' else (a, b)
  | _, _ => (a, b)
  end.

(** [os.path.relpath(path, start)]; [None] is its [ValueError] on an empty
    [path]. *)
Definition relpath (cwd : Path) (path start : string) : option string :=
  if String.eqb path "" then None
  else
    let '(start_rest, path_rest) := strip_common (abspath cwd start) (abspath cwd path) in
    let rel_list := replicate (length start_rest) pardir ++ path_rest in
    match rel_list with
    | [] => Some curdir
    | _ => Some (join_sep rel_list)
    end.

End Paths.

Export Paths.

(** * Text helpers *)

(** The two characters a Rocq literal cannot spell directly. *)
Definition dquote : string := String (ascii_of_nat 34) EmptyString.
Definition newline : string := String (ascii_of_nat 10) EmptyString.

(** [str.join] *)
Fixpoint join (sepstr : string) (parts : list string) : string :=
  match parts with
  | [] => ""
  | [x] => x
  | x :: rest => x +:+ sepstr +:+ join sepstr rest
  end.

(** [str(v)] for a Python [int] *)
Definition str_of_int (v : Z) : string := NilZero.string_of_int (Z.to_int v).

(** ** [bytes.decode("utf-8")]

    A text is kept as its UTF-8 encoding, which names it uniquely, so
    decoding is the check that the bytes are an encoding: the well-formed
    byte sequences of the Unicode standard, without overlong forms,
    surrogates, or code points above U+10FFFF. *)
Definition byte_in (lo hi : N) (b : Ascii.ascii) : bool :=
  (lo <=? N_of_ascii b)%N && (N_of_ascii b <=? hi)%N.

Definition continuation (b : Ascii.ascii) : bool := byte_in 128 191 b.

(** The second byte of a three-byte form led by [b1] *)
Definition second_of_three (b1 b2 : Ascii.ascii) : bool :=
  if (N_of_ascii b1 =? 224)%N then byte_in 160 191 b2
  else if (N_of_ascii b1 =? 237)%N then byte_in 128 159 b2
  else continuation b2.

(** The second byte of a four-byte form led by [b1] *)
Definition second_of_four (b1 b2 : Ascii.ascii) : bool :=
  if (N_of_ascii b1 =? 240)%N then byte_in 144 191 b2
  else if (N_of_ascii b1 =? 244)%N then byte_in 128 143 b2
  else continuation b2.

Fixpoint valid_utf8 (s : string) : bool :=
  match s with
  | EmptyString => true
  | String b1 s1 =>
      if byte_in 0 127 b1 then valid_utf8 s1
      else
        match s1 with
        | EmptyString => false
        | String b2 s2 =>
            if byte_in 194 223 b1 then continuation b2 && valid_utf8 s2
            else
              match s2 with
              | EmptyString => false
              | String b3 s3 =>
                  if byte_in 224 239 b1 then
                    second_of_three b1 b2 && continuation b3 && valid_utf8 s3
                  else
                    match s3 with
                    | EmptyString => false
                    | String b4 s4 =>
                        byte_in 240 244 b1 && second_of_four b1 b2
                        && continuation b3 && continuation b4 && valid_utf8 s4
                    end
              end
        end
  end.

(** [None] is [UnicodeDecodeError]. *)
Definition decode_utf8 (raw : string) : option string :=
  if valid_utf8 raw then Some raw else None.

(** * [config.py]: the data classes *)

Module Config.

Record ModelEntry := {
  name : string;
  base_path : string;
  model_platform : string;
  (** [Optional[Dict[str, int]]]: a dictionary keeps insertion order *)
  version_labels : option (list (string * Z));
  version_policy : option (list (string * string));
}.

Record ModelConfigList := { model_config : list ModelEntry }.

(** [ModelConfigList()]: the field default is the empty list. *)
Definition ModelConfigList_default : ModelConfigList := {| model_config := [] |}.

Record HDFSNameNode := { nn_id : string; address : string }.

Record HDFSConfig := {
  name_services : string;
  user : string;
  namenodes : list HDFSNameNode;
}.

Record SyncConfig := {
  hdfs : HDFSConfig;
  hdfs_model_config_path : option string;
  local_model_root : string;
  sync_interval_minutes : Z;
  enable_sync_loop : bool;
}.

End Config.

(** * [pyarrow.fs]: what the remote client hands back *)

Module pafs.

Inductive FileType := NotFound | Unknown | File | Directory.

Global Instance FileType_eq_dec : EqDecision FileType.
Proof. solve_decision. Defined.

(** [mtime] is a timestamp in clock ticks; [None] when the remote side
    reports none. *)
Record FileInfo := {
  path : string;
  type : FileType;
  mtime : option Z;
}.

(** An opened input file: the bytes a reader obtains before the stream
    ends, and whether it ends normally ([complete]) or by an error raised
    while copying. *)
Record InputStream := {
  data : string;
  complete : bool;
}.

(** The capabilities of [HadoopFileSystem] the daemon uses.  [None] is a
    call that raises. *)
Record HadoopFileSystem := {
  get_file_info : string → option FileInfo;
  (** [get_file_info(FileSelector(dir, recursive=True))] *)
  get_file_info_selector : string → option (list FileInfo);
  open_input_file : string → option InputStream;
}.

End pafs.

(** * The local file system *)

Module Fs.

(** A node carries its modification time; a regular file also its bytes.
    A directory's time is the stamp of its creation: the kernel also moves
    it when entries come and go, which the daemon never reads back except
    through [_should_update_file] on a path that holds a directory. *)
Inductive node :=
| File (mtime : Z) (data : string)
| Dir (mtime : Z).

Definition st_mtime (n : node) : Z :=
  match n with
  | File t _ => t
  | Dir t => t
  end.

Definition node_is_dir (n : node) : bool :=
  match n with
  | Dir _ => true
  | File _ _ => false
  end.

(** The tree, keyed by resolved absolute path; the root directory is the
    entry at [[]].  There are no symbolic links. *)
Abbreviation tree := (gmap Path node).

Inductive exn :=
| FileNotFoundError
| FileExistsError
| NotADirectoryError
| IsADirectoryError
| ValueError
| TypeError
| UnicodeDecodeError
| OSError.

(** [Path.mkdir(parents=True, exist_ok=True)], on the reversed segments of
    the path so that the recursion on [self.parent] is structural. *)
Fixpoint mkdir_rev (t : Z) (rp : list string) (m : tree) : exn + tree :=
  match m !! rev rp with
  | Some (Dir _) => inr m
  | Some (File _ _) => inl FileExistsError
  | None =>
      match rp with
      | [] => inl FileNotFoundError
      | _ :: rparent =>
          match m !! rev rparent with
          | Some (Dir _) => inr (<[rev rp := Dir t]> m)
          | Some (File _ _) => inl NotADirectoryError
          | None =>
              match mkdir_rev t rparent m with
              | inr m' => inr (<[rev rp := Dir t]> m')
              | inl e => inl e
              end
          end
      end
  end.

Definition mkdir_tree (t : Z) (q : Path) (m : tree) : exn + tree :=
  mkdir_rev t (rev q) m.

(** [open(q, "wb")]: creates or truncates a regular file. *)
Definition open_wb_tree (t : Z) (q : Path) (m : tree) : exn + tree :=
  match m !! q with
  | Some (Dir _) => inl IsADirectoryError
  | Some (File _ _) => inr (<[q := File t ""]> m)
  | None =>
      match m !! parent q with
      | Some (Dir _) => inr (<[q := File t ""]> m)
      | Some (File _ _) => inl NotADirectoryError
      | None => inl FileNotFoundError
      end
  end.

(** [dst.write(chunk)] on an open file *)
Definition write_tree (t : Z) (q : Path) (chunk : string) (m : tree) : exn + tree :=
  match m !! q with
  | Some (File _ d) => inr (<[q := File t (d +:+ chunk)]> m)
  | Some (Dir _) => inl IsADirectoryError
  | None => inl FileNotFoundError
  end.

(** [src.replace(dst)] for a regular file [src]: an atomic rename that
    keeps the node, time stamp included.  The daemon renames nothing but
    the staging file it has just written, so a directory [src] is left
    as an error. *)
Definition replace_tree (qs qd : Path) (m : tree) : exn + tree :=
  match m !! qs with
  | None => inl FileNotFoundError
  | Some (Dir _) => inl OSError
  | Some (File t d) =>
      match m !! qd with
      | Some (Dir _) => inl IsADirectoryError
      | Some (File _ _) => inr (<[qd := File t d]> (delete qs m))
      | None =>
          match m !! parent qd with
          | Some (Dir _) => inr (<[qd := File t d]> (delete qs m))
          | Some (File _ _) => inl NotADirectoryError
          | None => inl FileNotFoundError
          end
      end
  end.

(** [q.unlink(missing_ok=True)] *)
Definition unlink_tree (q : Path) (m : tree) : exn + tree :=
  match m !! q with
  | None => inr m
  | Some (File _ _) => inr (delete q m)
  | Some (Dir _) => inl IsADirectoryError
  end.

(** [shutil.rmtree(q)]: the directory and everything below it. *)
Definition rmtree_tree (q : Path) (m : tree) : exn + tree :=
  match m !! q with
  | Some (Dir _) => inr (filter (λ kv, ¬ q `prefix_of` kv.1) m)
  | Some (File _ _) => inl NotADirectoryError
  | None => inl FileNotFoundError
  end.

(** [q.iterdir()]: the entries directly under [q], in the order the map
    lists them; the special entries ["."] and [".."] are never yielded. *)
Definition is_child (q k : Path) : Prop :=
  k ≠ [] ∧ parent k = q ∧ path_name k ≠ pardir.

Global Instance is_child_dec q k : Decision (is_child q k).
Proof. unfold is_child. apply _. Defined.

Definition iterdir_tree (q : Path) (m : tree) : exn + list Path :=
  match m !! q with
  | Some (Dir _) => inr (filter (is_child q) (map_to_list m).*1)
  | Some (File _ _) => inl NotADirectoryError
  | None => inl FileNotFoundError
  end.

End Fs.

Export Fs.

(** * Log records, the world, and the monad of effects *)

(** One constructor per [logging] call of the functions embedded below,
    and [Slept] for a completed [time.sleep]. *)
Inductive event :=
| ErrorParseFailed
| ErrorConnectFailed
| InfoRootInitialized (root : Path)
| WarnHdfsDirMissing (hdfs_dir : string)
| WarnSuspiciousPath (rel_path : string)
| InfoCopying (src : string) (dst : Path)
| DebugUpToDate (dst : Path)
| ErrorCopyFailed (hdfs_path : string)
| ErrorInvalidModelName (model : string)
| InfoProcessingModel (model : string)
| InfoRemovedModel (model : string)
| InfoConfigWritten (config_path : Path)
| InfoCycleStart
| ExceptionInCycle
| InfoCycleFinished
| WarnLoopDisabled
| InfoStartContinuous (interval : Z)
| InfoSleeping (interval : Z)
| Slept (interval : Z).

Global Instance event_eq_dec : EqDecision event.
Proof. solve_decision. Defined.

(** The state a method runs in.  [ticks] counts the writes made so far; the
    wall clock, read at the next write, is [clock ticks]. *)
Record world := World {
  fs : tree;
  ticks : nat;
  log : list event;
}.

Inductive result (A : Type) :=
| Return (a : A) (w : world)
| Raise (e : exn) (w : world).

Arguments Return {A} a w.
Arguments Raise {A} e w.

Definition M (A : Type) : Type := world → result A.

Global Instance M_ret : MRet M := λ A a w, Return a w.

Global Instance M_bind : MBind M := λ A B f c w,
  match c w with
  | Return a w' => f a w'
  | Raise e w' => Raise e w'
  end.

Definition raise {A} (e : exn) : M A := λ w, Raise e w.

(** [try: body except Exception as e: handler] *)
Definition try_except {A} (body : M A) (handler : exn → M A) : M A := λ w,
  match body w with
  | Return a w' => Return a w'
  | Raise e w' => handler e w'
  end.

(** [try: body finally: final] *)
Definition try_finally {A} (body : M A) (final : M unit) : M A := λ w,
  match body w with
  | Return a w' =>
      match final w' with
      | Return _ w'' => Return a w''
      | Raise e w'' => Raise e w''
      end
  | Raise e w' =>
      match final w' with
      | Return _ w'' => Raise e w''
      | Raise e' w'' => Raise e' w''
      end
  end.

Definition logging (e : event) : M unit := λ w,
  Return tt {| fs := fs w; ticks := ticks w; log := log w ++ [e] |}.

(** [for x in xs: body(x)] *)
Fixpoint for_each {A} (xs : list A) (body : A → M unit) : M unit :=
  match xs with
  | [] => mret tt
  | x :: rest => body x;; for_each rest body
  end.

(** A call that reads the tree. *)
Definition reading {A} (f : tree → A) : M A := λ w, Return (f (fs w)) w.

(** A call that may change the tree; it reads the clock once. *)
Definition writing (clock : nat → Z) (f : Z → tree → exn + tree) : M unit := λ w,
  match f (clock (ticks w)) (fs w) with
  | inr m => Return tt {| fs := m; ticks := S (ticks w); log := log w |}
  | inl e => Raise e w
  end.

Definition lift_option {A} (e : exn) (o : option A) : M A :=
  match o with
  | Some a => mret a
  | None => raise e
  end.

Definition lift_sum {A} (r : exn + A) : M A :=
  match r with
  | inr a => mret a
  | inl e => raise e
  end.

(** * [sync.py]: the connection settings of [_initialize_hdfs_fs] *)

Module Connection.

(** A Python [dict] whose order is observed: the items in insertion order.
    Assigning to a key that is present replaces its value in place. *)
Fixpoint dict_set {V} (k : string) (v : V) (d : list (string * V)) : list (string * V) :=
  match d with
  | [] => [(k, v)]
  | (k', v') :: rest =>
      if String.eqb k k' then (k', v) :: rest else (k', v') :: dict_set k v rest
  end.

Fixpoint dict_get {V} (k : string) (d : list (string * V)) : option V :=
  match d with
  | [] => None
  | (k', v') :: rest => if String.eqb k k' then Some v' else dict_get k rest
  end.

Definition dict_keys {V} (d : list (string * V)) : list string := fst <$> d.

(** [{nn.nn_id: nn.address for nn in conf.namenodes}] *)
Definition namenode_map (conf : Config.HDFSConfig) : list (string * string) :=
  foldl (λ d nn, dict_set (Config.nn_id nn) (Config.address nn) d) [] (Config.namenodes conf).

Definition failover_provider : string :=
  "org.apache.hadoop.hdfs.server.namenode.ha.ConfiguredFailoverProxyProvider".

Definition ha_namenodes_key (name_services : string) : string :=
  "dfs.ha.namenodes." +:+ name_services.

Definition failover_key (name_services : string) : string :=
  "dfs.client.failover.proxy.provider." +:+ name_services.

Definition rpc_address_key (name_services nn_id : string) : string :=
  "dfs.namenode.rpc-address." +:+ name_services +:+ "." +:+ nn_id.

(** The [extra_conf] dictionary handed to [pafs.HadoopFileSystem]: the
    dictionary display, then the loop over [namenode_map.items()]. *)
Definition extra_conf (conf : Config.HDFSConfig) : list (string * string) :=
  let namenode_map := namenode_map conf in
  let extra_conf :=
    dict_set (failover_key (Config.name_services conf)) failover_provider
      (dict_set (ha_namenodes_key (Config.name_services conf)) (join "," (dict_keys namenode_map))
         (dict_set "dfs.nameservices" (Config.name_services conf) [])) in
  foldl (λ d item, dict_set (rpc_address_key (Config.name_services conf) item.1) item.2 d)
    extra_conf namenode_map.

End Connection.

(** * [sync.py] *)

Module Sync.

Import Config.

(** [_format_version_labels] *)
Definition _format_version_labels (labels : option (list (string * Z))) : string :=
  match labels with
  | None | Some [] => ""
  | Some items =>
      let label_lines :=
        (λ kv : string * Z, "      " +:+ dquote +:+ kv.1 +:+ dquote +:+ ": " +:+ str_of_int kv.2)
          <$> items in
      "  version_labels {" +:+ newline +:+ join ("," +:+ newline) label_lines
        +:+ newline +:+ "  }"
  end.

(** [_format_version_policy] *)
Definition _format_version_policy (policy : option (list (string * string))) : string :=
  match policy with
  | None | Some [] => ""
  | Some items =>
      let policy_lines :=
        (λ kv : string * string, "      " +:+ kv.1 +:+ ": " +:+ kv.2) <$> items in
      "  version_policy {" +:+ newline +:+ join newline policy_lines +:+ newline +:+ "  }"
  end.

(** Truth value of an [Optional[Dict]]: [None] and the empty dictionary
    are false. *)
Definition truthy {A} (d : option (list A)) : bool :=
  match d with
  | None | Some [] => false
  | Some (_ :: _) => true
  end.

(** What surrounds the engine: the constructor of the remote client
    ([pafs.HadoopFileSystem(host, port, user, extra_conf)], which raises when
    the connection fails), the handle [self.hdfs_fs] the methods of a
    constructed syncer use, the wall clock, the working directory and
    process id of the daemon, and the manifest parser ([yaml.safe_load]
    followed by dacite's [from_dict]; [None] when either raises). *)
Record Env := {
  connect : string → Z → string → list (string * string) → exn + pafs.HadoopFileSystem;
  hdfs_fs : pafs.HadoopFileSystem;
  clock : nat → Z;
  cwd : Path;
  getpid : Z;
  load_manifest : string → option ModelConfigList;
}.

(** The dictionary [run_once] records for a synchronised model. *)
Record LocalModel := {
  lm_name : string;
  lm_base_path : string;
  lm_model_platform : string;
  lm_version_labels : option (list (string * Z));
  lm_version_policy : option (list (string * string));
}.

Section HdfsModelSyncer.

Variable env : Env.
Variable config : SyncConfig.

(** [_parse_model_config] *)
Definition _parse_model_config (content : string) : M ModelConfigList :=
  match load_manifest env content with
  | Some parsed => mret parsed
  | None => logging ErrorParseFailed;; mret ModelConfigList_default
  end.

(** [self.local_model_root = Path(self.config.local_model_root).resolve()] *)
Definition local_model_root : Path := abspath (cwd env) (Config.local_model_root config).

(** ** File system calls, on the resolved path as the kernel sees it *)

Definition mkdir (p : Path) : M unit :=
  writing (clock env) (λ t, mkdir_tree t (resolve p)).

Definition path_exists (p : Path) : M bool :=
  reading (λ m, bool_decide (is_Some (m !! resolve p))).

Definition is_dir (p : Path) : M bool :=
  reading (λ m, from_option node_is_dir false (m !! resolve p)).

Definition stat_st_mtime (p : Path) : M Z :=
  n ← reading (λ m, m !! resolve p);
  lift_option FileNotFoundError (st_mtime <$> n).

Definition open_wb (p : Path) : M unit :=
  writing (clock env) (λ t, open_wb_tree t (resolve p)).

Definition write (p : Path) (chunk : string) : M unit :=
  writing (clock env) (λ t, write_tree t (resolve p) chunk).

Definition replace (src dst : Path) : M unit :=
  writing (clock env) (λ _, replace_tree (resolve src) (resolve dst)).

Definition unlink (p : Path) : M unit :=
  writing (clock env) (λ _, unlink_tree (resolve p)).

Definition rmtree (p : Path) : M unit :=
  writing (clock env) (λ _, rmtree_tree (resolve p)).

Definition iterdir (p : Path) : M (list Path) :=
  r ← reading (iterdir_tree (resolve p));
  lift_sum r.

(** [shutil.copyfileobj(src, dst)]: the bytes read reach [dst]; a stream
    that breaks raises after they are written. *)
Definition copyfileobj (src : pafs.InputStream) (dst : Path) : M unit :=
  write dst (pafs.data src);;
  if pafs.complete src then mret tt else raise OSError.

(** [path.write_text(text)] *)
Definition write_text (p : Path) (text : string) : M unit :=
  open_wb p;; write p text.

(** [with FileLock(lock_path): body].  Acquiring opens the marker with
    [O_CREAT | O_TRUNC]; releasing leaves it in place.  Contention between
    processes is outside this sequential model. *)
Definition with_FileLock {A} (lock_path : Path) (body : M A) : M A :=
  open_wb lock_path;; body.

(** [_initialize_hdfs_fs] *)
Definition _initialize_hdfs_fs : M pafs.HadoopFileSystem :=
  try_except
    (let conf := hdfs config in
     let extra_conf := Connection.extra_conf conf in
     lift_sum (connect env (name_services conf) 0 (user conf) extra_conf))
    (λ e,
      logging ErrorConnectFailed;;
      raise e).

(** [__init__]; it returns the handle it stores in [self.hdfs_fs]. *)
Definition init : M pafs.HadoopFileSystem :=
  hdfs_fs ← _initialize_hdfs_fs;
  mkdir local_model_root;;
  logging (InfoRootInitialized local_model_root);;
  mret hdfs_fs.

(** [_should_update_file] *)
Definition _should_update_file (file_info : pafs.FileInfo) (local_file : Path) : M bool :=
  match pafs.mtime file_info with
  | None => mret true
  | Some remote_mtime =>
      present ← path_exists local_file;
      if present : bool then
        local_mtime ← stat_st_mtime local_file;
        mret (bool_decide (remote_mtime > local_mtime)%Z)
      else mret true
  end.

(** [_copy_file_atomically] *)
Definition _copy_file_atomically (hdfs_path : string) (local_file : Path) : M unit :=
  mkdir (parent local_file);;
  tmp_file ← lift_option ValueError (with_tmp_suffix local_file);
  try_except
    (src ← lift_option OSError (pafs.open_input_file (hdfs_fs env) hdfs_path);
     open_wb tmp_file;;
     copyfileobj src tmp_file;;
     replace tmp_file local_file)
    (λ _,
      logging (ErrorCopyFailed hdfs_path);;
      present ← path_exists tmp_file;
      if present : bool then unlink tmp_file else mret tt).

(** The body of the loop of [_sync_directory], for one listed entry. *)
Definition sync_entry (hdfs_dir : string) (local_dir : Path) (file_info : pafs.FileInfo)
    : M unit :=
  if bool_decide (pafs.type file_info ≠ pafs.File) then mret tt
  else
    rel_path ← lift_option ValueError (relpath (cwd env) (pafs.path file_info) hdfs_dir);
    let local_file := joinpath local_dir rel_path in
    if negb (startswith (path_str (resolve local_file)) (path_str local_model_root)) then
      logging (WarnSuspiciousPath rel_path)
    else
      update ← _should_update_file file_info local_file;
      if update : bool then
        logging (InfoCopying (pafs.path file_info) local_file);;
        _copy_file_atomically (pafs.path file_info) local_file
      else
        logging (DebugUpToDate local_file).

(** [_sync_directory] *)
Definition _sync_directory (hdfs_dir : string) (local_dir : Path) : M unit :=
  mkdir local_dir;;
  hdfs_info ← lift_option OSError (pafs.get_file_info (hdfs_fs env) hdfs_dir);
  if bool_decide (pafs.type hdfs_info ≠ pafs.Directory) then
    logging (WarnHdfsDirMissing hdfs_dir)
  else
    listing ← lift_option OSError (pafs.get_file_info_selector (hdfs_fs env) hdfs_dir);
    for_each listing (sync_entry hdfs_dir local_dir).

(** ** [run_once], step by step *)

(** Step 1: read the manifest. *)
Definition read_manifest : M string :=
  manifest_path ← lift_option TypeError (hdfs_model_config_path config);
  f ← lift_option OSError (pafs.open_input_file (hdfs_fs env) manifest_path);
  raw ← (if pafs.complete f then mret (pafs.data f) else raise OSError);
  lift_option UnicodeDecodeError (decode_utf8 raw).

(** Step 2: the loop over [hdfs_models.model_config], which appends to
    [local_models]. *)
Fixpoint sync_models (entries : list ModelEntry) (local_models : list LocalModel)
    : M (list LocalModel) :=
  match entries with
  | [] => mret local_models
  | model_entry :: rest =>
      let name := Config.name model_entry in
      let hdfs_path := base_path model_entry in
      let local_path := resolve (joinpath local_model_root name) in
      if negb (startswith (path_str local_path) (path_str local_model_root)) then
        logging (ErrorInvalidModelName name);;
        sync_models rest local_models
      else
        logging (InfoProcessingModel name);;
        _sync_directory hdfs_path local_path;;
        sync_models rest
          (local_models ++
             [ {| lm_name := name;
                  lm_base_path := path_str local_path;
                  lm_model_platform := model_platform model_entry;
                  lm_version_labels := version_labels model_entry;
                  lm_version_policy := version_policy model_entry |} ])
  end.

(** Step 3: remove the local models the manifest no longer declares. *)
Definition remove_item (expected : gset string) (item : Path) : M unit :=
  d ← is_dir item;
  if (d : bool) && bool_decide (path_name item ∉ expected) then
    rmtree item;;
    logging (InfoRemovedModel (path_name item))
  else mret tt.

Definition remove_deleted_models (entries : list ModelEntry) : M unit :=
  let expected : gset string := list_to_set (Config.name <$> entries) in
  items ← iterdir local_model_root;
  for_each items (remove_item expected).

(** Step 4: the lines of the new [models.config]. *)
Definition append_model (config_lines : list string) (m : LocalModel) : list string :=
  let config_lines := config_lines ++ ["  config {"] in
  let config_lines := config_lines ++ ["    name: " +:+ dquote +:+ lm_name m +:+ dquote] in
  let config_lines :=
    config_lines ++ ["    base_path: " +:+ dquote +:+ lm_base_path m +:+ dquote] in
  let config_lines :=
    config_lines ++ ["    model_platform: " +:+ dquote +:+ lm_model_platform m +:+ dquote] in
  let config_lines :=
    if truthy (lm_version_labels m)
    then config_lines ++ [_format_version_labels (lm_version_labels m)]
    else config_lines in
  let config_lines :=
    if truthy (lm_version_policy m)
    then config_lines ++ [_format_version_policy (lm_version_policy m)]
    else config_lines in
  config_lines ++ ["  }"].

Definition build_config_lines (local_models : list LocalModel) : list string :=
  let config_lines := ["model_config_list {"] in
  let config_lines := foldl append_model config_lines local_models in
  config_lines ++ ["}"].

Definition write_models_config (local_models : list LocalModel) : M unit :=
  let config_path := joinpath local_model_root "models.config" in
  write_text config_path (join newline (build_config_lines local_models));;
  logging (InfoConfigWritten config_path).

Definition lock_path : Path :=
  joinpath local_model_root (".sync.lock." +:+ str_of_int (getpid env)).

(** [run_once] *)
Definition run_once : M unit :=
  with_FileLock lock_path
    (logging InfoCycleStart;;
     try_finally
       (try_except
          (content ← read_manifest;
           hdfs_models ← _parse_model_config content;
           local_models ← sync_models (model_config hdfs_models) [];
           remove_deleted_models (model_config hdfs_models);;
           write_models_config local_models)
          (λ _, logging ExceptionInCycle))
       (logging InfoCycleFinished)).

(** The cycle up to, and not including, step 3: what [run_once] has done
    when the deletion of undeclared models starts.  It names the world the
    deletion step runs in. *)
Definition cycle_prefix : M (ModelConfigList * list LocalModel) :=
  open_wb lock_path;;
  logging InfoCycleStart;;
  content ← read_manifest;
  hdfs_models ← _parse_model_config content;
  local_models ← sync_models (model_config hdfs_models) [];
  mret (hdfs_models, local_models).

(** ** [run_continuously] *)

(** [interval = max(60, self.config.sync_interval_minutes * 60)] *)
Definition interval : Z := Z.max 60 (sync_interval_minutes config * 60).

(** [time.sleep(interval)] *)
Definition sleep (seconds : Z) : M unit := logging (Slept seconds).

(** [while True: ...], unrolled [n] times. *)
Fixpoint loop (n : nat) : M unit :=
  match n with
  | O => mret tt
  | S k =>
      run_once;;
      logging (InfoSleeping interval);;
      sleep interval;;
      loop k
  end.

(** [run_continuously]; [fuel] bounds the iterations of the endless loop
    that are observed. *)
Definition run_continuously (fuel : nat) : M unit :=
  if negb (enable_sync_loop config) then
    logging WarnLoopDisabled;;
    run_once
  else
    logging (InfoStartContinuous interval);;
    loop fuel.

End HdfsModelSyncer.

End Sync.


Import Config Sync.

(** * The vocabulary of the statements *)

(** ** Outcomes and invariants of computations *)

(** The world a computation leaves, whatever its outcome. *)
Definition world_of {A} (r : result A) : world :=
  match r with
  | Return _ w => w
  | Raise _ w => w
  end.

(** A relation between the world a computation starts in and the one it
    leaves, whatever its outcome. *)
Definition always {A} (R : relation world) (c : M A) : Prop :=
  ∀ w, R w (world_of (c w)).

(** The log only grows, by events satisfying [P]. *)
Definition emitting (P : event → Prop) : relation world := λ w w',
  ∃ evs, log w' = log w ++ evs ∧ Forall P evs.

(** The tree moves along [Rt]. *)
Definition moving (Rt : relation tree) : relation world := λ w w', Rt (fs w) (fs w').

(** Directories stay where they are, with their stamps. *)
Definition dirs_persist : relation tree := λ m m',
  ∀ p t, m !! p = Some (Dir t) → m' !! p = Some (Dir t).

(** [with_log w evs]: the world [w] after logging [evs]. *)
Definition with_log (w : world) (evs : list event) : world :=
  {| fs := fs w; ticks := ticks w; log := log w ++ evs |}.

(** ** Classes of events *)

(** What [_sync_directory] and the per-model loop of [run_once] may log. *)
Definition is_reconcile_event (e : event) : Prop :=
  match e with
  | WarnHdfsDirMissing _ | WarnSuspiciousPath _ | InfoCopying _ _ | DebugUpToDate _
  | ErrorCopyFailed _ | ErrorInvalidModelName _ | InfoProcessingModel _ => True
  | _ => False
  end.

(** What step 3 of [run_once] logs. *)
Definition is_removal (e : event) : Prop :=
  match e with
  | InfoRemovedModel _ => True
  | _ => False
  end.

(** What one cycle may log: anything but the events of the scheduler and
    of the constructor. *)
Definition is_cycle_event (e : event) : Prop :=
  match e with
  | Slept _ | InfoSleeping _ | InfoStartContinuous _ | WarnLoopDisabled
  | InfoRootInitialized _ | ErrorConnectFailed => False
  | _ => True
  end.

(** A transfer is announced by the "Copying" line that precedes every call
    of [_copy_file_atomically]. *)
Definition is_transfer (e : event) : bool :=
  match e with
  | InfoCopying _ _ => true
  | _ => false
  end.

Definition transfers (evs : list event) : nat := length (List.filter is_transfer evs).

Definition is_failure (e : event) : bool :=
  match e with
  | ErrorCopyFailed _ => true
  | _ => false
  end.

Definition failures (evs : list event) : nat := length (List.filter is_failure evs).

(** ** The local files of a remote listing *)

(** [fresh t m p]: the tree holds at [p] an entry stamped [t] or later. *)
Definition fresh (t : Z) (m : tree) (p : Path) : Prop :=
  ∃ n, m !! p = Some n ∧ (t ≤ st_mtime n)%Z.

Definition fresh_stays (t : Z) (p : Path) : relation tree := λ m m',
  fresh t m p → fresh t m' p.

Section targets.
Context (env : Env) (config : SyncConfig) (hdfs_dir : string) (local_dir : Path).

(** The local file [_sync_directory] computes for an entry of the listing,
    when the entry is a file and passes the containment check. *)
Definition local_target (file_info : pafs.FileInfo) : option Path :=
  if bool_decide (pafs.type file_info ≠ pafs.File) then None
  else
    rel_path ← relpath (cwd env) (pafs.path file_info) hdfs_dir;
    let local_file := joinpath local_dir rel_path in
    if startswith (path_str (resolve local_file)) (path_str (Sync.local_model_root env config))
    then Some local_file else None.

(** The recursive listing of [hdfs_dir]. *)
Definition listed : list pafs.FileInfo :=
  default [] (pafs.get_file_info_selector (hdfs_fs env) hdfs_dir).

(** Every transferable entry reports a modification time that the local
    clock never reads before. *)
Definition timely (xs : list pafs.FileInfo) : Prop :=
  ∀ fi lf, fi ∈ xs → local_target fi = Some lf →
    ∃ t, pafs.mtime fi = Some t ∧ ∀ k, (t ≤ clock env k)%Z.

(** No entry is staged at the local path of an entry. *)
Definition staging_apart (xs : list pafs.FileInfo) : Prop :=
  ∀ fi lf fj lf' tmp, fi ∈ xs → fj ∈ xs →
    local_target fi = Some lf → local_target fj = Some lf' →
    with_tmp_suffix lf' = Some tmp → resolve tmp ≠ resolve lf.

End targets.

(** ** The two halves of [_copy_file_atomically] *)

Section transfer.
Context (env : Env).

(** The body of its [try]. *)
Definition copy_body (hdfs_path : string) (tmp_file local_file : Path) : M unit :=
  src ← lift_option OSError (pafs.open_input_file (hdfs_fs env) hdfs_path);
  open_wb env tmp_file;;
  copyfileobj env src tmp_file;;
  replace env tmp_file local_file.

(** The handler. *)
Definition copy_handler (hdfs_path : string) (tmp_file : Path) : M unit :=
  logging (ErrorCopyFailed hdfs_path);;
  present ← path_exists tmp_file;
  if present : bool then unlink env tmp_file else mret tt.

End transfer.

(** ** Deletion, item by item *)

Section removal.
Context (m0 : tree) (expected : gset string).

(** [item] is a directory of the tree [m0] that the manifest does not
    declare, and [p] lies at or below it. *)
Definition condemned (item p : Path) : Prop :=
  item `prefix_of` p ∧ (∃ t, m0 !! item = Some (Dir t)) ∧ path_name item ∉ expected.

Definition doomed (items : list Path) (p : Path) : Prop :=
  ∃ item, item ∈ items ∧ condemned item p.

(** The tree once the loop of step 3 has gone through [items]. *)
Definition swept (items : list Path) (m : tree) : Prop :=
  ∀ p, (doomed items p → m !! p = None) ∧ (¬ doomed items p → m !! p = m0 !! p).

End removal.

(** The set [expected] of step 3. *)
Definition declared (entries : list ModelEntry) : gset string :=
  list_to_set (Config.name <$> entries).

(** ** The fixed names under the root *)

Fixpoint sep_free (s : string) : bool :=
  match s with
  | EmptyString => true
  | String c s' => negb (Ascii.eqb c sep) && sep_free s'
  end.

Section fixed_paths.
Context (env : Env) (config : SyncConfig).

Definition lock_name : string := ".sync.lock." +:+ str_of_int (getpid env).

Definition config_path : Path := Sync.local_model_root env config ++ ["models.config"].

(** The manifest entries whose directory passes the containment check of
    [run_once], and the record kept for each. *)
Definition name_accepted (entry : ModelEntry) : bool :=
  startswith
    (path_str (resolve (joinpath (Sync.local_model_root env config) (Config.name entry))))
    (path_str (Sync.local_model_root env config)).

Definition local_model_of (entry : ModelEntry) : LocalModel :=
  {| lm_name := Config.name entry;
     lm_base_path :=
       path_str (resolve (joinpath (Sync.local_model_root env config) (Config.name entry)));
     lm_model_platform := model_platform entry;
     lm_version_labels := version_labels entry;
     lm_version_policy := version_policy entry |}.

(** A sleep, if the event is one, lasts the interval. *)
Definition sleeps_for_interval (e : event) : Prop :=
  ∀ s, e = Slept s → s = interval config.

End fixed_paths.

(** ** The registry document

    The document as the format of the registry describes it, line by line.
    These definitions do not use the formatters of [sync.py]: they are what
    the text [run_once] writes is compared with. *)

Definition nonempty {A} (d : option (list A)) : bool :=
  match d with
  | Some (_ :: _) => true
  | _ => false
  end.

(** A comma closes every item but the last. *)
Fixpoint with_commas (items : list string) : list string :=
  match items with
  | [] => []
  | [x] => [x]
  | x :: rest => (x +:+ ",") :: with_commas rest
  end.

(** One label with its integer version, and one field of a policy. *)
Definition label_line (kv : string * Z) : string :=
  "      " +:+ dquote +:+ kv.1 +:+ dquote +:+ ": " +:+ str_of_int kv.2.

Definition policy_line (kv : string * string) : string :=
  "      " +:+ kv.1 +:+ ": " +:+ kv.2.

(** The lines of the two sub-blocks: an opening line, one line per item in
    the order of the mapping, a closing line; no line at all when the
    mapping is missing or empty. *)
Definition labels_lines (labels : option (list (string * Z))) : list string :=
  if nonempty labels
  then ["  version_labels {"] ++ with_commas (label_line <$> default [] labels) ++ ["  }"]
  else [].

Definition policy_lines (policy : option (list (string * string))) : list string :=
  if nonempty policy
  then ["  version_policy {"] ++ (policy_line <$> default [] policy) ++ ["  }"]
  else [].

(** The lines of one model, in the order the format fixes. *)
Definition model_lines (m : LocalModel) : list string :=
  [ "  config {";
    "    name: " +:+ dquote +:+ lm_name m +:+ dquote;
    "    base_path: " +:+ dquote +:+ lm_base_path m +:+ dquote;
    "    model_platform: " +:+ dquote +:+ lm_model_platform m +:+ dquote ]
  ++ labels_lines (lm_version_labels m)
  ++ policy_lines (lm_version_policy m)
  ++ [ "  }" ].

(** The lines of the whole document. *)
Definition registry_lines (local_models : list LocalModel) : list string :=
  ["model_config_list {"] ++ concat (model_lines <$> local_models) ++ ["}"].

(** The same document with each sub-block held as one item, its lines
    joined by line breaks: the items [run_once] collects before it joins
    them. *)
Definition optional_block (lines : list string) : list string :=
  match lines with
  | [] => []
  | _ => [join newline lines]
  end.

Definition model_block (m : LocalModel) : list string :=
  [ "  config {";
    "    name: " +:+ dquote +:+ lm_name m +:+ dquote;
    "    base_path: " +:+ dquote +:+ lm_base_path m +:+ dquote;
    "    model_platform: " +:+ dquote +:+ lm_model_platform m +:+ dquote ]
  ++ optional_block (labels_lines (lm_version_labels m))
  ++ optional_block (policy_lines (lm_version_policy m))
  ++ [ "  }" ].

Definition registry_document (local_models : list LocalModel) : list string :=
  ["model_config_list {"] ++ concat (model_block <$> local_models) ++ ["}"].

(** * [config.py]: [load_config] *)

Module Loader.

(** What [yaml.safe_load] returns.  A mapping is the dictionary it builds,
    one item per key; [YOther] stands for the remaining scalars (floats,
    dates, bytes) with their truth value. *)
#[warnings="-register-all"]
Inductive yaml :=
  | YNone
  | YBool (b : bool)
  | YInt (z : Z)
  | YStr (s : string)
  | YList (items : list yaml)
  | YDict (fields : list (yaml * yaml))
  | YOther (truth : bool).

(** [bool(v)] *)
Definition truth (v : yaml) : bool :=
  match v with
  | YNone => false
  | YBool b => b
  | YInt z => negb (z =? 0)%Z
  | YStr s => negb (String.eqb s "")
  | YList items => match items with [] => false | _ => true end
  | YDict fields => match fields with [] => false | _ => true end
  | YOther t => t
  end.

(** [k == key] for a string [k]: only a string key equals it. *)
Definition key_is (k : string) (key : yaml) : bool :=
  match key with
  | YStr s => String.eqb s k
  | _ => false
  end.

(** [d.get(k)]: [None] when the key is missing. *)
Definition dict_get (k : string) (fields : list (yaml * yaml)) : yaml :=
  match List.find (λ kv, key_is k kv.1) fields with
  | Some kv => kv.2
  | None => YNone
  end.

(** How [load_config] ends when it raises. *)
Inductive load_error :=
  | OpenFailed (e : exn)
  | YAMLError
  | AttributeError
  | EnvironmentNotFound (env path : string)
  | DaciteError
  | ManifestPathNotSet (env : string).

(** What surrounds [load_config]: the process environment, [open] on the
    local file system, [yaml.safe_load] and dacite's [from_dict] for
    [SyncConfig] ([None] when they raise). *)
Record LoadEnv := {
  environ : gmap string string;
  open_text : string → exn + string;
  safe_load : string → option yaml;
  from_dict : yaml → option SyncConfig;
}.

Definition set_hdfs_model_config_path (c : SyncConfig) (p : string) : SyncConfig :=
  {| hdfs := hdfs c;
     hdfs_model_config_path := Some p;
     Config.local_model_root := Config.local_model_root c;
     sync_interval_minutes := sync_interval_minutes c;
     enable_sync_loop := enable_sync_loop c |}.

(** Truth value of an [Optional[str]] *)
Definition str_truthy (s : option string) : bool :=
  match s with
  | None => false
  | Some s => negb (String.eqb s "")
  end.

(** [load_config] *)
Definition load_config (le : LoadEnv) (path : string) : load_error + SyncConfig :=
  match open_text le path with
  | inl e => inl (OpenFailed e)
  | inr text =>
      match safe_load le text with
      | None => inl YAMLError
      | Some raw_config =>
          let env := default "dev" (environ le !! "APP_ENV") in
          match raw_config with
          | YDict fields =>
              let env_config := dict_get env fields in
              if negb (truth env_config) then inl (EnvironmentNotFound env path)
              else
                match from_dict le env_config with
                | None => inl DaciteError
                | Some config_obj =>
                    let env_override := environ le !! "HDFS_MODEL_CONFIG_PATH" in
                    let config_obj :=
                      if str_truthy env_override
                      then set_hdfs_model_config_path config_obj (default "" env_override)
                      else config_obj in
                    if negb (str_truthy (hdfs_model_config_path config_obj))
                    then inl (ManifestPathNotSet env)
                    else inr config_obj
                end
          | _ => inl AttributeError
          end
      end
  end.

End Loader.

(** * More vocabulary *)

(** A transfer, if the event announces one, goes to a path whose resolved
    text starts with the text of the root: what the containment check of
    [_sync_directory] tests. *)
Definition lands_in_root_text (env : Env) (config : SyncConfig) (e : event) : Prop :=
  ∀ src dst, e = InfoCopying src dst →
    startswith (path_str (resolve dst)) (path_str (Sync.local_model_root env config)) = true.

(** The body of the [try] of [run_once]: steps 1 to 4. *)
Definition cycle_body (env : Env) (config : SyncConfig) : M unit :=
  content ← read_manifest env config;
  hdfs_models ← _parse_model_config env content;
  local_models ← sync_models env config (model_config hdfs_models) [];
  remove_deleted_models env config (model_config hdfs_models);;
  write_models_config env config local_models.

(** The entry [n] at the path [p], if it is there, stays. *)
Definition entry_stays (p : Path) (n : node) : relation tree := λ m m',
  m !! p = Some n → m' !! p = Some n.

(** A regular file at [q], if there is one, stays a regular file. *)
Definition file_stays (q : Path) : relation tree := λ m m',
  (∃ t d, m !! q = Some (File t d)) → ∃ t d, m' !! q = Some (File t d).

(** The local tree a cycle needs and leaves: the root is a directory and
    the lock marker of the process a regular file. *)
Definition locked (env : Env) (config : SyncConfig) (m : tree) : Prop :=
  (∃ t, m !! Sync.local_model_root env config = Some (Dir t))
  ∧ (∃ t d, m !! lock_path env config = Some (File t d)).

Definition locked_stays (env : Env) (config : SyncConfig) : relation tree := λ m m',
  locked env config m → locked env config m'.

(** The lines that mark the rhythm of the continuous mode. *)
Definition is_schedule_mark (e : event) : bool :=
  match e with
  | InfoCycleFinished | Slept _ => true
  | _ => false
  end.

(** The character [c] does not occur in [s]. *)
Fixpoint char_free (c : Ascii.ascii) (s : string) : bool :=
  match s with
  | EmptyString => true
  | String c' s' => negb (Ascii.eqb c' c) && char_free c s'
  end.

Fixpoint string_last (s : string) : option Ascii.ascii :=
  match s with
  | EmptyString => None
  | String c s' =>
      match string_last s' with
      | Some c' => Some c'
      | None => Some c
      end
  end.

(** A path as a file system has it: no segment is empty or holds the
    separator. *)
Definition well_formed (p : Path) : Prop :=
  Forall (λ x, sep_free x = true ∧ x ≠ "") p.

(** Where a path can lie whose text starts with the text of [root]: under
    [root], or under a sibling of [root] whose name starts with the name of
    [root]. *)
Definition under_or_beside (root q : Path) : Prop :=
  root `prefix_of` q
  ∨ ∃ x rest,
      q = parent root ++ x :: rest
      ∧ String.prefix (path_name root) x = true
      ∧ x ≠ path_name root.

(** A text is empty or starts with the separator. *)
Definition at_boundary (rest : string) : Prop :=
  ∀ c r, rest = String c r → c = sep.

(** ** The registry file, read back line by line *)

Definition line_break : Ascii.ascii := ascii_of_nat 10.

(** [text.split("\n")] *)
Fixpoint split_lines (s : string) : list string :=
  match s with
  | EmptyString => [EmptyString]
  | String c s' =>
      if Ascii.eqb c line_break then EmptyString :: split_lines s'
      else match split_lines s' with
           | [] => [String c EmptyString]
           | x :: xs => String c x :: xs
           end
  end.

(** No string of the model holds a line break. *)
Definition single_line (s : string) : bool := char_free line_break s.

Definition single_line_model (m : LocalModel) : bool :=
  single_line (lm_name m) && single_line (lm_base_path m)
  && single_line (lm_model_platform m)
  && forallb (λ kv : string * Z, single_line kv.1) (default [] (lm_version_labels m))
  && forallb (λ kv : string * string, single_line kv.1 && single_line kv.2)
       (default [] (lm_version_policy m)).

(** * Concrete deployments *)

Module Examples.

(** [assoc k table]: the first value recorded for [k]. *)
Fixpoint assoc {A} (k : string) (table : list (string * A)) : option A :=
  match table with
  | [] => None
  | (k', v) :: rest => if String.eqb k k' then Some v else assoc k rest
  end.

Definition file_info (p : string) (t : option Z) : pafs.FileInfo :=
  {| pafs.path := p; pafs.type := pafs.File; pafs.mtime := t |}.

Definition dir_info (p : string) : pafs.FileInfo :=
  {| pafs.path := p; pafs.type := pafs.Directory; pafs.mtime := None |}.

Definition stream (d : string) : pafs.InputStream :=
  {| pafs.data := d; pafs.complete := true |}.

(** A remote file system given by its directories with their recursive
    listings, and its readable files. *)
Definition remote (listings : list (string * list pafs.FileInfo))
    (files : list (string * pafs.InputStream)) : pafs.HadoopFileSystem :=
  {| pafs.get_file_info := λ p,
       Some (match assoc p listings with
             | Some _ => dir_info p
             | None => {| pafs.path := p; pafs.type := pafs.NotFound; pafs.mtime := None |}
             end);
     pafs.get_file_info_selector := λ p, assoc p listings;
     pafs.open_input_file := λ p, assoc p files |}.

Definition entry (n b : string) : ModelEntry :=
  {| name := n; base_path := b; model_platform := "tensorflow";
     version_labels := Some [("stable", 3%Z)]; version_policy := None |}.

(** A process whose clock reads 100, 101, ..., with the manifests its YAML
    loader accepts. *)
Definition environment (fs : pafs.HadoopFileSystem)
    (manifests : list (string * list ModelEntry)) : Env :=
  {| connect := λ _ _ _ _, inr fs;
     hdfs_fs := fs;
     clock := λ n, (100 + Z.of_nat n)%Z;
     cwd := [];
     getpid := 123;
     load_manifest := λ content, (λ es, {| model_config := es |}) <$> assoc content manifests |}.

Definition settings (minutes : Z) : SyncConfig :=
  {| hdfs := {| name_services := "ns"; user := "sync"; namenodes := [] |};
     hdfs_model_config_path := Some "/conf/models.yml";
     Config.local_model_root := "/data/models";
     sync_interval_minutes := minutes;
     enable_sync_loop := true |}.

Definition root : Path := ["data"; "models"].

(** A local tree holding the root and [entries]. *)
Definition start (entries : list (Path * node)) : world :=
  {| fs := list_to_map (([], Dir 0) :: (["data"], Dir 0) :: (root, Dir 0) :: entries);
     ticks := 0;
     log := [] |}.

(** Three synchronised models, the manifest declaring two of them. *)
Definition abc_remote : pafs.HadoopFileSystem :=
  remote
    [ ("/m/A", [dir_info "/m/A/1"; file_info "/m/A/1/f" (Some 5%Z)]);
      ("/m/C", [file_info "/m/C/h" (Some 7%Z)]) ]
    [ ("/conf/models.yml", stream "A,C");
      ("/m/A/1/f", stream "fa"); ("/m/C/h", stream "hc") ].

Definition abc_manifest : ModelConfigList :=
  {| model_config := [entry "A" "/m/A"; entry "C" "/m/C"] |}.

Definition abc_env : Env :=
  environment abc_remote [("A,C", model_config abc_manifest)].

(** What the per-model loop collects for that manifest. *)
Definition abc_models : list LocalModel :=
  [ {| lm_name := "A"; lm_base_path := "/data/models/A"; lm_model_platform := "tensorflow";
       lm_version_labels := Some [("stable", 3%Z)]; lm_version_policy := None |};
    {| lm_name := "C"; lm_base_path := "/data/models/C"; lm_model_platform := "tensorflow";
       lm_version_labels := Some [("stable", 3%Z)]; lm_version_policy := None |} ].

Definition abc_world : world :=
  start
    [ (root ++ ["A"], Dir 0); (root ++ ["A"; "1"], Dir 0);
      (root ++ ["A"; "1"; "f"], File 10 "fa");
      (root ++ ["B"], Dir 0); (root ++ ["B"; "g"], File 10 "gb");
      (root ++ ["C"], Dir 0); (root ++ ["C"; "h"], File 10 "hc");
      (root ++ ["models.config"], File 11 "old") ].

(** That world once the lock is taken and both models are found up to date. *)
Definition abc_reconciled : world :=
  {| fs := <[root ++ [".sync.lock.123"] := File 100 ""]> (fs abc_world);
     ticks := 3;
     log := [ InfoCycleStart;
              InfoProcessingModel "A"; DebugUpToDate (root ++ ["A"; "1"; "f"]);
              InfoProcessingModel "C"; DebugUpToDate (root ++ ["C"; "h"]) ] |}.

(** The same deployment with a YAML loader that rejects the manifest. *)
Definition unparsed_env : Env := environment abc_remote [].

(** A manifest naming a model after a sibling of the root. *)
Definition sibling_remote : pafs.HadoopFileSystem :=
  remote
    [ ("/m/E", [file_info "/m/E/f" (Some 5%Z)]) ]
    [ ("/conf/models.yml", stream "E"); ("/m/E/f", stream "payload") ].

Definition sibling_env : Env :=
  environment sibling_remote [("E", [entry "../models_evil" "/m/E"])].

(** A remote directory holding a file [a] next to a directory [a.tmp]. *)
Definition clash_remote : pafs.HadoopFileSystem :=
  remote
    [ ("/m/A", [dir_info "/m/A/a.tmp"; file_info "/m/A/a.tmp/x" (Some 5%Z);
                file_info "/m/A/a" (Some 5%Z)]) ]
    [ ("/conf/models.yml", stream "A");
      ("/m/A/a.tmp/x", stream "x"); ("/m/A/a", stream "a") ].

Definition clash_env : Env := environment clash_remote [("A", [entry "A" "/m/A"])].

Definition clash_world : world :=
  start [ (root ++ ["A"], Dir 0); (root ++ ["A"; "a.tmp"], Dir 0);
          (root ++ ["A"; "a.tmp"; "x"], File 10 "x") ].

(** A remote file that reports no modification time. *)
Definition undated_remote : pafs.HadoopFileSystem :=
  remote
    [ ("/m/U", [file_info "/m/U/f" None]) ]
    [ ("/conf/models.yml", stream "U"); ("/m/U/f", stream "u") ].

Definition undated_env : Env := environment undated_remote [("U", [entry "U" "/m/U"])].

End Examples.

(** * More deployments *)

Module Examples2.
Import Examples.

(** A local tree in which a file sits where the directory of model A
    should be. *)
Definition blocked_world : world :=
  start [ (root ++ ["A"], File 10 "in the way") ].

(** A deployment whose remote side has no manifest. *)
Definition offline_env : Env := environment (remote [] []) [].

(** The three-model deployment with a manifest whose bytes are no UTF-8
    text. *)
Definition garbled : string :=
  String (ascii_of_nat 255) (String (ascii_of_nat 254) EmptyString).

Definition garbled_env : Env :=
  environment (remote [] [("/conf/models.yml", stream garbled)]) [].

(** The settings with the loop disabled. *)
Definition settings_once : SyncConfig :=
  {| hdfs := hdfs (settings 0);
     hdfs_model_config_path := hdfs_model_config_path (settings 0);
     Config.local_model_root := Config.local_model_root (settings 0);
     sync_interval_minutes := 5;
     enable_sync_loop := false |}.

(** A configuration file with a [dev] section that names no manifest, read
    by a process whose environment names one. *)
Definition dev_section : Loader.yaml :=
  Loader.YDict
    [ (Loader.YStr "local_model_root", Loader.YStr "/data/models");
      (Loader.YStr "sync_interval_minutes", Loader.YInt 5) ].

Definition file_settings : SyncConfig :=
  {| hdfs := hdfs (settings 0);
     hdfs_model_config_path := None;
     Config.local_model_root := "/data/models";
     sync_interval_minutes := 5;
     enable_sync_loop := true |}.

Definition loader : Loader.LoadEnv :=
  {| Loader.environ := {[ "HDFS_MODEL_CONFIG_PATH" := "/conf/models.yml" ]};
     Loader.open_text := λ p,
       if String.eqb p "config/config.yml" then inr "dev: {...}" else inl FileNotFoundError;
     Loader.safe_load := λ _, Some (Loader.YDict [(Loader.YStr "dev", dev_section)]);
     Loader.from_dict := λ _, Some file_settings |}.

End Examples2.

(** * Theorems *)

(** ** The path and text functions on examples *)

Example split_sep_ex : split_sep "a//b/./c" = ["a"; ""; "b"; "."; "c"].
Proof. reflexivity. Qed.

Example joinpath_ex : joinpath ["data"; "models"] "../x/./y" = ["data"; "models"; ".."; "x"; "y"].
Proof. reflexivity. Qed.

Example joinpath_abs_ex : joinpath ["data"; "models"] "/etc/passwd" = ["etc"; "passwd"].
Proof. reflexivity. Qed.

Example resolve_ex : resolve ["data"; "models"; ".."; ".."; ".."; "x"] = ["x"].
Proof. reflexivity. Qed.

Example relpath_ex :
  relpath [] "/models/m1/1/saved_model.pb" "/models/m1" = Some "1/saved_model.pb".
Proof. reflexivity. Qed.

Example relpath_up_ex : relpath [] "/models/other/x" "/models/m1" = Some "../other/x".
Proof. reflexivity. Qed.

Example relpath_self_ex : relpath [] "/models/m1" "/models/m1/" = Some ".".
Proof. reflexivity. Qed.

Example with_tmp_suffix_ex :
  with_tmp_suffix ["r"; "m"; "a.tar.gz"] = Some ["r"; "m"; "a.tar.gz.tmp"].
Proof. reflexivity. Qed.

Example str_of_int_ex : (str_of_int 0, str_of_int 42, str_of_int (-7)) = ("0", "42", "-7").
Proof. reflexivity. Qed.

Example decode_utf8_ex :
  ( decode_utf8 "A,C",
    decode_utf8 (String (ascii_of_nat 195) (String (ascii_of_nat 169) EmptyString)),
    decode_utf8 (String (ascii_of_nat 255) (String (ascii_of_nat 254) EmptyString)),
    decode_utf8 (String (ascii_of_nat 192) (String (ascii_of_nat 128) EmptyString)) )
  = ( Some "A,C",
      Some (String (ascii_of_nat 195) (String (ascii_of_nat 169) EmptyString)),
      None, None ).
Proof. reflexivity. Qed.

Example split_lines_ex :
  split_lines ("a" +:+ newline +:+ newline +:+ "b") = ["a"; EmptyString; "b"].
Proof. reflexivity. Qed.

(** * Reasoning about computations *)

Lemma bind_unfold {A B} (c : M A) (f : A → M B) w :
  (c ≫= f) w = match c w with Return a w' => f a w' | Raise e w' => Raise e w' end.
Proof. reflexivity. Qed.

Lemma bind_Return {A B} (c : M A) (f : A → M B) w a w' :
  c w = Return a w' → (c ≫= f) w = f a w'.
Proof. intros H. rewrite bind_unfold, H. reflexivity. Qed.

Lemma bind_Raise {A B} (c : M A) (f : A → M B) w e w' :
  c w = Raise e w' → (c ≫= f) w = Raise e w'.
Proof. intros H. rewrite bind_unfold, H. reflexivity. Qed.

Lemma bind_Return_inv {A B} (c : M A) (f : A → M B) w b w2 :
  (c ≫= f) w = Return b w2 → ∃ a w1, c w = Return a w1 ∧ f a w1 = Return b w2.
Proof. rewrite bind_unfold. destruct (c w) as [a w1|e w1]; [eauto | discriminate]. Qed.

Lemma for_each_cons {A} (x : A) xs body w :
  for_each (x :: xs) body w =
  match body x w with Return _ w' => for_each xs body w' | Raise e w' => Raise e w' end.
Proof. reflexivity. Qed.

Section always.
Context (R : relation world) `{!PreOrder R}.

Lemma always_ret {A} (a : A) : always R (mret a).
Proof. intros w. simpl. reflexivity. Qed.

Lemma always_raise {A} e : always R (raise (A:=A) e).
Proof. intros w. simpl. reflexivity. Qed.

Lemma always_bind {A B} (c : M A) (f : A → M B) :
  always R c → (∀ a, always R (f a)) → always R (c ≫= f).
Proof.
  intros Hc Hf w. rewrite bind_unfold. specialize (Hc w).
  destruct (c w) as [a w1|e w1]; simpl in *; [|done].
  etrans; [exact Hc | apply Hf].
Qed.

Lemma always_try_except {A} (c : M A) h :
  always R c → (∀ e, always R (h e)) → always R (try_except c h).
Proof.
  intros Hc Hh w. unfold try_except. specialize (Hc w).
  destruct (c w) as [a w1|e w1]; simpl in *; [done|].
  etrans; [exact Hc | apply Hh].
Qed.

Lemma always_try_finally {A} (c : M A) (final : M unit) :
  always R c → always R final → always R (try_finally c final).
Proof.
  intros Hc Hf w. unfold try_finally. specialize (Hc w).
  destruct (c w) as [a w1|e w1]; simpl in *;
    specialize (Hf w1); destruct (final w1); simpl in *; by etrans.
Qed.

Lemma always_for_each {A} (xs : list A) body :
  (∀ x, x ∈ xs → always R (body x)) → always R (for_each xs body).
Proof.
  induction xs as [|x xs IH]; intros Hb.
  - apply always_ret.
  - simpl. apply always_bind.
    + apply Hb. left.
    + intros _. apply IH. intros y Hy. apply Hb. by right.
Qed.

Lemma always_lift_option {A} e (o : option A) : always R (lift_option e o).
Proof. destruct o; [apply always_ret | apply always_raise]. Qed.

Lemma always_lift_sum {A} (r : exn + A) : always R (lift_sum r).
Proof. destruct r; [apply always_raise | apply always_ret]. Qed.

Lemma always_reading {A} (f : tree → A) : always R (reading f).
Proof. intros w. simpl. reflexivity. Qed.
End always.

Global Instance emitting_preorder P : PreOrder (emitting P).
Proof.
  split.
  - intros w. exists []. by rewrite app_nil_r.
  - intros w1 w2 w3 (e1 & H1 & F1) (e2 & H2 & F2). exists (e1 ++ e2).
    rewrite H2, H1, app_assoc. split; [done | by apply Forall_app].
Qed.

Global Instance moving_preorder Rt `{!PreOrder Rt} : PreOrder (moving Rt).
Proof.
  split.
  - intros w. unfold moving. reflexivity.
  - intros w1 w2 w3. unfold moving. intros. by etrans.
Qed.

Lemma emitting_logging P e : P e → always (emitting P) (logging e).
Proof. intros HP w. exists [e]. simpl. split; [done | by constructor]. Qed.

Lemma emitting_writing P clock f : always (emitting P) (writing clock f).
Proof.
  intros w. unfold writing. destruct (f _ _); simpl; exists []; by rewrite app_nil_r.
Qed.

Lemma moving_logging Rt `{!PreOrder Rt} e : always (moving Rt) (logging e).
Proof. intros w. unfold moving. simpl. reflexivity. Qed.

Lemma moving_writing Rt `{!PreOrder Rt} clock f :
  (∀ t m m', f t m = inr m' → Rt m m') → always (moving Rt) (writing clock f).
Proof.
  intros Hf w. unfold writing, moving.
  destruct (f _ _) as [e|m'] eqn:E; simpl; [reflexivity | by eapply Hf].
Qed.

Ltac unfold_calls :=
  unfold mkdir, path_exists, is_dir, stat_st_mtime, open_wb, write, replace, unlink,
    rmtree, iterdir, copyfileobj, write_text, with_FileLock, sleep.

Ltac always_step :=
  first
    [ apply always_ret | apply always_raise | apply always_lift_option
    | apply always_lift_sum | apply always_reading
    | apply always_bind | apply always_try_except | apply always_try_finally
    | apply always_for_each
    | apply emitting_writing | apply emitting_logging
    | apply moving_logging ].

Ltac always_intro :=
  lazymatch goal with
  | |- always _ _ => fail
  | |- ∀ _, _ => intro
  end.

Ltac always_auto :=
  repeat (first [ always_step | progress unfold_calls | always_intro | case_match ]);
  try apply _.

Section emitted.
Context (env : Env) (config : SyncConfig).

Lemma copy_emits hp lf :
  always (emitting (λ e, e = ErrorCopyFailed hp)) (_copy_file_atomically env hp lf).
Proof. unfold _copy_file_atomically. always_auto. done. Qed.

End emitted.

Lemma always_mono {A} (R R' : relation world) (c : M A) :
  (∀ w w', R w w' → R' w w') → always R c → always R' c.
Proof. intros HR Hc w. apply HR, Hc. Qed.

Lemma emitting_mono (P Q : event → Prop) w w' :
  (∀ e, P e → Q e) → emitting P w w' → emitting Q w w'.
Proof.
  intros HPQ (evs & Hl & HF). exists evs. split; [done|].
  eapply Forall_impl; eauto.
Qed.

(** ** Paths *)

Lemma resolve_snoc p x : resolve (p ++ [x]) = resolve_step (resolve p) x.
Proof. unfold resolve. by rewrite foldl_app. Qed.

Lemma elem_of_removelast {A} (x : A) l : x ∈ removelast l → x ∈ l.
Proof.
  induction l as [|y l IH]; simpl; [done|].
  destruct l as [|z l]; [by rewrite elem_of_nil|].
  intros H. apply elem_of_cons in H as [->|H]; [by left|]. right. by apply IH.
Qed.

Lemma resolve_no_pardir p : pardir ∉ resolve p.
Proof.
  induction p as [|x p IH] using rev_ind; [apply not_elem_of_nil|].
  rewrite resolve_snoc. unfold resolve_step.
  destruct (String.eqb x pardir) eqn:E.
  - intros H. by apply IH, elem_of_removelast.
  - apply String.eqb_neq in E. intros [H|H%list_elem_of_singleton]%elem_of_app; [done|].
    by apply E.
Qed.

Lemma resolve_id q : pardir ∉ q → resolve q = q.
Proof.
  induction q as [|x q IH] using rev_ind; [done|].
  rewrite elem_of_app, list_elem_of_singleton. intros H.
  rewrite resolve_snoc, IH by naive_solver. unfold resolve_step.
  destruct (String.eqb x pardir) eqn:E; [|done].
  apply String.eqb_eq in E. naive_solver.
Qed.

Lemma resolve_idemp p : resolve (resolve p) = resolve p.
Proof. apply resolve_id, resolve_no_pardir. Qed.

Lemma local_model_root_resolved env config :
  resolve (local_model_root env config) = local_model_root env config.
Proof. apply resolve_idemp. Qed.

Section decisions.
Context (env : Env) (config : SyncConfig).

(** [_should_update_file] reads the tree and leaves the world as it is. *)
Lemma should_update_file_eq (file_info : pafs.FileInfo) (local_file : Path) (w : world) :
  _should_update_file file_info local_file w =
  Return
    (match pafs.mtime file_info with
     | None => true
     | Some remote_mtime =>
         match fs w !! resolve local_file with
         | None => true
         | Some n => bool_decide (st_mtime n < remote_mtime)%Z
         end
     end) w.
Proof.
  unfold _should_update_file. destruct (pafs.mtime file_info) as [t|]; [|done].
  unfold path_exists, stat_st_mtime, reading. rewrite !bind_unfold.
  destruct (fs w !! resolve local_file) as [n|] eqn:E.
  - rewrite bool_decide_true by (by eexists). rewrite !bind_unfold, E. simpl.
    unfold mret, M_ret. f_equal. apply bool_decide_ext. lia.
  - rewrite bool_decide_false by (by intros [? ?]). done.
Qed.

(** C3.  Update decision: [_should_update_file] returns, without touching
    the world, the answer "transfer" when the remote entry reports no
    modification time; otherwise "transfer" when nothing exists at the local
    path; otherwise "transfer" exactly when the remote modification time is
    strictly newer than the local one, so that an equal or older remote
    stamp means "skip". *)
Theorem should_update_file_decision (file_info : pafs.FileInfo) (local_file : Path) (w : world) :
  ∃ transfer : bool,
    _should_update_file file_info local_file w = Return transfer w
    ∧ (pafs.mtime file_info = None → transfer = true)
    ∧ (∀ remote_mtime,
         pafs.mtime file_info = Some remote_mtime →
         fs w !! resolve local_file = None → transfer = true)
    ∧ (∀ remote_mtime n,
         pafs.mtime file_info = Some remote_mtime →
         fs w !! resolve local_file = Some n →
         (transfer = true ↔ (st_mtime n < remote_mtime)%Z)
         ∧ (transfer = false ↔ (remote_mtime ≤ st_mtime n)%Z)).
Proof.
  eexists. split; [apply should_update_file_eq|].
  split_and!.
  - by intros ->.
  - by intros t -> ->.
  - intros t n -> ->. case_bool_decide; split; split; first [done | lia].
Qed.

End decisions.

(** ** The tree operations *)

Global Instance dirs_persist_preorder : PreOrder dirs_persist.
Proof.
  split.
  - by intros m p t H.
  - intros m1 m2 m3 H1 H2 p t H. by apply H2, H1.
Qed.

Lemma mkdir_rev_unfold t rp m :
  mkdir_rev t rp m =
  match m !! rev rp with
  | Some (Dir _) => inr m
  | Some (File _ _) => inl FileExistsError
  | None =>
      match rp with
      | [] => inl FileNotFoundError
      | _ :: rparent =>
          match m !! rev rparent with
          | Some (Dir _) => inr (<[rev rp := Dir t]> m)
          | Some (File _ _) => inl NotADirectoryError
          | None =>
              match mkdir_rev t rparent m with
              | inr m' => inr (<[rev rp := Dir t]> m')
              | inl e => inl e
              end
          end
      end
  end.
Proof. destruct rp; reflexivity. Qed.

Lemma mkdir_rev_spec t rp m m' :
  mkdir_rev t rp m = inr m' →
  (∀ p n, m !! p = Some n → m' !! p = Some n)
  ∧ (∀ p n, m' !! p = Some n → m !! p = None → n = Dir t ∧ p `prefix_of` rev rp)
  ∧ (∃ t', m' !! rev rp = Some (Dir t')).
Proof.
  revert m'. induction rp as [|x rparent IH]; intros m'; rewrite mkdir_rev_unfold.
  - destruct (m !! rev []) as [[]|] eqn:E; intros; simplify_eq.
    split_and!; [done | congruence | eauto].
  - assert (Hpre : ∀ p, p `prefix_of` rev rparent → p `prefix_of` rev (x :: rparent)).
    { intros p Hp. simpl. by apply prefix_app_r. }
    generalize dependent (rev (x :: rparent)). intros q Hpre.
    destruct (m !! q) as [[]|] eqn:E.
    + discriminate.
    + intros; simplify_eq. split_and!; [done | congruence | eauto].
    + destruct (m !! rev rparent) as [[]|] eqn:Ep.
      * discriminate.
      * intros; simplify_eq. split_and!.
        -- intros p n Hp. rewrite lookup_insert_ne; [done | congruence].
        -- intros p n Hp Hn. destruct (decide (p = q)) as [->|Hne].
           ++ rewrite lookup_insert_eq in Hp. by simplify_eq.
           ++ rewrite lookup_insert_ne in Hp by done. congruence.
        -- rewrite lookup_insert_eq. eauto.
      * destruct (mkdir_rev t rparent m) as [e|m''] eqn:Er; [discriminate|].
        destruct (IH m'' eq_refl) as (H1 & H2 & H3).
        intros; simplify_eq. split_and!.
        -- intros p n Hp. rewrite lookup_insert_ne; [by apply H1 | congruence].
        -- intros p n Hp Hn. destruct (decide (p = q)) as [->|Hne].
           ++ rewrite lookup_insert_eq in Hp. by simplify_eq.
           ++ rewrite lookup_insert_ne in Hp by done.
              destruct (H2 p n Hp Hn) as [-> Hp']. split; [done|]. by apply Hpre.
        -- rewrite lookup_insert_eq. eauto.
Qed.

Lemma mkdir_tree_spec t q m m' :
  mkdir_tree t q m = inr m' →
  (∀ p n, m !! p = Some n → m' !! p = Some n)
  ∧ (∀ p n, m' !! p = Some n → m !! p = None → n = Dir t ∧ p `prefix_of` q)
  ∧ (∃ t', m' !! q = Some (Dir t')).
Proof.
  unfold mkdir_tree. intros H. apply mkdir_rev_spec in H. by rewrite rev_involutive in H.
Qed.

Lemma mkdir_tree_present t q m t0 :
  m !! q = Some (Dir t0) → mkdir_tree t q m = inr m.
Proof.
  intros H. unfold mkdir_tree. rewrite mkdir_rev_unfold, rev_involutive, H. done.
Qed.

Lemma mkdir_rev_failure t rp m e :
  mkdir_rev t rp m = inl e →
  ∃ p, p `prefix_of` rev rp ∧ ¬ ∃ t0, m !! p = Some (Dir t0).
Proof.
  revert e. induction rp as [|x rparent IH]; intros e; rewrite mkdir_rev_unfold.
  - destruct (m !! rev []) as [[]|] eqn:E; intros; simplify_eq;
      exists []; (split; [done|]); simpl in E; intros [? ?]; congruence.
  - assert (Hpre : ∀ p, p `prefix_of` rev rparent → p `prefix_of` rev (x :: rparent)).
    { intros p Hp. simpl. by apply prefix_app_r. }
    generalize dependent (rev (x :: rparent)). intros q Hpre.
    destruct (m !! q) as [[]|] eqn:E.
    + intros _. exists q. split; [done|]. intros [? ?]; congruence.
    + discriminate.
    + destruct (m !! rev rparent) as [[]|] eqn:Ep.
      * intros _. exists (rev rparent). split; [by apply Hpre|].
        intros [? ?]; congruence.
      * discriminate.
      * destruct (mkdir_rev t rparent m) as [e'|m''] eqn:Er; [|discriminate].
        intros _. destruct (IH e' eq_refl) as (p & Hp & Hn). exists p. split; [|done].
        by apply Hpre.
Qed.

Lemma mkdir_tree_failure t q m e :
  mkdir_tree t q m = inl e →
  ∃ p, p `prefix_of` q ∧ ¬ ∃ t0, m !! p = Some (Dir t0).
Proof.
  unfold mkdir_tree. intros H. apply mkdir_rev_failure in H.
  by rewrite rev_involutive in H.
Qed.

Lemma writing_unfold clock f w :
  writing clock f w =
  match f (clock (ticks w)) (fs w) with
  | inr m => Return tt {| fs := m; ticks := S (ticks w); log := log w |}
  | inl e => Raise e w
  end.
Proof. reflexivity. Qed.

Section transfer.
Context (env : Env).

Lemma copy_unfold hp lf :
  _copy_file_atomically env hp lf =
  (mkdir env (parent lf);;
   tmp_file ← lift_option ValueError (with_tmp_suffix lf);
   try_except (copy_body env hp tmp_file lf) (λ _, copy_handler env hp tmp_file)).
Proof. reflexivity. Qed.

Lemma copy_handler_outcome hp tmp w :
  let failed := log w ++ [ErrorCopyFailed hp] in
  match fs w !! resolve tmp with
  | None =>
      copy_handler env hp tmp w = Return tt {| fs := fs w; ticks := ticks w; log := failed |}
  | Some (File _ _) =>
      copy_handler env hp tmp w =
      Return tt {| fs := delete (resolve tmp) (fs w); ticks := S (ticks w); log := failed |}
  | Some (Dir _) =>
      copy_handler env hp tmp w =
      Raise IsADirectoryError {| fs := fs w; ticks := ticks w; log := failed |}
  end.
Proof.
  unfold copy_handler, path_exists, unlink, reading, logging.
  rewrite !bind_unfold. simpl.
  destruct (fs w !! resolve tmp) as [[t d|t]|] eqn:E.
  - rewrite bool_decide_true by (by eexists).
    rewrite writing_unfold. simpl. unfold unlink_tree. by rewrite E.
  - rewrite bool_decide_true by (by eexists).
    rewrite writing_unfold. simpl. unfold unlink_tree. by rewrite E.
  - rewrite bool_decide_false by (by intros [? ?]). done.
Qed.

Lemma copy_body_outcome hp tmp lf w :
  (∃ e, copy_body env hp tmp lf w = Raise e w)
  ∨ (∃ e w' t d, copy_body env hp tmp lf w = Raise e w'
       ∧ fs w' = <[resolve tmp := File t d]> (fs w) ∧ log w' = log w)
  ∨ (∃ w' k src, copy_body env hp tmp lf w = Return tt w'
       ∧ pafs.open_input_file (hdfs_fs env) hp = Some src
       ∧ pafs.complete src = true
       ∧ fs w' = <[resolve lf := File (clock env k) (pafs.data src)]> (delete (resolve tmp) (fs w))
       ∧ log w' = log w).
Proof.
  remember (copy_body env hp tmp lf w) as r eqn:Hr.
  unfold copy_body in Hr. rewrite bind_unfold in Hr.
  destruct (pafs.open_input_file (hdfs_fs env) hp) as [src|] eqn:Hsrc; simpl in Hr;
    [|by eauto].
  rewrite bind_unfold in Hr. unfold open_wb in Hr. rewrite writing_unfold in Hr.
  destruct (open_wb_tree _ _ _) as [e|m2] eqn:Hopen; [by eauto|].
  assert (m2 = <[resolve tmp := File (clock env (ticks w)) ""]> (fs w)) as ->.
  { unfold open_wb_tree in Hopen. repeat case_match; by simplify_eq. }
  unfold copyfileobj in Hr. rewrite !bind_unfold in Hr. unfold write in Hr.
  rewrite writing_unfold in Hr. simpl in Hr. unfold write_tree in Hr.
  rewrite lookup_insert_eq, insert_insert_eq in Hr. simpl in Hr.
  destruct (pafs.complete src) eqn:Hc; simpl in Hr.
  - unfold replace in Hr. rewrite writing_unfold in Hr. simpl in Hr.
    destruct (replace_tree _ _ _) as [e|m4] eqn:Hrep.
    + right; left. do 4 eexists. split_and!; [done | simpl; reflexivity | done].
    + right; right. do 3 eexists. split_and!; [done | done | done | | done]. simpl.
      unfold replace_tree in Hrep. rewrite lookup_insert_eq in Hrep.
      rewrite delete_insert_eq in Hrep.
      repeat case_match; by simplify_eq.
  - right; left. do 4 eexists. split_and!; [done | simpl; reflexivity | done].
Qed.

Lemma copy_outcomes hp lf w :
  let r := _copy_file_atomically env hp lf w in
  let q := resolve lf in
  (∃ e, r = Raise e w)
  ∨ ∃ m1, mkdir_tree (clock env (ticks w)) (resolve (parent lf)) (fs w) = inr m1 ∧
      ((with_tmp_suffix lf = None ∧ ∃ e w', r = Raise e w' ∧ fs w' = m1 ∧ log w' = log w)
       ∨ ∃ tmp, with_tmp_suffix lf = Some tmp ∧
           ((∃ w' k src, r = Return tt w'
               ∧ pafs.open_input_file (hdfs_fs env) hp = Some src
               ∧ pafs.complete src = true
               ∧ fs w' = <[q := File (clock env k) (pafs.data src)]> (delete (resolve tmp) m1)
               ∧ log w' = log w)
            ∨ (∃ w', r = Return tt w'
               ∧ fs w' = delete (resolve tmp) m1
               ∧ log w' = log w ++ [ErrorCopyFailed hp])
            ∨ (∃ w' t, r = Raise IsADirectoryError w'
               ∧ m1 !! resolve tmp = Some (Dir t)
               ∧ fs w' = m1
               ∧ log w' = log w ++ [ErrorCopyFailed hp]))).
Proof.
  intros r q. subst r. rewrite copy_unfold, bind_unfold.
  unfold mkdir. rewrite writing_unfold.
  destruct (mkdir_tree _ _ _) as [e|m1] eqn:Hmk; [by eauto|].
  right. exists m1. split; [done|]. rewrite bind_unfold.
  destruct (with_tmp_suffix lf) as [tmp|]; simpl; [|by left; eauto 10].
  right. exists tmp. split; [done|]. unfold try_except.
  set (w1 := {| fs := m1; ticks := S (ticks w); log := log w |}).
  destruct (copy_body_outcome hp tmp lf w1)
    as [[e He]|[(e & w2 & t & d & He & Hfs & Hlog)|(w2 & k & src & He & ? & ? & Hfs & Hlog)]];
    rewrite He.
  - pose proof (copy_handler_outcome hp tmp w1) as Hh. simpl in Hh.
    destruct (m1 !! resolve tmp) as [[t d|t]|] eqn:E; rewrite Hh.
    + right; left. eexists. split_and!; done.
    + right; right. do 2 eexists. split_and!; done.
    + right; left. eexists. split_and!; [done | | done]. simpl.
      by rewrite delete_id.
  - pose proof (copy_handler_outcome hp tmp w2) as Hh. simpl in Hh.
    rewrite Hfs, lookup_insert_eq in Hh. rewrite Hh.
    right; left. eexists. split_and!; [done | | by rewrite Hlog]. simpl.
    by rewrite delete_insert_eq.
  - left. exists w2, k, src. split_and!; done.
Qed.

End transfer.

Lemma moving_writing_clock Rt `{!PreOrder Rt} clock f :
  (∀ k m m', f (clock k) m = inr m' → Rt m m') → always (moving Rt) (writing clock f).
Proof.
  intros Hf w. unfold writing, moving.
  destruct (f _ _) as [e|m'] eqn:E; simpl; [reflexivity | by eapply Hf].
Qed.

Lemma dirs_persist_mkdir t q m m' : mkdir_tree t q m = inr m' → dirs_persist m m'.
Proof. intros H p t0 Hp. by apply (mkdir_tree_spec _ _ _ _ H). Qed.

Lemma dirs_persist_open_wb t q m m' : open_wb_tree t q m = inr m' → dirs_persist m m'.
Proof.
  unfold open_wb_tree. intros H p t0 Hp.
  repeat case_match; simplify_eq; (rewrite lookup_insert_ne; [done | congruence]).
Qed.

Lemma dirs_persist_write t q c m m' : write_tree t q c m = inr m' → dirs_persist m m'.
Proof.
  unfold write_tree. intros H p t0 Hp.
  repeat case_match; simplify_eq; (rewrite lookup_insert_ne; [done | congruence]).
Qed.

Lemma dirs_persist_replace qs qd m m' : replace_tree qs qd m = inr m' → dirs_persist m m'.
Proof.
  unfold replace_tree. intros H p t0 Hp.
  repeat case_match; simplify_eq;
    (rewrite lookup_insert_ne by congruence; rewrite lookup_delete_ne; [done | congruence]).
Qed.

Lemma dirs_persist_unlink q m m' : unlink_tree q m = inr m' → dirs_persist m m'.
Proof.
  unfold unlink_tree. intros H p t0 Hp.
  repeat case_match; simplify_eq; [|done].
  rewrite lookup_delete_ne; [done | congruence].
Qed.

Ltac dirs_auto :=
  repeat (first
    [ always_step
    | progress unfold_calls
    | apply moving_writing_clock; try apply _; intros ? ? ?;
      first [ apply dirs_persist_mkdir | apply dirs_persist_open_wb | apply dirs_persist_write
            | apply dirs_persist_replace | apply dirs_persist_unlink ]
    | always_intro | case_match ]);
  try apply _.

Section reconciler.
Context (env : Env) (config : SyncConfig).

Lemma copy_keeps_dirs hp lf : always (moving dirs_persist) (_copy_file_atomically env hp lf).
Proof. unfold _copy_file_atomically. dirs_auto. Qed.

Lemma should_update_pure fi lf w : world_of (_should_update_file fi lf w) = w.
Proof. by rewrite should_update_file_eq. Qed.

Lemma should_update_always R `{!PreOrder R} fi lf : always R (_should_update_file fi lf).
Proof. intros w. rewrite should_update_pure. reflexivity. Qed.

Lemma sync_entry_keeps_dirs d l fi : always (moving dirs_persist) (sync_entry env config d l fi).
Proof.
  unfold sync_entry.
  repeat (first [ apply should_update_always | apply copy_keeps_dirs | always_step
                | always_intro | case_match ]); apply _.
Qed.

Lemma sync_entry_emits d l fi :
  always (emitting is_reconcile_event) (sync_entry env config d l fi).
Proof.
  unfold sync_entry.
  repeat (first [ apply should_update_always
                | eapply always_mono; [|apply copy_emits]; intros ? ?; apply emitting_mono;
                  by intros ? ->
                | always_step | always_intro | case_match ]); try apply _; done.
Qed.

Lemma sync_directory_emits d l :
  always (emitting is_reconcile_event) (_sync_directory env config d l).
Proof.
  unfold _sync_directory. unfold_calls.
  repeat (first [ apply sync_entry_emits | always_step | always_intro | case_match ]);
    try apply _; done.
Qed.

Lemma sync_directory_keeps_dirs d l :
  always (moving dirs_persist) (_sync_directory env config d l).
Proof.
  unfold _sync_directory.
  repeat (first [ apply sync_entry_keeps_dirs | progress dirs_auto ]).
Qed.

End reconciler.

(** ** The reconciler, entry by entry *)

Lemma transfers_app a b : transfers (a ++ b) = transfers a + transfers b.
Proof. unfold transfers. by rewrite List.filter_app, length_app. Qed.

Lemma failures_app a b : failures (a ++ b) = failures a + failures b.
Proof. unfold failures. by rewrite List.filter_app, length_app. Qed.

Lemma with_log_nil w : with_log w [] = w.
Proof. destruct w. unfold with_log. simpl. by rewrite app_nil_r. Qed.

Section entries.
Context (env : Env) (config : SyncConfig) (hdfs_dir : string) (local_dir : Path).

Local Abbreviation sync_entry' := (sync_entry env config hdfs_dir local_dir).
Local Abbreviation target := (local_target env config hdfs_dir local_dir).

Lemma sync_entry_targeted fi lf w :
  target fi = Some lf →
  sync_entry' fi w =
  (update ← _should_update_file fi lf;
   if update : bool then
     logging (InfoCopying (pafs.path fi) lf);;
     _copy_file_atomically env (pafs.path fi) lf
   else logging (DebugUpToDate lf)) w.
Proof.
  unfold local_target, sync_entry.
  destruct (bool_decide (pafs.type fi ≠ pafs.File)); [done|].
  destruct (relpath _ _ _) as [rel|]; simpl; [|done].
  rewrite bind_unfold. simpl.
  destruct (startswith _ _); simpl; [|done]. by intros [= <-].
Qed.

Lemma sync_entry_untargeted fi :
  target fi = None →
  (∀ w, sync_entry' fi w = Raise ValueError w)
  ∨ (∃ evs, transfers evs = 0 ∧ ∀ w, sync_entry' fi w = Return tt (with_log w evs)).
Proof.
  unfold local_target, sync_entry.
  destruct (bool_decide (pafs.type fi ≠ pafs.File)).
  - intros _. right. exists []. split; [done|]. intros w. rewrite with_log_nil. reflexivity.
  - destruct (relpath _ _ _) as [rel|]; simpl; [|by left].
    destruct (startswith _ _) eqn:Hs; simpl; [done|].
    intros _. right. exists [WarnSuspiciousPath rel]. split; [done|].
    intros w. rewrite bind_unfold. simpl. by rewrite Hs.
Qed.

Global Instance fresh_stays_preorder t p : PreOrder (fresh_stays t p).
Proof.
  split.
  - by intros m H.
  - intros m1 m2 m3 H1 H2 H. by apply H2, H1.
Qed.

Lemma sync_entry_fresh_stays fi p t :
  (∀ k, (t ≤ clock env k)%Z) →
  (∀ lf tmp, target fi = Some lf → with_tmp_suffix lf = Some tmp → resolve tmp ≠ p) →
  always (moving (fresh_stays t p)) (sync_entry' fi).
Proof.
  intros Hclock Hclash w. unfold moving, fresh_stays. intros (n & Hn & Ht).
  destruct (target fi) as [lf|] eqn:Htarget.
  - rewrite (sync_entry_targeted _ _ _ Htarget), bind_unfold, should_update_file_eq.
    match goal with |- context [if ?b then _ else _] => destruct b end.
    2: { simpl. by exists n. }
    rewrite bind_unfold. simpl.
    set (w1 := {| fs := fs w; ticks := ticks w; log := _ |}).
    destruct (copy_outcomes env (pafs.path fi) lf w1)
      as [[e ->]|(m1 & Hmk & [(_ & e & w' & -> & Hfs & _)|(tmp & Htmp & Hcase)])].
    + simpl. by exists n.
    + simpl. rewrite Hfs. exists n. split; [|done]. by apply (mkdir_tree_spec _ _ _ _ Hmk).
    + specialize (Hclash lf tmp eq_refl Htmp).
      assert (Hm1 : m1 !! p = Some n) by by apply (mkdir_tree_spec _ _ _ _ Hmk).
      destruct Hcase as [(w' & k & src & -> & _ & _ & Hfs & _)
                        |[(w' & -> & Hfs & _)|(w' & t0 & -> & _ & Hfs & _)]];
        simpl; rewrite Hfs.
      * destruct (decide (resolve lf = p)) as [<-|Hne].
        -- eexists. rewrite lookup_insert_eq. split; [done|]. simpl. apply Hclock.
        -- exists n. by rewrite lookup_insert_ne, lookup_delete_ne.
      * exists n. by rewrite lookup_delete_ne.
      * by exists n.
  - destruct (sync_entry_untargeted fi Htarget) as [Hr|(evs & _ & Hr)]; rewrite Hr;
      simpl; by exists n.
Qed.

Lemma sync_entry_establishes fi lf t w w' :
  target fi = Some lf →
  pafs.mtime fi = Some t →
  (∀ k, (t ≤ clock env k)%Z) →
  sync_entry' fi w = Return tt w' →
  ∃ evs, log w' = log w ++ evs ∧ (failures evs = 0 → fresh t (fs w') (resolve lf)).
Proof.
  intros Htarget Hmtime Hclock.
  rewrite (sync_entry_targeted _ _ _ Htarget), bind_unfold, should_update_file_eq.
  rewrite Hmtime.
  destruct (fs w !! resolve lf) as [n|] eqn:Hn.
  - case_bool_decide as Hlt.
    + rewrite bind_unfold. simpl.
      set (w1 := {| fs := fs w; ticks := ticks w; log := _ |}).
      destruct (copy_outcomes env (pafs.path fi) lf w1)
        as [[e ->]|(m1 & Hmk & [(_ & e & w2 & -> & _)|(tmp & Htmp & Hcase)])];
        [done | done |].
      destruct Hcase as [(w2 & k & src & -> & _ & _ & Hfs & Hlog)
                        |[(w2 & -> & _ & Hlog)|(w2 & t0 & -> & _)]]; [| |done].
      * intros [= <-]. eexists. split; [rewrite Hlog; subst w1; simpl; reflexivity|]. intros _.
        rewrite Hfs. eexists. rewrite lookup_insert_eq. split; [done|]. apply Hclock.
      * intros [= <-]. eexists. split; [rewrite Hlog; subst w1; simpl; by rewrite <-app_assoc|].
        unfold failures. simpl. done.
    + simpl. intros [= <-]. eexists. split; [done|]. intros _. simpl.
      exists n. split; [done | lia].
  - rewrite bind_unfold. simpl.
    set (w1 := {| fs := fs w; ticks := ticks w; log := _ |}).
    destruct (copy_outcomes env (pafs.path fi) lf w1)
      as [[e ->]|(m1 & Hmk & [(_ & e & w2 & -> & _)|(tmp & Htmp & Hcase)])];
      [done | done |].
    destruct Hcase as [(w2 & k & src & -> & _ & _ & Hfs & Hlog)
                      |[(w2 & -> & _ & Hlog)|(w2 & t0 & -> & _)]]; [| |done].
    + intros [= <-]. eexists. split; [rewrite Hlog; subst w1; simpl; reflexivity|]. intros _.
      rewrite Hfs. eexists. rewrite lookup_insert_eq. split; [done|]. apply Hclock.
    + intros [= <-]. eexists. split; [rewrite Hlog; subst w1; simpl; by rewrite <-app_assoc|].
      unfold failures. simpl. done.
Qed.

Lemma sync_entry_skips fi lf t w :
  target fi = Some lf →
  pafs.mtime fi = Some t →
  fresh t (fs w) (resolve lf) →
  sync_entry' fi w = Return tt (with_log w [DebugUpToDate lf]).
Proof.
  intros Htarget Hmtime (n & Hn & Ht).
  rewrite (sync_entry_targeted _ _ _ Htarget), bind_unfold, should_update_file_eq.
  rewrite Hmtime, Hn. rewrite bool_decide_false by lia. reflexivity.
Qed.

End entries.

Lemma for_each_Return_inv {A} (x : A) xs body w w' :
  for_each (x :: xs) body w = Return tt w' →
  ∃ w1, body x w = Return tt w1 ∧ for_each xs body w1 = Return tt w'.
Proof.
  rewrite for_each_cons. destruct (body x w) as [[] w1|e w1]; [eauto | discriminate].
Qed.

Section idempotence.
Context (env : Env) (config : SyncConfig) (hdfs_dir : string) (local_dir : Path).

Local Abbreviation sync_entry' := (sync_entry env config hdfs_dir local_dir).
Local Abbreviation target := (local_target env config hdfs_dir local_dir).

Lemma first_pass xs w w' :
  timely env config hdfs_dir local_dir xs → staging_apart env config hdfs_dir local_dir xs →
  for_each xs sync_entry' w = Return tt w' →
  ∃ evs, log w' = log w ++ evs ∧
    (failures evs = 0 →
     ∀ fi lf t, fi ∈ xs → target fi = Some lf → pafs.mtime fi = Some t →
       fresh t (fs w') (resolve lf)).
Proof.
  revert w. induction xs as [|x xs IH]; intros w Htimely Hapart.
  - intros [= <-]. exists []. split; [by rewrite app_nil_r|].
    intros _ fi lf t Hin. by apply elem_of_nil in Hin.
  - intros (w1 & Hx & Hxs)%for_each_Return_inv.
    destruct (IH w1) as (evs2 & Hlog2 & Hfresh2); [| |done|].
    { intros fi lf Hin. apply Htimely. by right. }
    { intros fi lf fj lf' tmp Hi Hj. apply Hapart; by right. }
    assert (∃ evs1, log w1 = log w ++ evs1 ∧
              (failures evs1 = 0 → ∀ lf t, target x = Some lf → pafs.mtime x = Some t →
                 fresh t (fs w1) (resolve lf))) as (evs1 & Hlog1 & Hfresh1).
    { destruct (target x) as [lf|] eqn:Htx.
      - destruct (Htimely x lf) as (t & Ht & Hclock); [by left | done |].
        destruct (sync_entry_establishes env config hdfs_dir local_dir x lf t w w1
                    Htx Ht Hclock Hx) as (evs1 & Hl & Hf).
        exists evs1. split; [done|]. intros H0 lf' t' [= <-] Ht'.
        rewrite Ht in Ht'. injection Ht' as <-. by apply Hf.
      - destruct (sync_entry_emits env config hdfs_dir local_dir x w) as (evs1 & Hl & _).
        rewrite Hx in Hl. simpl in Hl. exists evs1. split; [done|]. by intros _ lf t [=]. }
    exists (evs1 ++ evs2). split; [by rewrite Hlog2, Hlog1, app_assoc|].
    rewrite failures_app. intros H0 fi lf t Hin Htf Hmt.
    apply elem_of_cons in Hin as [->|Hin].
    + assert (Hx1 : fresh t (fs w1) (resolve lf)) by (apply Hfresh1; [lia | done..]).
      destruct (Htimely x lf) as (t' & Ht' & Hclock); [by left | done |].
      rewrite Hmt in Ht'. injection Ht' as <-.
      assert (always (moving (fresh_stays t (resolve lf))) (for_each xs sync_entry'))
        as Hall.
      { apply always_for_each; [apply _|]. intros fj Hj.
        apply sync_entry_fresh_stays; [done|]. intros lf' tmp Hlf' Htmp.
        eapply (Hapart x lf fj lf' tmp); [by left | by right | done..]. }
      specialize (Hall w1). rewrite Hxs in Hall. by apply Hall.
    + apply (Hfresh2 ltac:(lia) fi lf t); done.
Qed.

Lemma entries_settled xs w w' :
  for_each xs sync_entry' w = Return tt w' →
  ∀ fi, fi ∈ xs → target fi = None →
    ∃ evs, transfers evs = 0 ∧ ∀ w0, sync_entry' fi w0 = Return tt (with_log w0 evs).
Proof.
  revert w. induction xs as [|x xs IH]; intros w H fi Hin Ht.
  - by apply elem_of_nil in Hin.
  - apply for_each_Return_inv in H as (w1 & Hx & Hxs).
    apply elem_of_cons in Hin as [->|Hin]; [|by eapply IH].
    destruct (sync_entry_untargeted env config hdfs_dir local_dir x Ht) as [Hr|?]; [|done].
    rewrite Hr in Hx. discriminate.
Qed.

Lemma second_pass xs w :
  (∀ fi, fi ∈ xs →
     match target fi with
     | Some lf => ∃ t, pafs.mtime fi = Some t ∧ fresh t (fs w) (resolve lf)
     | None => ∃ evs, transfers evs = 0 ∧
                 ∀ w0, sync_entry' fi w0 = Return tt (with_log w0 evs)
     end) →
  ∃ evs, for_each xs sync_entry' w = Return tt (with_log w evs) ∧ transfers evs = 0.
Proof.
  revert w. induction xs as [|x xs IH]; intros w H.
  - exists []. by rewrite with_log_nil.
  - assert (∃ evs1, sync_entry' x w = Return tt (with_log w evs1) ∧ transfers evs1 = 0)
      as (evs1 & Hx & Ht1).
    { specialize (H x ltac:(by left)). destruct (target x) as [lf|] eqn:Htx.
      - destruct H as (t & Hm & Hf). exists [DebugUpToDate lf].
        split; [by eapply sync_entry_skips | done].
      - destruct H as (evs & ? & Hr). exists evs. eauto. }
    destruct (IH (with_log w evs1)) as (evs2 & Hxs & Ht2).
    { intros fi Hin. apply H. by right. }
    exists (evs1 ++ evs2). rewrite for_each_cons, Hx, Hxs. split.
    + unfold with_log. simpl. by rewrite app_assoc.
    + rewrite transfers_app. lia.
Qed.

Local Abbreviation listing := (listed env hdfs_dir).

(** C5.  Idempotence of the reconciler, under the conditions it needs:
    when every transferable entry of the listing reports a modification time
    that is not ahead of the local clock, no entry is staged at the local
    path of another, and the first run returns without a failed copy, a
    second run against the unchanged remote tree announces no transfer and
    leaves the local tree as the first run left it. *)
Theorem reconcile_twice w w1 :
  timely env config hdfs_dir local_dir listing →
  staging_apart env config hdfs_dir local_dir listing →
  _sync_directory env config hdfs_dir local_dir w = Return tt w1 →
  (∀ evs, log w1 = log w ++ evs → failures evs = 0) →
  ∃ w2 evs,
    _sync_directory env config hdfs_dir local_dir w1 = Return tt w2
    ∧ fs w2 = fs w1
    ∧ log w2 = log w1 ++ evs
    ∧ transfers evs = 0.
Proof.
  intros Htimely Hapart Hrun Hnofail.
  unfold _sync_directory in Hrun |- *.
  apply bind_Return_inv in Hrun as ([] & wa & Hmk & Hrun).
  unfold mkdir in Hmk. rewrite writing_unfold in Hmk.
  destruct (mkdir_tree _ _ _) as [e|m1] eqn:Hm1; [done|]. injection Hmk as <-.
  destruct (mkdir_tree_spec _ _ _ _ Hm1) as (_ & _ & t0 & Hdir).
  apply bind_Return_inv in Hrun as (info & wa' & Hinfo & Hrun).
  destruct (pafs.get_file_info (hdfs_fs env) hdfs_dir) as [info'|] eqn:Hstat; [|done].
  injection Hinfo as <- <-.
  assert (Hdir1 : fs w1 !! resolve local_dir = Some (Dir t0)).
  { destruct (bool_decide (pafs.type info' ≠ pafs.Directory)).
    - injection Hrun as <-. done.
    - apply bind_Return_inv in Hrun as (xs & wa' & Hxs & Hrun).
      destruct (pafs.get_file_info_selector _ _); [|done]. injection Hxs as -> <-.
      assert (always (moving dirs_persist) (for_each xs sync_entry')) as Hall.
      { apply always_for_each; [apply _|]. intros. apply sync_entry_keeps_dirs. }
      specialize (Hall {| fs := m1; ticks := S (ticks w); log := log w |}).
      rewrite Hrun in Hall. by apply Hall. }
  rewrite bind_unfold. unfold mkdir. rewrite writing_unfold.
  rewrite (mkdir_tree_present _ _ _ _ Hdir1).
  rewrite bind_unfold. simpl.
  destruct (bool_decide (pafs.type info' ≠ pafs.Directory)).
  - eexists _, [WarnHdfsDirMissing hdfs_dir]. split_and!; done.
  - apply bind_Return_inv in Hrun as (xs & wa' & Hxs & Hrun).
    rewrite bind_unfold.
    assert (Hlisted : listing = xs).
    { unfold listed. destruct (pafs.get_file_info_selector _ _); [|done].
      by injection Hxs as -> <-. }
    destruct (pafs.get_file_info_selector _ _); [|done]. injection Hxs as -> <-.
    rewrite Hlisted in Htimely, Hapart. simpl.
    destruct (first_pass _ _ _ Htimely Hapart Hrun) as (evs1 & Hlog1 & Hfresh).
    specialize (Hfresh (Hnofail _ Hlog1)).
    set (wb := {| fs := fs w1; ticks := S (ticks w1); log := log w1 |}).
    destruct (second_pass xs wb) as (evs2 & Hsecond & Ht2).
    { intros fi Hin. destruct (target fi) as [lf|] eqn:Htf.
      - destruct (Htimely fi lf Hin Htf) as (t & Ht & _). exists t. split; [done|].
        by apply (Hfresh fi lf t).
      - by eapply entries_settled. }
    rewrite Hsecond. exists (with_log wb evs2), evs2. split_and!; done.
Qed.

End idempotence.

(** ** Deleting the undeclared models *)

Lemma child_snoc q k : is_child q k → k = q ++ [path_name k].
Proof.
  intros (Hne & <- & _). unfold parent, path_name.
  by apply app_removelast_last.
Qed.

Lemma child_resolved q k : resolve q = q → is_child q k → resolve k = k.
Proof.
  intros Hq Hk. pose proof (child_snoc q k Hk) as E. destruct Hk as (_ & _ & Hn).
  rewrite E at 1. rewrite resolve_snoc, Hq. unfold resolve_step.
  apply String.eqb_neq in Hn. by rewrite Hn.
Qed.

Lemma children_prefix q k k' : is_child q k → is_child q k' → k `prefix_of` k' → k = k'.
Proof.
  intros Hk Hk' [rest Hrest].
  pose proof (child_snoc q k Hk) as E. pose proof (child_snoc q k' Hk') as E'.
  assert (length rest = 0) as ->%nil_length_inv.
  { apply (f_equal length) in Hrest, E, E'. rewrite !length_app in *. simpl in *. lia. }
  by rewrite app_nil_r in Hrest.
Qed.

Section removal.
Context (m0 : tree) (expected : gset string).

Lemma doomed_snoc items item p :
  doomed m0 expected (items ++ [item]) p ↔ doomed m0 expected items p ∨ condemned m0 expected item p.
Proof.
  unfold doomed. split.
  - intros (i & [Hi| ->%list_elem_of_singleton]%elem_of_app & Hc); eauto.
  - intros [(i & Hi & Hc)|Hc].
    + exists i. split; [|done]. apply elem_of_app. by left.
    + exists item. split; [|done]. apply elem_of_app. right. by apply list_elem_of_singleton.
Qed.

Lemma doomed_below items item p : item `prefix_of` p → doomed m0 expected items item → doomed m0 expected items p.
Proof.
  intros Hp (i & Hi & Hpre & Hd & Hn). exists i. split; [done|].
  split_and!; [by etrans | done..].
Qed.

Lemma swept_start : swept m0 expected [] m0.
Proof.
  intros p. split; [|done]. intros (i & Hi & _). by apply elem_of_nil in Hi.
Qed.
End removal.

Section removal_step.
Context (env : Env) (config : SyncConfig).

Lemma remove_item_step m0 expected seen item w :
  resolve item = item →
  swept m0 expected seen (fs w) →
  ∃ w' evs, remove_item env expected item w = Return tt w'
    ∧ swept m0 expected (seen ++ [item]) (fs w')
    ∧ log w' = log w ++ evs
    ∧ Forall (λ e, ∃ x, e = InfoRemovedModel x) evs.
Proof.
  intros Hres Hswept. unfold remove_item, is_dir, reading. rewrite bind_unfold, Hres.
  assert (Hkeep : (∀ p, ¬ condemned m0 expected item p ∨ fs w !! p = None) →
                  swept m0 expected (seen ++ [item]) (fs w)).
  { intros Hno p. split.
    - intros [Hd|Hc]%doomed_snoc; [by apply Hswept|].
      by destruct (Hno p).
    - intros Hn. apply Hswept. intros Hd. apply Hn, doomed_snoc. by left. }
  assert (Hstale : (∀ t, fs w !! item ≠ Some (Dir t)) →
                   ∀ p, ¬ condemned m0 expected item p ∨ fs w !! p = None).
  { intros Hnd p. destruct (fs w !! p) as [n|] eqn:Hp; [left | by right].
    intros (Hpre & (t & Ht) & Hn).
    assert (¬ doomed m0 expected seen item) as Hnot.
    { intros Hd. apply (doomed_below _ _ _ _ _ Hpre) in Hd.
      apply Hswept in Hd. congruence. }
    apply Hswept in Hnot. apply (Hnd t). congruence. }
  destruct (fs w !! item) as [[t d|t]|] eqn:Hitem; simpl.
  - exists w, []. rewrite app_nil_r. split_and!; [done | | done | done].
    apply Hkeep, Hstale. congruence.
  - case_bool_decide as Hexp; simpl.
    + rewrite bind_unfold. unfold rmtree. rewrite writing_unfold, Hres.
      unfold rmtree_tree. rewrite Hitem. simpl.
      eexists _, [InfoRemovedModel (path_name item)]. split_and!; [done | | done |].
      2: { constructor; [by eexists | done]. }
      simpl. assert (Hm0 : m0 !! item = Some (Dir t)).
      { rewrite <-Hitem. symmetry. apply Hswept. intros Hd. apply Hswept in Hd. congruence. }
      intros p. split.
      * intros [Hd|(Hpre & _)]%doomed_snoc.
        -- apply map_lookup_filter_None. left. by apply Hswept.
        -- apply map_lookup_filter_None. right. intros n _ Hf. by apply Hf.
      * intros Hn. rewrite map_lookup_filter.
        assert (fs w !! p = m0 !! p) as ->.
        { apply Hswept. intros Hd. apply Hn, doomed_snoc. by left. }
        destruct (m0 !! p) as [n|]; simpl; [|done].
        rewrite option_guard_True; [done|]. simpl. intros Hpre.
        apply Hn, doomed_snoc. right. split_and!; eauto.
    + exists w, []. rewrite app_nil_r. split_and!; [done | | done | done].
      apply Hkeep. intros p. left. intros (_ & _ & Hn). by apply Hn.
  - exists w, []. rewrite app_nil_r. split_and!; [done | | done | done].
    apply Hkeep, Hstale. congruence.
Qed.

End removal_step.

Section deletion.
Context (env : Env) (config : SyncConfig).

Local Abbreviation root := (Sync.local_model_root env config).

Lemma remove_items_loop m0 expected items seen w :
  (∀ item, item ∈ items → resolve item = item) →
  swept m0 expected seen (fs w) →
  ∃ w' evs, for_each items (remove_item env expected) w = Return tt w'
    ∧ swept m0 expected (seen ++ items) (fs w')
    ∧ log w' = log w ++ evs
    ∧ Forall (λ e, ∃ x, e = InfoRemovedModel x) evs.
Proof.
  revert seen w. induction items as [|item items IH]; intros seen w Hres Hswept.
  - exists w, []. rewrite !app_nil_r. split_and!; done.
  - destruct (remove_item_step env m0 expected seen item w) as (w1 & evs1 & H1 & Hs1 & Hl1 & Hf1);
      [apply Hres; by left | done |].
    destruct (IH (seen ++ [item]) w1) as (w2 & evs2 & H2 & Hs2 & Hl2 & Hf2);
      [intros; apply Hres; by right | done |].
    exists w2, (evs1 ++ evs2). rewrite for_each_cons, H1. split_and!.
    + done.
    + by rewrite <-app_assoc in Hs2.
    + by rewrite Hl2, Hl1, app_assoc.
    + by apply Forall_app.
Qed.

Lemma iterdir_items m t :
  m !! root = Some (Dir t) →
  ∃ items, iterdir_tree root m = inr items
    ∧ ∀ item, item ∈ items ↔ is_child root item ∧ is_Some (m !! item).
Proof.
  intros Hroot. unfold iterdir_tree. rewrite Hroot. eexists. split; [done|].
  intros item. rewrite list_elem_of_filter, list_elem_of_fmap. split.
  - intros (Hc & [k n] & -> & Hin). split; [done|].
    apply elem_of_map_to_list in Hin. by exists n.
  - intros (Hc & n & Hn). split; [done|]. exists (item, n). split; [done|].
    by apply elem_of_map_to_list.
Qed.

Theorem remove_deleted_models_spec entries w t :
  fs w !! root = Some (Dir t) →
  ∃ w' evs,
    remove_deleted_models env config entries w = Return tt w'
    ∧ log w' = log w ++ evs
    ∧ Forall (λ e, ∃ x, e = InfoRemovedModel x) evs
    ∧ (∀ item t' p, is_child root item → fs w !! item = Some (Dir t') →
         path_name item ∉ declared entries → item `prefix_of` p → fs w' !! p = None)
    ∧ (∀ p, (∀ item t', is_child root item → item `prefix_of` p →
               fs w !! item = Some (Dir t') → path_name item ∈ declared entries) →
         fs w' !! p = fs w !! p).
Proof.
  intros Hroot. unfold remove_deleted_models, iterdir, reading.
  rewrite !bind_unfold. rewrite local_model_root_resolved.
  destruct (iterdir_items (fs w) t Hroot) as (items & -> & Hitems). simpl.
  destruct (remove_items_loop (fs w) (declared entries) items [] w)
    as (w' & evs & Hrun & Hswept & Hlog & Hev).
  { intros item [Hc _]%Hitems. eapply child_resolved; [|done].
    apply local_model_root_resolved. }
  { apply swept_start. }
  exists w', evs. split_and!; [done..| |].
  - intros item t' p Hc Hd Hn Hpre. apply Hswept. exists item. split.
    + apply Hitems. split; [done|]. by eexists.
    + split_and!; eauto.
  - intros p Hp. apply Hswept. intros (item & [Hc _]%Hitems & Hpre & (t' & Hd) & Hn).
    apply Hn. by eapply Hp.
Qed.

End deletion.

(** ** The lock marker and the registry file sit directly under the root *)

Lemma split_sep_free s : sep_free s = true → split_sep s = [s].
Proof.
  induction s as [|c s IH]; simpl; [done|].
  intros [Hc Hs]%andb_true_iff. apply negb_true_iff in Hc. rewrite Hc, IH; done.
Qed.

Lemma sep_free_uint d : sep_free (NilEmpty.string_of_uint d) = true.
Proof. induction d; simpl; done. Qed.

Lemma sep_free_str_of_int z : sep_free (str_of_int z) = true.
Proof.
  unfold str_of_int, NilZero.string_of_int.
  assert (∀ d, sep_free (NilZero.string_of_uint d) = true) as Hu.
  { intros d. unfold NilZero.string_of_uint.
    destruct d; first [reflexivity | apply sep_free_uint]. }
  destruct (Z.to_int z); simpl; by rewrite ?Hu.
Qed.

Section fixed_paths.
Context (env : Env) (config : SyncConfig).

Local Abbreviation root := (Sync.local_model_root env config).

Lemma lock_name_sep_free : sep_free (lock_name env) = true.
Proof. unfold lock_name. simpl. apply sep_free_str_of_int. Qed.

Lemma lock_path_eq : lock_path env config = root ++ [lock_name env].
Proof.
  unfold lock_path, joinpath. fold (lock_name env).
  change (isabs (lock_name env)) with false. cbv iota. f_equal.
  unfold parse_parts. rewrite (split_sep_free _ lock_name_sep_free).
  reflexivity.
Qed.

Lemma lock_path_resolved : resolve (lock_path env config) = root ++ [lock_name env].
Proof.
  rewrite lock_path_eq, resolve_snoc, local_model_root_resolved. reflexivity.
Qed.

Lemma config_path_eq : joinpath root "models.config" = config_path env config.
Proof. reflexivity. Qed.

Lemma config_path_resolved : resolve (joinpath root "models.config") = config_path env config.
Proof.
  rewrite config_path_eq. unfold config_path.
  rewrite resolve_snoc, local_model_root_resolved. reflexivity.
Qed.

Lemma config_path_child : is_child root (config_path env config).
Proof.
  unfold is_child, config_path, parent, path_name.
  rewrite removelast_last, last_last. split_and!; [|done..].
  by destruct (Sync.local_model_root env config).
Qed.

End fixed_paths.

(** ** The cycle *)

Section cycle.
Context (env : Env) (config : SyncConfig).

Local Abbreviation root := (Sync.local_model_root env config).

Lemma open_wb_inv p w w' :
  open_wb env p w = Return tt w' →
  fs w' = <[resolve p := File (clock env (ticks w)) ""]> (fs w)
  ∧ log w' = log w
  ∧ ∀ t, fs w !! resolve p ≠ Some (Dir t).
Proof.
  unfold open_wb. rewrite writing_unfold. unfold open_wb_tree.
  repeat case_match; intros; simplify_eq; simpl; split_and!; congruence.
Qed.

Lemma open_wb_child q x t w :
  fs w !! q = Some (Dir t) →
  resolve (q ++ [x]) = q ++ [x] →
  (∀ t', fs w !! (q ++ [x]) ≠ Some (Dir t')) →
  open_wb env (q ++ [x]) w =
  Return tt {| fs := <[q ++ [x] := File (clock env (ticks w)) ""]> (fs w);
               ticks := S (ticks w); log := log w |}.
Proof.
  intros Hq Hres Hnd. unfold open_wb. rewrite writing_unfold, Hres. unfold open_wb_tree.
  unfold parent. rewrite removelast_last, Hq.
  destruct (fs w !! (q ++ [x])) as [[]|] eqn:E; [done | | done].
  by destruct (Hnd mtime).
Qed.

Lemma write_text_outcome p text w :
  (∃ e, write_text env p text w = Raise e w)
  ∨ (∃ w' t, write_text env p text w = Return tt w'
       ∧ fs w' = <[resolve p := File t text]> (fs w) ∧ log w' = log w).
Proof.
  unfold write_text. rewrite bind_unfold.
  destruct (open_wb env p w) as [[] w1|e w1] eqn:Hopen.
  - right. apply open_wb_inv in Hopen as (Hfs & Hlog & _).
    unfold write. rewrite writing_unfold. unfold write_tree.
    rewrite Hfs, lookup_insert_eq, insert_insert_eq. simpl.
    do 2 eexists. split_and!; [done | done | done].
  - left. exists e. unfold open_wb in Hopen. rewrite writing_unfold in Hopen.
    destruct (open_wb_tree _ _ _); by simplify_eq.
Qed.

Lemma write_text_child q x t text w :
  fs w !! q = Some (Dir t) →
  resolve (q ++ [x]) = q ++ [x] →
  match fs w !! (q ++ [x]) with
  | Some (Dir _) => ∃ e, write_text env (q ++ [x]) text w = Raise e w
  | _ => ∃ w' t', write_text env (q ++ [x]) text w = Return tt w'
           ∧ fs w' = <[q ++ [x] := File t' text]> (fs w) ∧ log w' = log w
  end.
Proof.
  intros Hq Hres.
  destruct (fs w !! (q ++ [x])) as [[t0 d|t0]|] eqn:E.
  - unfold write_text. rewrite bind_unfold, (open_wb_child q x t w Hq Hres) by congruence.
    unfold write. rewrite writing_unfold, Hres. unfold write_tree. simpl.
    rewrite lookup_insert_eq, insert_insert_eq. do 2 eexists. split_and!; done.
  - destruct (write_text_outcome (q ++ [x]) text w) as [?|(w' & t' & Hw & _)]; [done|].
    unfold write_text in Hw. apply bind_Return_inv in Hw as ([] & w1 & Hopen & _).
    apply open_wb_inv in Hopen as (_ & _ & Hnd). rewrite Hres in Hnd. by destruct (Hnd t0).
  - unfold write_text. rewrite bind_unfold, (open_wb_child q x t w Hq Hres) by congruence.
    unfold write. rewrite writing_unfold, Hres. unfold write_tree. simpl.
    rewrite lookup_insert_eq, insert_insert_eq. do 2 eexists. split_and!; done.
Qed.

Lemma run_once_from_prefix w hm lms w2 :
  cycle_prefix env config w = Return (hm, lms) w2 →
  run_once env config w =
  match (remove_deleted_models env config (model_config hm);;
         write_models_config env config lms) w2 with
  | Return _ w3 => Return tt (with_log w3 [InfoCycleFinished])
  | Raise _ w3 => Return tt (with_log w3 [ExceptionInCycle; InfoCycleFinished])
  end.
Proof.
  unfold cycle_prefix, run_once, with_FileLock. intros H.
  apply bind_Return_inv in H as ([] & w0 & H0 & H).
  apply bind_Return_inv in H as ([] & w1 & H1 & H).
  apply bind_Return_inv in H as (content & wa & Ha & H).
  apply bind_Return_inv in H as (hm' & wb & Hb & H).
  apply bind_Return_inv in H as (lms' & wc & Hc & H).
  injection H as -> -> ->.
  rewrite (bind_Return _ _ _ _ _ H0), (bind_Return _ _ _ _ _ H1).
  unfold try_finally, try_except.
  rewrite (bind_Return _ _ _ _ _ Ha), (bind_Return _ _ _ _ _ Hb),
    (bind_Return _ _ _ _ _ Hc).
  destruct ((remove_deleted_models env config (model_config hm);;
             write_models_config env config lms) w2) as [[] w3|e w3]; [reflexivity|].
  unfold logging, with_log. simpl. by rewrite <-app_assoc.
Qed.

End cycle.

Section cycle_theorems.
Context (env : Env) (config : SyncConfig).

Local Abbreviation root := (Sync.local_model_root env config).

Lemma sync_models_keeps_dirs entries acc :
  always (moving dirs_persist) (sync_models env config entries acc).
Proof.
  revert acc. induction entries as [|m entries IH]; intros acc; simpl.
  - apply always_ret; apply _.
  - repeat (first [ apply IH | apply sync_directory_keeps_dirs | always_step
                  | always_intro | case_match ]); apply _.
Qed.

Lemma sync_models_emits entries acc :
  always (emitting is_reconcile_event) (sync_models env config entries acc).
Proof.
  revert acc. induction entries as [|m entries IH]; intros acc; simpl.
  - apply always_ret; apply _.
  - repeat (first [ apply IH | apply sync_directory_emits | always_step
                  | always_intro | case_match ]); try apply _; done.
Qed.

Lemma reconcile_not_removal e : is_reconcile_event e → ¬ is_removal e.
Proof. destruct e; simpl; tauto. Qed.

Lemma sync_models_no_removal entries acc :
  always (emitting (λ e, ¬ is_removal e)) (sync_models env config entries acc).
Proof.
  eapply always_mono; [|apply sync_models_emits].
  intros w w'. apply emitting_mono, reconcile_not_removal.
Qed.

Lemma cycle_prefix_emits :
  always (emitting (λ e, ¬ is_removal e)) (cycle_prefix env config).
Proof.
  unfold cycle_prefix, read_manifest, _parse_model_config.
  repeat (first [ apply sync_models_no_removal
                | always_step | progress unfold_calls | always_intro | case_match ]);
    try apply _; by intros [].
Qed.

Lemma cycle_prefix_keeps_dirs :
  always (moving dirs_persist) (cycle_prefix env config).
Proof.
  unfold cycle_prefix, read_manifest, _parse_model_config.
  repeat (first [ apply sync_models_keeps_dirs | progress dirs_auto ]).
Qed.

(** The cycle from the point where the per-model loop has returned: the
    undeclared directories go, everything else stays, and the registry is
    written last. *)
Lemma run_once_outcome w hm lms w2 t :
  fs w !! root = Some (Dir t) →
  cycle_prefix env config w = Return (hm, lms) w2 →
  ∃ w' before after,
    run_once env config w = Return tt w'
    ∧ log w2 = log w ++ before
    ∧ Forall (λ e, ¬ is_removal e) before
    ∧ log w' = log w2 ++ after
    ∧ Forall (λ e, ¬ is_reconcile_event e) after
    ∧ (∀ item t' p,
         is_child root item → fs w2 !! item = Some (Dir t') →
         path_name item ∉ declared (model_config hm) →
         item `prefix_of` p → p ≠ config_path env config →
         fs w' !! p = None)
    ∧ (∀ p,
         p ≠ config_path env config →
         (∀ item t', is_child root item → item `prefix_of` p →
            fs w2 !! item = Some (Dir t') →
            path_name item ∈ declared (model_config hm)) →
         fs w' !! p = fs w2 !! p)
    ∧ ((∃ t', fs w' !! config_path env config =
              Some (File t' (join newline (build_config_lines lms))))
       ∨ (∃ t', fs w2 !! config_path env config = Some (Dir t')
                ∧ "models.config" ∈ declared (model_config hm)
                ∧ fs w' !! config_path env config = Some (Dir t'))).
Proof.
  intros Hroot Hprefix.
  destruct (cycle_prefix_emits w) as (before & Hbefore & Hnorem).
  pose proof (cycle_prefix_keeps_dirs w) as Hdirs.
  rewrite Hprefix in Hbefore, Hdirs. simpl in Hbefore, Hdirs.
  apply Hdirs in Hroot.
  destruct (remove_deleted_models_spec env config (model_config hm) w2 t Hroot)
    as (w3 & evs3 & Hrm & Hlog3 & Hev3 & Hgone & Hkept).
  rewrite (run_once_from_prefix _ _ _ _ _ _ Hprefix), (bind_Return _ _ _ _ _ Hrm).
  unfold write_models_config. rewrite bind_unfold.
  assert (Hnr : Forall (λ e, ¬ is_reconcile_event e) evs3).
  { eapply Forall_impl; [exact Hev3|]. intros e [x ->]. simpl. tauto. }
  assert (Hroot3 : fs w3 !! root = Some (Dir t)).
  { rewrite Hkept; [done|]. intros item t' Hc Hpre.
    apply prefix_length in Hpre. apply child_snoc, (f_equal length) in Hc.
    rewrite length_app in Hc. simpl in Hc. lia. }
  pose proof (config_path_child env config) as Hcp.
  pose proof (write_text_child env root "models.config" t
                (join newline (build_config_lines lms)) w3 Hroot3) as Hw.
  rewrite config_path_eq.
  fold (config_path env config) in Hw.
  specialize (Hw (child_resolved _ _ (local_model_root_resolved env config) Hcp)).
  destruct (fs w3 !! config_path env config) as [[t4 d4|t4]|] eqn:Hcp3.
  - destruct Hw as (w4 & t' & -> & Hfs4 & Hlog4). simpl.
    eexists _, before, (evs3 ++ [InfoConfigWritten _; InfoCycleFinished]).
    split_and!; [done | done | done | | | | |].
    + simpl. rewrite Hlog4, Hlog3, <-!app_assoc. done.
    + apply Forall_app. split; [done|]. repeat constructor; simpl; tauto.
    + intros item t0 p ? ? ? ? Hne. simpl. rewrite Hfs4, lookup_insert_ne by done.
      by eapply Hgone.
    + intros p Hne Hp. simpl. rewrite Hfs4, lookup_insert_ne by done. by apply Hkept.
    + left. exists t'. simpl. by rewrite Hfs4, lookup_insert_eq.
  - destruct Hw as (e & ->). simpl.
    eexists _, before, (evs3 ++ [ExceptionInCycle; InfoCycleFinished]).
    split_and!; [done | done | done | | | | |].
    + simpl. by rewrite Hlog3, app_assoc.
    + apply Forall_app. split; [done|]. repeat constructor; simpl; tauto.
    + intros item t' p ? ? ? ? _. simpl. by eapply Hgone.
    + intros p _ Hp. simpl. by apply Hkept.
    + assert (Hname : path_name (config_path env config) = "models.config").
      { unfold config_path, path_name. by rewrite last_last. }
      destruct (decide ("models.config" ∈ declared (model_config hm))) as [Hin|Hout].
      * assert (fs w3 !! config_path env config = fs w2 !! config_path env config) as E.
        { apply Hkept. intros item t' Hc Hpre _.
          rewrite (children_prefix _ _ _ Hc Hcp Hpre). by rewrite Hname. }
        right. exists t4. simpl. split_and!; [by rewrite <-E | done | done].
      * exfalso. destruct (fs w2 !! config_path env config) as [[t0 d0|t0]|] eqn:E2.
        -- assert (fs w3 !! config_path env config = fs w2 !! config_path env config).
           { apply Hkept. intros item t' Hc Hpre Hd.
             rewrite (children_prefix _ _ _ Hc Hcp Hpre) in Hd. congruence. }
           congruence.
        -- assert (fs w3 !! config_path env config = None); [|congruence].
           eapply Hgone; [exact Hcp | exact E2 | by rewrite Hname | done].
        -- assert (fs w3 !! config_path env config = fs w2 !! config_path env config).
           { apply Hkept. intros item t' Hc Hpre Hd.
             rewrite (children_prefix _ _ _ Hc Hcp Hpre) in Hd. congruence. }
           congruence.
  - destruct Hw as (w4 & t' & -> & Hfs4 & Hlog4). simpl.
    eexists _, before, (evs3 ++ [InfoConfigWritten _; InfoCycleFinished]).
    split_and!; [done | done | done | | | | |].
    + simpl. rewrite Hlog4, Hlog3, <-!app_assoc. done.
    + apply Forall_app. split; [done|]. repeat constructor; simpl; tauto.
    + intros item t0 p ? ? ? ? Hne. simpl. rewrite Hfs4, lookup_insert_ne by done.
      by eapply Hgone.
    + intros p Hne Hp. simpl. rewrite Hfs4, lookup_insert_ne by done. by apply Hkept.
    + left. exists t'. simpl. by rewrite Hfs4, lookup_insert_eq.
Qed.

(** C4.  Deletion propagation: in a cycle whose manifest is read and whose
    per-model loop returns (leaving the world [w2]), every directory directly
    under the local model root whose name the manifest does not declare is
    gone with everything below it, every path that lies under no such
    directory is as the per-model loop left it (the registry file, written
    afterwards, apart), and the removals are logged only after every event
    of the per-model reconciliation. *)
Theorem deletion_propagation w hm lms w2 t :
  fs w !! root = Some (Dir t) →
  cycle_prefix env config w = Return (hm, lms) w2 →
  ∃ w' before after,
    run_once env config w = Return tt w'
    ∧ log w' = log w ++ before ++ after
    ∧ log w2 = log w ++ before
    ∧ Forall (λ e, ¬ is_removal e) before
    ∧ Forall (λ e, ¬ is_reconcile_event e) after
    ∧ (∀ item t',
         is_child root item → fs w2 !! item = Some (Dir t') →
         path_name item ∉ declared (model_config hm) →
         ∀ p, item `prefix_of` p → p ≠ config_path env config → fs w' !! p = None)
    ∧ (∀ p,
         p ≠ config_path env config →
         (∀ item t', is_child root item → item `prefix_of` p →
            fs w2 !! item = Some (Dir t') →
            path_name item ∈ declared (model_config hm)) →
         fs w' !! p = fs w2 !! p).
Proof.
  intros Hroot Hprefix.
  destruct (run_once_outcome w hm lms w2 t Hroot Hprefix)
    as (w' & before & after & Hrun & Hlog2 & Hbefore & Hlog & Hafter & Hgone & Hkept & _).
  exists w', before, after. split_and!; [done | | done | done | done | | done].
  - by rewrite Hlog, Hlog2, app_assoc.
  - intros item t' Hc Hd Hn p Hpre Hne. by eapply Hgone.
Qed.

End cycle_theorems.

Section parse_failure.
Context (env : Env) (config : SyncConfig).

Local Abbreviation root := (Sync.local_model_root env config).

Lemma cycle_prefix_parse_failure w t mp raw content :
  fs w !! root = Some (Dir t) →
  (∀ t', fs w !! lock_path env config ≠ Some (Dir t')) →
  hdfs_model_config_path config = Some mp →
  pafs.open_input_file (hdfs_fs env) mp
    = Some {| pafs.data := raw; pafs.complete := true |} →
  decode_utf8 raw = Some content →
  load_manifest env content = None →
  cycle_prefix env config w =
  Return (ModelConfigList_default, [])
    {| fs := <[lock_path env config := File (clock env (ticks w)) ""]> (fs w);
       ticks := S (ticks w);
       log := log w ++ [InfoCycleStart; ErrorParseFailed] |}.
Proof.
  intros Hroot Hlock Hmp Hopen Hdecode Hparse. unfold cycle_prefix.
  rewrite lock_path_eq in Hlock |- *.
  rewrite bind_unfold, (open_wb_child env root _ t w Hroot); [|  | done].
  2: { pose proof (lock_path_resolved env config) as H. by rewrite lock_path_eq in H. }
  rewrite bind_unfold. simpl. rewrite bind_unfold.
  unfold read_manifest. rewrite Hmp. rewrite bind_unfold. simpl.
  rewrite bind_unfold, Hopen. simpl.
  rewrite bind_unfold. simpl. rewrite Hdecode. simpl.
  rewrite bind_unfold. unfold _parse_model_config. rewrite Hparse.
  rewrite bind_unfold. simpl. by rewrite <-app_assoc.
Qed.

(** C9.  A manifest that fails to parse: when the manifest is fetched and
    its bytes decode to a text that the parser rejects, the cycle goes on
    with the empty model list, logs the parse error, and its deletion step
    then removes every directory directly under the local model root
    together with all it holds; no top-level directory is left when the
    cycle ends. *)
Theorem parse_failure_wipes_models w t mp raw content :
  fs w !! root = Some (Dir t) →
  (∀ t', fs w !! lock_path env config ≠ Some (Dir t')) →
  hdfs_model_config_path config = Some mp →
  pafs.open_input_file (hdfs_fs env) mp
    = Some {| pafs.data := raw; pafs.complete := true |} →
  decode_utf8 raw = Some content →
  load_manifest env content = None →
  ∃ w',
    run_once env config w = Return tt w'
    ∧ ErrorParseFailed ∈ log w'
    ∧ (∀ item t' p,
         is_child root item → fs w !! item = Some (Dir t') →
         item `prefix_of` p → p ≠ config_path env config →
         fs w' !! p = None)
    ∧ (∀ item t', is_child root item → fs w' !! item ≠ Some (Dir t')).
Proof.
  intros Hroot Hlock Hmp Hopen Hdecode Hparse.
  pose proof (cycle_prefix_parse_failure w t mp raw content Hroot Hlock Hmp Hopen
                Hdecode Hparse) as Hprefix.
  set (w2 := {| fs := _; ticks := _; log := _ |}) in Hprefix.
  destruct (run_once_outcome env config w _ _ w2 t Hroot Hprefix)
    as (w' & before & after & Hrun & _ & _ & Hlog & _ & Hgone & Hkept & Hcp).
  assert (Hdirs : ∀ p t', fs w !! p = Some (Dir t') → fs w2 !! p = Some (Dir t')).
  { intros p t' Hp. subst w2. simpl. rewrite lookup_insert_ne; [done|].
    intros <-. by destruct (Hlock t'). }
  assert (Hnone : ∀ x, x ∉ declared (model_config ModelConfigList_default)).
  { intros x. unfold declared. simpl. apply not_elem_of_empty. }
  exists w'. split_and!; [done | | |].
  - rewrite Hlog. subst w2. simpl. apply elem_of_app. left. apply elem_of_app. right.
    apply elem_of_cons. right. apply list_elem_of_singleton. done.
  - intros item t' p Hc Hd Hpre Hne. eapply Hgone; eauto.
  - intros item t' Hc Hd.
    destruct (decide (item = config_path env config)) as [->|Hne].
    + destruct Hcp as [(t4 & Hf)|(t4 & _ & Hin & _)]; [congruence|].
      by apply Hnone in Hin.
    + destruct (fs w2 !! item) as [[t0 d0|t0]|] eqn:E2.
      * rewrite Hkept in Hd; [congruence | done |].
        intros item' t0' Hc' Hpre Hd'.
        rewrite (children_prefix _ _ _ Hc' Hc Hpre) in Hd'. congruence.
      * assert (fs w' !! item = None); [|congruence].
        eapply Hgone; eauto.
      * rewrite Hkept in Hd; [congruence | done |].
        intros item' t0' Hc' Hpre Hd'.
        rewrite (children_prefix _ _ _ Hc' Hc Hpre) in Hd'. congruence.
Qed.

End parse_failure.

Section deletion_frame.
Context (env : Env) (config : SyncConfig).

Local Abbreviation root := (Sync.local_model_root env config).

Lemma remove_deleted_models_no_root entries w :
  (∀ t, fs w !! root ≠ Some (Dir t)) →
  world_of (remove_deleted_models env config entries w) = w.
Proof.
  intros Hnd. unfold remove_deleted_models, iterdir, reading. rewrite !bind_unfold.
  rewrite local_model_root_resolved. unfold iterdir_tree.
  destruct (fs w !! root) as [[t d|t]|]; simpl; [done | by destruct (Hnd t) | done].
Qed.

(** C10.  The deletion step removes directories only: whatever the
    manifest declares, every path that lies under no top-level directory of
    the root is after the step what it was before, and in particular every
    top-level file (the registry file, the lock markers) keeps its stamp and
    content. *)
Theorem deletion_spares_non_directories entries w :
  let w' := world_of (remove_deleted_models env config entries w) in
  (∀ p,
     (∀ item t, is_child root item → item `prefix_of` p →
        fs w !! item ≠ Some (Dir t)) →
     fs w' !! p = fs w !! p)
  ∧ (∀ item t d,
       is_child root item → fs w !! item = Some (File t d) →
       fs w' !! item = Some (File t d)).
Proof.
  intros w'.
  assert (Hframe : ∀ p,
     (∀ item t, is_child root item → item `prefix_of` p →
        fs w !! item ≠ Some (Dir t)) →
     fs w' !! p = fs w !! p).
  { intros p Hp. subst w'.
    destruct (fs w !! root) as [[t d|t]|] eqn:Hroot.
    - rewrite remove_deleted_models_no_root; [done | congruence].
    - destruct (remove_deleted_models_spec env config entries w t Hroot)
        as (w1 & evs & -> & _ & _ & _ & Hkept).
      simpl. apply Hkept. intros item t' Hc Hpre Hd. by destruct (Hp item t' Hc Hpre).
    - rewrite remove_deleted_models_no_root; [done | congruence]. }
  split; [done|].
  intros item t d Hc Hf. rewrite Hframe; [done|].
  intros item' t' Hc' Hpre. rewrite (children_prefix _ _ _ Hc' Hc Hpre). congruence.
Qed.

End deletion_frame.

Section missing_remote.
Context (env : Env) (config : SyncConfig).

(** C6.  Missing remote directory: when the remote path is not a
    directory, [_sync_directory] either fails in creating the local
    directory, leaving the world as it was, or logs the warning and
    returns having done to the local tree no more than create the local
    directory and its missing ancestors; the tree is unchanged when the local
    directory was already there. *)
Theorem sync_directory_remote_missing hdfs_dir local_dir info w :
  pafs.get_file_info (hdfs_fs env) hdfs_dir = Some info →
  pafs.type info ≠ pafs.Directory →
  (∃ e p, _sync_directory env config hdfs_dir local_dir w = Raise e w
      ∧ p `prefix_of` resolve local_dir
      ∧ ¬ ∃ t, fs w !! p = Some (Dir t))
  ∨ (∃ w', _sync_directory env config hdfs_dir local_dir w = Return tt w'
      ∧ log w' = log w ++ [WarnHdfsDirMissing hdfs_dir]
      ∧ (∀ p n, fs w !! p = Some n → fs w' !! p = Some n)
      ∧ (∀ p n, fs w' !! p = Some n → fs w !! p = None →
           (∃ t, n = Dir t) ∧ p `prefix_of` resolve local_dir)
      ∧ ((∃ t, fs w !! resolve local_dir = Some (Dir t)) → fs w' = fs w)).
Proof.
  intros Hinfo Htype. unfold _sync_directory. rewrite bind_unfold.
  unfold mkdir. rewrite writing_unfold.
  destruct (mkdir_tree _ _ _) as [e|m1] eqn:Hmk.
  - left. destruct (mkdir_tree_failure _ _ _ _ Hmk) as (p & Hp & Hn). by exists e, p.
  - right. rewrite bind_unfold, Hinfo. simpl.
    rewrite bool_decide_true by done.
    destruct (mkdir_tree_spec _ _ _ _ Hmk) as (Hkeep & Hnew & _).
    eexists. split_and!; [done | done | done | |].
    + simpl. intros p n Hp Hnone. destruct (Hnew p n Hp Hnone) as [-> ?]. eauto.
    + simpl. intros (t & Ht). rewrite (mkdir_tree_present _ _ _ _ Ht) in Hmk. congruence.
Qed.

End missing_remote.

(** ** The registry document *)

Section registry.
Context (env : Env) (config : SyncConfig).

Local Abbreviation root := (Sync.local_model_root env config).

Lemma string_app_assoc (a b c : string) : (a +:+ b) +:+ c = a +:+ (b +:+ c).
Proof.
  induction a as [|x a IH]; [done|].
  change (String x ((a +:+ b) +:+ c) = String x (a +:+ (b +:+ c))). by rewrite IH.
Qed.

Lemma snoc_nonempty {A} (l : list A) x : l ++ [x] ≠ [].
Proof. by destruct l. Qed.

Lemma app_nonempty_r {A} (a b : list A) : b ≠ [] → a ++ b ≠ [].
Proof. by destruct a, b. Qed.

Lemma join_app sepstr a b :
  a ≠ [] → b ≠ [] → join sepstr (a ++ b) = join sepstr a +:+ sepstr +:+ join sepstr b.
Proof.
  intros Ha Hb. induction a as [|x a IH]; [done|].
  destruct a as [|y a].
  - destruct b; [done|]. reflexivity.
  - change (x +:+ sepstr +:+ join sepstr ((y :: a) ++ b)
            = (x +:+ sepstr +:+ join sepstr (y :: a)) +:+ sepstr +:+ join sepstr b).
    rewrite IH by done. by rewrite !string_app_assoc.
Qed.

Lemma join_tail sepstr a b b' :
  b ≠ [] → b' ≠ [] → join sepstr b = join sepstr b' →
  join sepstr (a ++ b) = join sepstr (a ++ b').
Proof.
  intros Hb Hb' E. destruct a as [|x a]; [done|].
  rewrite !(join_app _ (x :: a)) by done. by rewrite E.
Qed.

Lemma with_commas_nonempty ls : ls ≠ [] → with_commas ls ≠ [].
Proof. by destruct ls as [|x [|y r]]. Qed.

Lemma with_commas_join ls : join newline (with_commas ls) = join ("," +:+ newline) ls.
Proof.
  induction ls as [|x ls IH]; [done|].
  destruct ls as [|y r]; [done|].
  change (with_commas (x :: y :: r)) with ((x +:+ ",") :: with_commas (y :: r)).
  change (join ("," +:+ newline) (x :: y :: r))
    with (x +:+ ("," +:+ newline) +:+ join ("," +:+ newline) (y :: r)).
  rewrite <-IH.
  pose proof (with_commas_nonempty (y :: r)) as Hne.
  destruct (with_commas (y :: r)) as [|z zs]; [by destruct Hne|].
  change (join newline ((x +:+ ",") :: z :: zs))
    with ((x +:+ ",") +:+ newline +:+ join newline (z :: zs)).
  by rewrite !string_app_assoc.
Qed.

Lemma format_labels_lines labels :
  nonempty labels = true →
  _format_version_labels labels = join newline (labels_lines labels).
Proof.
  destruct labels as [[|kv rest]|]; [done | | done]. intros _.
  unfold labels_lines. cbv beta iota delta [nonempty default from_option].
  rewrite (join_app _ [_]); [| done | apply snoc_nonempty].
  rewrite join_app; [| by apply with_commas_nonempty | done].
  rewrite with_commas_join. reflexivity.
Qed.

Lemma format_policy_lines policy :
  nonempty policy = true →
  _format_version_policy policy = join newline (policy_lines policy).
Proof.
  destruct policy as [[|kv rest]|]; [done | | done]. intros _.
  unfold policy_lines. cbv beta iota delta [nonempty default from_option].
  rewrite (join_app _ [_]); [| done | apply snoc_nonempty].
  rewrite join_app; [| done | done].
  reflexivity.
Qed.

Lemma optional_block_labels labels :
  nonempty labels = true →
  optional_block (labels_lines labels) = [_format_version_labels labels].
Proof.
  intros H. rewrite (format_labels_lines _ H). unfold labels_lines. by rewrite H.
Qed.

Lemma optional_block_policy policy :
  nonempty policy = true →
  optional_block (policy_lines policy) = [_format_version_policy policy].
Proof.
  intros H. rewrite (format_policy_lines _ H). unfold policy_lines. by rewrite H.
Qed.

Lemma append_model_block acc m : append_model acc m = acc ++ model_block m.
Proof.
  unfold append_model, model_block.
  destruct (lm_version_labels m) as [[|x l]|] eqn:El,
           (lm_version_policy m) as [[|y k]|] eqn:Ep;
    rewrite ?(optional_block_labels (Some (x :: l))), ?(optional_block_policy (Some (y :: k)))
      by done;
    simpl; by rewrite <-?app_assoc.
Qed.

Lemma foldl_append_model acc lms :
  foldl append_model acc lms = acc ++ concat (model_block <$> lms).
Proof.
  revert acc. induction lms as [|m lms IH]; intros acc; simpl.
  - by rewrite app_nil_r.
  - by rewrite IH, append_model_block, <-app_assoc.
Qed.

Lemma build_config_lines_document lms : build_config_lines lms = registry_document lms.
Proof.
  unfold build_config_lines, registry_document. by rewrite foldl_append_model.
Qed.

Lemma join_optional_block lines rest :
  rest ≠ [] →
  join newline (optional_block lines ++ rest) = join newline (lines ++ rest).
Proof.
  intros Hrest. destruct lines as [|l ls]; [done|]. unfold optional_block.
  rewrite (join_app _ [_] rest), (join_app _ (l :: ls) rest); done.
Qed.

Lemma join_model_block m rest :
  rest ≠ [] →
  join newline (model_block m ++ rest) = join newline (model_lines m ++ rest).
Proof.
  intros Hrest. unfold model_block, model_lines. rewrite <-!app_assoc.
  apply join_tail; [by repeat apply app_nonempty_r .. |].
  rewrite join_optional_block by (by repeat apply app_nonempty_r).
  apply join_tail; [by repeat apply app_nonempty_r .. |].
  by rewrite join_optional_block by (by repeat apply app_nonempty_r).
Qed.

Lemma join_registry lms :
  join newline (registry_document lms) = join newline (registry_lines lms).
Proof.
  unfold registry_document, registry_lines.
  apply join_tail; [apply snoc_nonempty .. |].
  induction lms as [|m lms IH]; [done|].
  change (concat (model_block <$> m :: lms))
    with (model_block m ++ concat (model_block <$> lms)).
  change (concat (model_lines <$> m :: lms))
    with (model_lines m ++ concat (model_lines <$> lms)).
  rewrite <-!app_assoc.
  rewrite join_model_block by apply snoc_nonempty.
  apply join_tail; [apply snoc_nonempty .. | done].
Qed.

Lemma sync_models_order entries acc w lms w' :
  sync_models env config entries acc w = Return lms w' →
  lms = acc ++ (local_model_of env config <$> List.filter (name_accepted env config) entries).
Proof.
  revert acc w. induction entries as [|entry entries IH]; intros acc w; simpl.
  - intros [= <- <-]. by rewrite app_nil_r.
  - unfold name_accepted at 1.
    destruct (startswith _ _) eqn:Hacc; simpl.
    + intros (? & w1 & _ & H)%bind_Return_inv.
      apply bind_Return_inv in H as (? & w2 & _ & H).
      apply IH in H. rewrite H, <-app_assoc. done.
    + intros (? & w1 & _ & H)%bind_Return_inv. by apply IH in H.
Qed.

Lemma elem_of_with_commas x ls :
  x ∈ with_commas ls → ∃ y, y ∈ ls ∧ (x = y ∨ x = y +:+ ",").
Proof.
  induction ls as [|a ls IH]; [by intros ?%elem_of_nil|].
  destruct ls as [|b r].
  - intros ->%list_elem_of_singleton. exists a. split; [left | by left].
  - change (with_commas (a :: b :: r)) with ((a +:+ ",") :: with_commas (b :: r)).
    intros [->|Hin]%elem_of_cons.
    + exists a. split; [left | by right].
    + destruct (IH Hin) as (y & Hy & Hx). exists y. split; [by right | done].
Qed.

(** Every line of a model but the two opening lines of the sub-blocks is
    indented by at least three spaces or is not a [version_] line. *)
Lemma labels_opening_only_in_labels m :
  "  version_labels {" ∈ model_lines m → nonempty (lm_version_labels m) = true.
Proof.
  unfold model_lines, labels_lines, policy_lines.
  destruct (nonempty (lm_version_labels m)); [done|].
  intros H. exfalso. simpl in H.
  repeat (apply elem_of_cons in H as [H|H];
          [by apply (f_equal (String.get 2)) in H; cbv in H|]).
  destruct (nonempty (lm_version_policy m)).
  - apply elem_of_app in H as [H|H].
    + apply elem_of_cons in H as [H|H]; [discriminate H|].
      apply elem_of_app in H as [H|H].
      * apply list_elem_of_fmap in H as (kv & H & _).
        by apply (f_equal (String.get 2)) in H; cbv in H.
      * apply list_elem_of_singleton in H. discriminate H.
    + apply list_elem_of_singleton in H. discriminate H.
  - apply list_elem_of_singleton in H. discriminate H.
Qed.

Lemma policy_opening_only_in_policy m :
  "  version_policy {" ∈ model_lines m → nonempty (lm_version_policy m) = true.
Proof.
  unfold model_lines, labels_lines, policy_lines.
  destruct (nonempty (lm_version_policy m)); [done|].
  intros H. exfalso. simpl in H.
  repeat (apply elem_of_cons in H as [H|H];
          [by apply (f_equal (String.get 2)) in H; cbv in H|]).
  destruct (nonempty (lm_version_labels m)).
  - apply elem_of_app in H as [H|H].
    + apply elem_of_cons in H as [H|H]; [discriminate H|].
      apply elem_of_app in H as [H|H].
      * apply elem_of_with_commas in H as (y & Hy & H).
        apply list_elem_of_fmap in Hy as (kv & -> & _).
        destruct H as [H|H]; by apply (f_equal (String.get 2)) in H; cbv in H.
      * apply list_elem_of_singleton in H. discriminate H.
    + apply list_elem_of_singleton in H. discriminate H.
  - apply list_elem_of_singleton in H. discriminate H.
Qed.

(** C7.  Registry rendering: the models the per-model loop collects are
    the accepted manifest entries in manifest order; the items [run_once]
    generates for them are the opening line, one block per model in that
    order, and the closing line, each block made of name, base path and
    platform, then the labels sub-block, then the policy sub-block; the text
    obtained by joining them is, line by line, the document of the format,
    where a labels sub-block is its opening line, one line per label with
    its version, and its closing line; and the opening line of the labels
    (policy) sub-block occurs among the lines of a model exactly when its
    labels (policy) mapping is non-empty. *)
Theorem registry_rendering entries w lms w' :
  sync_models env config entries [] w = Return lms w' →
  lms = local_model_of env config <$> List.filter (name_accepted env config) entries
  ∧ build_config_lines lms = registry_document lms
  ∧ join newline (build_config_lines lms) = join newline (registry_lines lms)
  ∧ (∀ m,
       ("  version_labels {" ∈ model_lines m ↔ nonempty (lm_version_labels m) = true)
       ∧ ("  version_policy {" ∈ model_lines m ↔ nonempty (lm_version_policy m) = true)).
Proof.
  intros H. apply sync_models_order in H. split_and!; [done | | |].
  - apply build_config_lines_document.
  - rewrite build_config_lines_document. apply join_registry.
  - intros m. split; (split; [first [apply labels_opening_only_in_labels
                                      | apply policy_opening_only_in_policy]|]).
    + intros Hl. unfold model_lines, labels_lines. rewrite Hl.
      apply elem_of_app. right. apply elem_of_app. left. apply elem_of_cons. by left.
    + intros Hp. unfold model_lines, policy_lines. rewrite Hp.
      apply elem_of_app. right. apply elem_of_app. right. apply elem_of_app. left.
      apply elem_of_cons. by left.
Qed.

End registry.

(** ** The scheduler *)

Section scheduler.
Context (env : Env) (config : SyncConfig).

Lemma reconcile_is_cycle e : is_reconcile_event e → is_cycle_event e.
Proof. destruct e; simpl; tauto. Qed.

Lemma sync_models_cycle_events entries acc :
  always (emitting is_cycle_event) (sync_models env config entries acc).
Proof.
  eapply always_mono; [|apply sync_models_emits].
  intros w w'. apply emitting_mono, reconcile_is_cycle.
Qed.

Lemma run_once_emits : always (emitting is_cycle_event) (run_once env config).
Proof.
  unfold run_once, read_manifest, _parse_model_config, remove_deleted_models,
    remove_item, write_models_config.
  repeat (first [ apply sync_models_cycle_events
                | always_step | progress unfold_calls | always_intro | case_match ]);
    try apply _; exact I.
Qed.

Lemma cycle_event_sleeps e : is_cycle_event e → sleeps_for_interval config e.
Proof. intros He s ->. destruct He. Qed.

Lemma run_once_sleeps : always (emitting (sleeps_for_interval config)) (run_once env config).
Proof.
  eapply always_mono; [|apply run_once_emits].
  intros w w'. apply emitting_mono, cycle_event_sleeps.
Qed.

Lemma loop_sleeps n : always (emitting (sleeps_for_interval config)) (loop env config n).
Proof.
  induction n as [|n IH]; simpl.
  - apply always_ret; apply _.
  - repeat (first [ apply run_once_sleeps | apply IH | always_step
                  | progress unfold_calls | always_intro ]);
      try apply _; by intros s [=].
Qed.

(** C8.  Interval floor: the interval is the configured minutes times 60,
    floored at 60 seconds, whatever the configured value (so 60 for zero and
    negative values); every sleep of the continuous mode lasts exactly that
    interval, and with the loop enabled each cycle is followed by one such
    sleep. *)
Theorem interval_floor :
  interval config = Z.max 60 (sync_interval_minutes config * 60)
  ∧ (60 ≤ interval config)%Z
  ∧ ((sync_interval_minutes config ≤ 1)%Z → interval config = 60%Z)
  ∧ ((1 ≤ sync_interval_minutes config)%Z →
       interval config = (sync_interval_minutes config * 60)%Z)
  ∧ (∀ fuel w, ∃ evs,
       log (world_of (run_continuously env config fuel w)) = log w ++ evs
       ∧ Forall (sleeps_for_interval config) evs)
  ∧ (∀ w w1,
       enable_sync_loop config = true →
       run_once env config (with_log w [InfoStartContinuous (interval config)])
         = Return tt w1 →
       run_continuously env config 1 w =
       Return tt (with_log w1 [InfoSleeping (interval config); Slept (interval config)])).
Proof.
  split_and!; try (unfold interval; lia).
  - intros fuel. unfold run_continuously.
    repeat (first [ apply run_once_sleeps | apply loop_sleeps | always_step
                  | always_intro | case_match ]);
      try apply _; by intros s [=].
  - intros w w1 Hen Hrun. unfold run_continuously. rewrite Hen. simpl.
    rewrite bind_unfold. simpl. fold (with_log w [InfoStartContinuous (interval config)]).
    rewrite bind_unfold, Hrun. unfold sleep, logging, with_log.
    rewrite !bind_unfold. simpl. by rewrite <-app_assoc.
Qed.

End scheduler.

(** * The deployments, run *)

Import Examples.

(** C1.  Path containment fails for a sibling of the root: with the root
    [/data/models], the manifest name [../models_evil] resolves to
    [/data/models_evil], whose text starts with the text of the root, so the
    check of [run_once] accepts it, no "Invalid model name" error is logged,
    and the cycle writes the remote file to [/data/models_evil/f], a path
    that does not lie under the root. *)
Theorem sibling_of_root_is_written :
  let config := settings 0 in
  let w' := world_of (run_once sibling_env config (start [])) in
  local_model_root sibling_env config = ["data"; "models"]
  ∧ resolve (joinpath (local_model_root sibling_env config) "../models_evil")
    = ["data"; "models_evil"]
  ∧ name_accepted sibling_env config (entry "../models_evil" "/m/E") = true
  ∧ ¬ local_model_root sibling_env config `prefix_of` ["data"; "models_evil"; "f"]
  ∧ fs (start []) !! ["data"; "models_evil"; "f"] = None
  ∧ fs w' !! ["data"; "models_evil"; "f"] = Some (File 104 "payload")
  ∧ log w' =
    [ InfoCycleStart; InfoProcessingModel "../models_evil";
      InfoCopying "/m/E/f" ["data"; "models_evil"; "f"];
      InfoConfigWritten ["data"; "models"; "models.config"]; InfoCycleFinished ].
Proof.
  split_and!; try (vm_compute; reflexivity).
  intros [k Hk]. vm_compute in Hk. discriminate Hk.
Qed.

(** C2.  A transfer whose staging path is a directory raises past the
    transfer boundary: the remote directory holds a file [a] next to a
    directory [a.tmp], so the staging path of [a] is that directory; opening
    it fails, the handler finds that the path exists and calls [unlink] on
    it, and the error of that call leaves [_copy_file_atomically], then
    [_sync_directory], and ends the cycle before the registry is written. *)
Theorem staged_directory_raises :
  let local_file := root ++ ["A"; "a"] in
  let config := settings 0 in
  with_tmp_suffix local_file = Some (root ++ ["A"; "a.tmp"])
  ∧ fs clash_world !! (root ++ ["A"; "a.tmp"]) = Some (Dir 0)
  ∧ _copy_file_atomically clash_env "/m/A/a" local_file clash_world
    = Raise IsADirectoryError
        {| fs := fs clash_world; ticks := 1; log := [ErrorCopyFailed "/m/A/a"] |}
  ∧ (∃ w', _sync_directory clash_env config "/m/A" (root ++ ["A"]) (start [])
           = Raise IsADirectoryError w')
  ∧ (∃ w', run_once clash_env config (start []) = Return tt w'
           ∧ ExceptionInCycle ∈ log w'
           ∧ fs w' !! config_path clash_env config = None).
Proof.
  split_and!; try (vm_compute; reflexivity).
  - eexists. vm_compute. reflexivity.
  - eexists. split_and!; [vm_compute; reflexivity | | vm_compute; reflexivity].
    apply (bool_decide_unpack _). vm_compute. exact I.
Qed.

(** ** Paths under two children of one directory *)

Lemma child_above_unique q k k' p :
  is_child q k → is_child q k' → k `prefix_of` p → k' `prefix_of` p → k = k'.
Proof.
  intros Hk Hk' Hp Hp'.
  destruct (prefix_weak_total _ _ _ Hp Hp') as [H|H].
  - by apply (children_prefix q).
  - symmetry. by apply (children_prefix q).
Qed.

Lemma child_not_above q k k' p :
  is_child q k → is_child q k' → k ≠ k' → k `prefix_of` p → p ≠ k'.
Proof.
  intros Hk Hk' Hne Hp ->. apply Hne. by apply (children_prefix q).
Qed.

(** ** The three models *)

(** The cycle of the three-model deployment meets the hypotheses of
    [deletion_propagation]: with local directories A, B and C, all up to
    date, and a manifest declaring A and C, the cycle removes B with
    everything below it and leaves every path under A and C as it was. *)
Lemma deletion_propagation_abc :
  let config := settings 0 in
  fs abc_world !! local_model_root abc_env config = Some (Dir 0)
  ∧ cycle_prefix abc_env config abc_world = Return (abc_manifest, abc_models) abc_reconciled
  ∧ ∃ w', run_once abc_env config abc_world = Return tt w'
      ∧ (∀ p, (root ++ ["B"]) `prefix_of` p → fs w' !! p = None)
      ∧ (∀ p, (root ++ ["A"]) `prefix_of` p ∨ (root ++ ["C"]) `prefix_of` p →
           fs w' !! p = fs abc_world !! p).
Proof.
  intros config.
  assert (H1 : fs abc_world !! local_model_root abc_env config = Some (Dir 0))
    by (vm_compute; reflexivity).
  assert (H2 : cycle_prefix abc_env config abc_world
               = Return (abc_manifest, abc_models) abc_reconciled)
    by (vm_compute; reflexivity).
  split_and!; [exact H1 | exact H2 |].
  destruct (deletion_propagation abc_env config abc_world _ _ _ _ H1 H2)
    as (w' & before & after & Hrun & _ & _ & _ & _ & Hgone & Hkept).
  assert (Hchild : ∀ x, sep_free x = true → x ≠ pardir →
            is_child (local_model_root abc_env config) (root ++ [x])).
  { intros x _ Hx. unfold is_child, parent, path_name.
    rewrite removelast_last, last_last. split_and!; [by destruct root | done | done]. }
  pose proof (config_path_child abc_env config) as Hcp.
  exists w'. split_and!; [exact Hrun | |].
  - intros p Hp. apply (Hgone (root ++ ["B"]) 0%Z).
    + by apply Hchild.
    + vm_compute. reflexivity.
    + apply (bool_decide_unpack _). vm_compute. exact I.
    + exact Hp.
    + apply (child_not_above _ (root ++ ["B"]) _ _ (Hchild "B" eq_refl ltac:(done)) Hcp);
        [discriminate | exact Hp].
  - intros p Hp.
    assert (∃ x, (x = "A" ∨ x = "C") ∧ (root ++ [x]) `prefix_of` p) as (x & Hx & Hpre).
    { destruct Hp; [exists "A" | exists "C"]; eauto. }
    assert (Hcx : is_child (local_model_root abc_env config) (root ++ [x])).
    { apply Hchild; destruct Hx as [-> | ->]; done. }
    assert (Hne : p ≠ config_path abc_env config).
    { apply (child_not_above _ (root ++ [x]) _ _ Hcx Hcp); [|exact Hpre].
      destruct Hx as [-> | ->]; discriminate. }
    rewrite Hkept; [| exact Hne |].
    + unfold abc_reconciled. simpl fs. apply lookup_insert_ne.
      intros <-. destruct Hx as [-> | ->], Hpre as [k Hk]; discriminate Hk.
    + intros item t' Hc Hpi _.
      rewrite (child_above_unique _ _ _ _ Hc Hcx Hpi Hpre).
      apply (bool_decide_unpack _). destruct Hx as [-> | ->]; vm_compute; exact I.
Defined.

(** The registry of that deployment, from the per-model loop. *)
Lemma registry_rendering_abc :
  let config := settings 0 in
  let w' := world_of (sync_models abc_env config (model_config abc_manifest) [] abc_world) in
  sync_models abc_env config (model_config abc_manifest) [] abc_world = Return abc_models w'
  ∧ abc_models
    = local_model_of abc_env config
        <$> List.filter (name_accepted abc_env config) (model_config abc_manifest)
  ∧ build_config_lines abc_models = registry_document abc_models
  ∧ join newline (build_config_lines abc_models) = join newline (registry_lines abc_models)
  ∧ registry_lines abc_models =
      [ "model_config_list {";
        "  config {";
        "    name: " +:+ dquote +:+ "A" +:+ dquote;
        "    base_path: " +:+ dquote +:+ "/data/models/A" +:+ dquote;
        "    model_platform: " +:+ dquote +:+ "tensorflow" +:+ dquote;
        "  version_labels {";
        "      " +:+ dquote +:+ "stable" +:+ dquote +:+ ": 3";
        "  }";
        "  }";
        "  config {";
        "    name: " +:+ dquote +:+ "C" +:+ dquote;
        "    base_path: " +:+ dquote +:+ "/data/models/C" +:+ dquote;
        "    model_platform: " +:+ dquote +:+ "tensorflow" +:+ dquote;
        "  version_labels {";
        "      " +:+ dquote +:+ "stable" +:+ dquote +:+ ": 3";
        "  }";
        "  }";
        "}" ].
Proof.
  intros config w'.
  assert (H : sync_models abc_env config (model_config abc_manifest) [] abc_world
              = Return abc_models w') by (vm_compute; reflexivity).
  split; [exact H|].
  destruct (registry_rendering abc_env config _ _ _ _ H) as (Hlms & Hdoc & Htext & _).
  split_and!; [exact Hlms | exact Hdoc | exact Htext | reflexivity].
Defined.

(** The same local tree when the manifest does not parse: the cycle removes
    A, B and C. *)
Lemma parse_failure_wipes_abc :
  let config := settings 0 in
  fs abc_world !! local_model_root unparsed_env config = Some (Dir 0)
  ∧ (∀ t', fs abc_world !! lock_path unparsed_env config ≠ Some (Dir t'))
  ∧ hdfs_model_config_path config = Some "/conf/models.yml"
  ∧ pafs.open_input_file (hdfs_fs unparsed_env) "/conf/models.yml"
    = Some {| pafs.data := "A,C"; pafs.complete := true |}
  ∧ decode_utf8 "A,C" = Some "A,C"
  ∧ load_manifest unparsed_env "A,C" = None
  ∧ ∃ w', run_once unparsed_env config abc_world = Return tt w'
      ∧ ErrorParseFailed ∈ log w'
      ∧ (∀ item t', is_child (local_model_root unparsed_env config) item →
           fs w' !! item ≠ Some (Dir t')).
Proof.
  intros config.
  assert (H1 : fs abc_world !! local_model_root unparsed_env config = Some (Dir 0))
    by (vm_compute; reflexivity).
  assert (H2 : ∀ t', fs abc_world !! lock_path unparsed_env config ≠ Some (Dir t'))
    by (intros t' H; vm_compute in H; discriminate H).
  assert (H3 : hdfs_model_config_path config = Some "/conf/models.yml") by reflexivity.
  assert (H4 : pafs.open_input_file (hdfs_fs unparsed_env) "/conf/models.yml"
               = Some {| pafs.data := "A,C"; pafs.complete := true |}) by reflexivity.
  assert (Hd : decode_utf8 "A,C" = Some "A,C") by reflexivity.
  assert (H5 : load_manifest unparsed_env "A,C" = None) by reflexivity.
  split_and!; [exact H1 | exact H2 | exact H3 | exact H4 | exact Hd | exact H5 |].
  destruct (parse_failure_wipes_models unparsed_env config abc_world _ _ _ _ H1 H2 H3 H4
              Hd H5)
    as (w' & Hrun & Hlog & _ & Hnone).
  exists w'. split_and!; [exact Hrun | exact Hlog | exact Hnone].
Defined.

(** ** Running the reconciler twice *)

(** The reconciler of model A, from an empty root, meets the hypotheses of
    [reconcile_twice]. *)
Lemma reconcile_twice_abc :
  let config := settings 0 in
  let local_dir := root ++ ["A"] in
  let w := start [] in
  let w1 := world_of (_sync_directory abc_env config "/m/A" local_dir w) in
  timely abc_env config "/m/A" local_dir (listed abc_env "/m/A")
  ∧ staging_apart abc_env config "/m/A" local_dir (listed abc_env "/m/A")
  ∧ _sync_directory abc_env config "/m/A" local_dir w = Return tt w1
  ∧ (∀ evs, log w1 = log w ++ evs → failures evs = 0)
  ∧ ∃ w2 evs,
      _sync_directory abc_env config "/m/A" local_dir w1 = Return tt w2
      ∧ fs w2 = fs w1
      ∧ log w2 = log w1 ++ evs
      ∧ transfers evs = 0.
Proof.
  intros config local_dir w w1.
  assert (Hlisted : listed abc_env "/m/A"
                    = [dir_info "/m/A/1"; file_info "/m/A/1/f" (Some 5%Z)]) by reflexivity.
  assert (H1 : timely abc_env config "/m/A" local_dir (listed abc_env "/m/A")).
  { rewrite Hlisted. intros fi lf Hin Ht.
    apply elem_of_cons in Hin as [->|Hin]; [vm_compute in Ht; discriminate Ht|].
    apply list_elem_of_singleton in Hin as ->.
    exists 5%Z. split; [reflexivity|]. intros k. simpl. lia. }
  assert (H2 : staging_apart abc_env config "/m/A" local_dir (listed abc_env "/m/A")).
  { rewrite Hlisted. intros fi lf fj lf' tmp Hi Hj Hti Htj Htmp.
    apply elem_of_cons in Hi as [->|Hi]; [vm_compute in Hti; discriminate Hti|].
    apply elem_of_cons in Hj as [->|Hj]; [vm_compute in Htj; discriminate Htj|].
    apply list_elem_of_singleton in Hi as ->. apply list_elem_of_singleton in Hj as ->.
    vm_compute in Hti, Htj. injection Hti as <-. injection Htj as <-.
    vm_compute in Htmp. injection Htmp as <-.
    intros E. vm_compute in E. discriminate E. }
  assert (H3 : _sync_directory abc_env config "/m/A" local_dir w = Return tt w1)
    by (vm_compute; reflexivity).
  assert (H4 : ∀ evs, log w1 = log w ++ evs → failures evs = 0).
  { intros evs E. vm_compute in E. rewrite <-E. reflexivity. }
  split_and!; [exact H1 | exact H2 | exact H3 | exact H4 |].
  exact (reconcile_twice abc_env config "/m/A" local_dir w w1 H1 H2 H3 H4).
Defined.

(** A remote file that reports no modification time is transferred by the
    first run and again by the second, against the unchanged remote tree. *)
Lemma undated_file_transferred_again :
  let run := _sync_directory undated_env (settings 0) "/m/U" (root ++ ["U"]) in
  let again := [InfoCopying "/m/U/f" (root ++ ["U"; "f"])] in
  ∃ w1 w2,
    run (start []) = Return tt w1
    ∧ run w1 = Return tt w2
    ∧ log w2 = log w1 ++ again
    ∧ transfers again = 1.
Proof.
  intros run again.
  exists (world_of (run (start []))), (world_of (run (world_of (run (start []))))).
  split_and!; vm_compute; reflexivity.
Qed.

(** ** A remote directory that is missing *)

(** The reconciler of a model whose remote directory is missing meets the
    hypotheses of [sync_directory_remote_missing]. *)
Lemma sync_directory_remote_missing_abc :
  let config := settings 0 in
  let info := {| pafs.path := "/m/Z"; pafs.type := pafs.NotFound; pafs.mtime := None |} in
  let w := start [] in
  pafs.get_file_info (hdfs_fs abc_env) "/m/Z" = Some info
  ∧ pafs.type info ≠ pafs.Directory
  ∧ ∃ w', _sync_directory abc_env config "/m/Z" (root ++ ["Z"]) w = Return tt w'
      ∧ log w' = log w ++ [WarnHdfsDirMissing "/m/Z"]
      ∧ (∀ p n, fs w !! p = Some n → fs w' !! p = Some n)
      ∧ (∀ p n, fs w' !! p = Some n → fs w !! p = None →
           (∃ t, n = Dir t) ∧ p `prefix_of` resolve (root ++ ["Z"])).
Proof.
  intros config info w.
  assert (H1 : pafs.get_file_info (hdfs_fs abc_env) "/m/Z" = Some info) by reflexivity.
  assert (H2 : pafs.type info ≠ pafs.Directory) by discriminate.
  split_and!; [exact H1 | exact H2 |].
  destruct (sync_directory_remote_missing abc_env config "/m/Z" (root ++ ["Z"]) info w H1 H2)
    as [(e & p & Hr & _)|(w' & Hr & Hlog & Hkeep & Hnew & _)].
  - vm_compute in Hr. discriminate Hr.
  - exists w'. split_and!; [exact Hr | exact Hlog | exact Hkeep | exact Hnew].
Defined.

(** The same call has an effect on the local tree: the directory of the
    model, absent before, is there afterwards. *)
Lemma missing_remote_creates_local_dir :
  let w := start [] in
  let w' := world_of (_sync_directory abc_env (settings 0) "/m/Z" (root ++ ["Z"]) w) in
  pafs.type <$> pafs.get_file_info (hdfs_fs abc_env) "/m/Z" = Some pafs.NotFound
  ∧ _sync_directory abc_env (settings 0) "/m/Z" (root ++ ["Z"]) w = Return tt w'
  ∧ log w' = [WarnHdfsDirMissing "/m/Z"]
  ∧ fs w !! (root ++ ["Z"]) = None
  ∧ fs w' !! (root ++ ["Z"]) = Some (Dir 100)
  ∧ fs w' ≠ fs w.
Proof.
  intros w w'. split_and!; try (vm_compute; reflexivity).
  intros E. apply (f_equal (λ m : tree, m !! (root ++ ["Z"]))) in E.
  vm_compute in E. discriminate E.
Qed.

(** The three-model cycle, in full: B and the file it holds are deleted, A
    and C keep their stamps, the lock marker is created and the registry is
    rewritten for A and C in manifest order. *)
Example abc_cycle :
  let w' := world_of (run_once abc_env (settings 0) abc_world) in
  run_once abc_env (settings 0) abc_world = Return tt w'
  ∧ fs w' =
    <[root ++ ["models.config"] := File 105 (join newline (registry_document abc_models))]>
      (<[root ++ [".sync.lock.123"] := File 100 ""]>
         (delete (root ++ ["B"; "g"]) (delete (root ++ ["B"]) (fs abc_world))))
  ∧ log w' =
    [ InfoCycleStart;
      InfoProcessingModel "A"; DebugUpToDate (root ++ ["A"; "1"; "f"]);
      InfoProcessingModel "C"; DebugUpToDate (root ++ ["C"; "h"]);
      InfoRemovedModel "B";
      InfoConfigWritten (root ++ ["models.config"]); InfoCycleFinished ].
Proof. split_and!; vm_compute; reflexivity. Qed.

(** * Further properties of the code *)

(** ** The staging path *)

Lemma string_length_app (a b : string) :
  String.length (a +:+ b) = String.length a + String.length b.
Proof. induction a as [|c a IH]; simpl; [done | by rewrite IH]. Qed.

Lemma tmp_name_not_pardir n : String.eqb (n +:+ ".tmp") pardir = false.
Proof.
  apply String.eqb_neq. intros E. apply (f_equal String.length) in E.
  rewrite string_length_app in E. simpl in E. lia.
Qed.

Lemma tmp_name_differs n : n +:+ ".tmp" ≠ n.
Proof.
  intros E. apply (f_equal String.length) in E.
  rewrite string_length_app in E. simpl in E. lia.
Qed.

Lemma length_removelast {A} (l : list A) : length (removelast l) = pred (length l).
Proof.
  induction l as [|x l IH]; [done|]. destruct l as [|y l]; [done|].
  change (removelast (x :: y :: l)) with (x :: removelast (y :: l)).
  change (length (x :: removelast (y :: l))) with (S (length (removelast (y :: l)))).
  by rewrite IH.
Qed.

(** The staging file of a transfer is never its destination. *)
Lemma tmp_apart lf tmp : with_tmp_suffix lf = Some tmp → resolve tmp ≠ resolve lf.
Proof.
  unfold with_tmp_suffix. destruct lf as [|x lf']; [done|].
  remember (x :: lf') as lf eqn:Elf. intros [= <-].
  assert (Hlf : resolve lf = resolve (parent lf ++ [path_name lf])).
  { f_equal. unfold parent, path_name. apply app_removelast_last. by subst lf. }
  rewrite Hlf, !resolve_snoc. unfold resolve_step.
  rewrite tmp_name_not_pardir.
  destruct (String.eqb (path_name lf) pardir).
  - intros E. apply (f_equal length) in E.
    rewrite length_app, length_removelast in E. simpl in E. lia.
  - intros E. apply app_inj_tail in E as [_ E]. by apply tmp_name_differs in E.
Qed.

Section transfer_outcomes.
Context (env : Env).

(** [_copy_file_atomically] once the parent directory is there. *)
Lemma copy_after_mkdir hp lf tmp t0 w :
  with_tmp_suffix lf = Some tmp →
  fs w !! resolve (parent lf) = Some (Dir t0) →
  let r := _copy_file_atomically env hp lf w in
  (∃ w' k src, r = Return tt w'
      ∧ pafs.open_input_file (hdfs_fs env) hp = Some src
      ∧ pafs.complete src = true
      ∧ fs w' = <[resolve lf := File (clock env k) (pafs.data src)]>
                  (delete (resolve tmp) (fs w))
      ∧ log w' = log w)
  ∨ (∃ w', r = Return tt w'
      ∧ fs w' = delete (resolve tmp) (fs w)
      ∧ log w' = log w ++ [ErrorCopyFailed hp])
  ∨ (∃ w' t, r = Raise IsADirectoryError w'
      ∧ fs w !! resolve tmp = Some (Dir t)
      ∧ fs w' = fs w
      ∧ log w' = log w ++ [ErrorCopyFailed hp]).
Proof.
  intros Htmp Hparent r. subst r. rewrite copy_unfold, bind_unfold.
  unfold mkdir. rewrite writing_unfold, (mkdir_tree_present _ _ _ _ Hparent).
  rewrite bind_unfold, Htmp. simpl. unfold try_except.
  set (w1 := {| fs := fs w; ticks := S (ticks w); log := log w |}).
  destruct (copy_body_outcome env hp tmp lf w1)
    as [[e He]|[(e & w2 & t & d & He & Hfs & Hlog)|(w2 & k & src & He & ? & ? & Hfs & Hlog)]];
    rewrite He.
  - pose proof (copy_handler_outcome env hp tmp w1) as Hh. simpl in Hh.
    destruct (fs w !! resolve tmp) as [[t d|t]|] eqn:E; rewrite Hh.
    + right; left. eexists. split_and!; done.
    + right; right. do 2 eexists. split_and!; done.
    + right; left. eexists. split_and!; [done | | done]. simpl. by rewrite delete_id.
  - pose proof (copy_handler_outcome env hp tmp w2) as Hh. simpl in Hh.
    rewrite Hfs, lookup_insert_eq in Hh. rewrite Hh.
    right; left. eexists. split_and!; [done | | by rewrite Hlog]. simpl.
    by rewrite delete_insert_eq.
  - left. exists w2, k, src. split_and!; done.
Qed.


(** X2.  A destination whose parent is a file: creating the parent
    directory fails before the [try] is entered, so the error leaves
    [_copy_file_atomically]; nothing is logged and nothing is changed. *)
Theorem transfer_parent_blocked hp lf t d w :
  fs w !! resolve (parent lf) = Some (File t d) →
  _copy_file_atomically env hp lf w = Raise FileExistsError w.
Proof.
  intros Hparent. rewrite copy_unfold, bind_unfold. unfold mkdir.
  rewrite writing_unfold. unfold mkdir_tree.
  rewrite mkdir_rev_unfold, rev_involutive, Hparent. done.
Qed.

End transfer_outcomes.

(** ** What the reconciler never does *)

(** X3.  The reconciler never removes a directory of the local tree, nor
    replaces one by a file, whether it returns or raises; the same holds
    for the whole per-model loop of a cycle. *)
Theorem reconciler_keeps_directories env config hdfs_dir local_dir entries acc w :
  dirs_persist (fs w) (fs (world_of (_sync_directory env config hdfs_dir local_dir w)))
  ∧ dirs_persist (fs w) (fs (world_of (sync_models env config entries acc w))).
Proof.
  split; [apply sync_directory_keeps_dirs | apply sync_models_keeps_dirs].
Qed.

Section containment.
Context (env : Env) (config : SyncConfig).

Local Abbreviation root := (Sync.local_model_root env config).

Lemma sync_entry_lands hdfs_dir local_dir fi :
  always (emitting (lands_in_root_text env config)) (sync_entry env config hdfs_dir local_dir fi).
Proof.
  unfold sync_entry.
  destruct (bool_decide (pafs.type fi ≠ pafs.File)); [apply always_ret; apply _|].
  apply always_bind; [apply _ | apply always_lift_option; apply _ |]. intros rel.
  destruct (startswith _ _) eqn:Hs; simpl.
  - apply always_bind; [apply _ | apply should_update_always; apply _ |]. intros [].
    + apply always_bind; [apply _ | |].
      * apply emitting_logging. intros src dst [= <- <-]. exact Hs.
      * intros _. eapply always_mono; [|apply copy_emits].
        intros w w'. apply emitting_mono. by intros e -> src dst [=].
    + apply emitting_logging. by intros src dst [=].
  - apply emitting_logging. by intros src dst [=].
Qed.

Lemma sync_directory_lands hdfs_dir local_dir :
  always (emitting (lands_in_root_text env config)) (_sync_directory env config hdfs_dir local_dir).
Proof.
  unfold _sync_directory. unfold_calls.
  repeat (first [ apply sync_entry_lands | always_step | always_intro | case_match ]);
    try apply _; by intros src dst [=].
Qed.

Lemma sync_models_lands entries acc :
  always (emitting (lands_in_root_text env config)) (sync_models env config entries acc).
Proof.
  revert acc. induction entries as [|m entries IH]; intros acc; simpl.
  - apply always_ret; apply _.
  - repeat (first [ apply IH | apply sync_directory_lands | always_step
                  | always_intro | case_match ]); try apply _; by intros src dst [=].
Qed.

(** X4.  What the containment check does guarantee: every transfer that a
    reconciler run or a whole cycle announces goes to a local path whose
    resolved text starts with the text of the local model root. *)
Theorem transfers_land_in_root_text hdfs_dir local_dir w :
  emitting (lands_in_root_text env config) w
    (world_of (_sync_directory env config hdfs_dir local_dir w))
  ∧ emitting (lands_in_root_text env config) w (world_of (run_once env config w)).
Proof.
  split; [apply sync_directory_lands|].
  revert w. change (always (emitting (lands_in_root_text env config)) (run_once env config)).
  unfold run_once, read_manifest, _parse_model_config, remove_deleted_models,
    remove_item, write_models_config.
  repeat (first [ apply sync_models_lands
                | always_step | progress unfold_calls | always_intro | case_match ]);
    try apply _; by intros src dst [=].
Qed.

Lemma string_prefix_app (a b : string) : String.prefix a (a +:+ b) = true.
Proof.
  induction a as [|c a IH]; [by destruct b|].
  change (String.prefix (String c a) (String c (a +:+ b)) = true). simpl.
  destruct (Ascii.ascii_dec c c); [exact IH | done].
Qed.

Lemma concat_segments_app p k :
  concat_segments (p ++ k) = concat_segments p +:+ concat_segments k.
Proof.
  induction p as [|x p IH]; simpl; [done|]. rewrite IH.
  by rewrite !string_app_assoc.
Qed.

(** The text of a path starts with the text of each of its ancestors. *)
Lemma path_str_prefix p q :
  p `prefix_of` q → startswith (path_str q) (path_str p) = true.
Proof.
  intros [k ->]. unfold startswith. destruct p as [|x p].
  - destruct k as [|y k]; [reflexivity|].
    change (String.prefix ("/" +:+ "") ("/" +:+ (y +:+ concat_segments k)) = true).
    generalize (y +:+ concat_segments k). intros rest.
    change (String.prefix (String sep "") (String sep rest) = true). simpl. by destruct rest.
  - change (path_str ((x :: p) ++ k)) with (concat_segments ((x :: p) ++ k)).
    change (path_str (x :: p)) with (concat_segments (x :: p)).
    rewrite concat_segments_app. apply string_prefix_app.
Qed.

(** X5.  The containment check rejects no path that is contained: a listed
    file whose resolved local path lies under the local model root is never
    skipped as suspicious; the reconciler goes on to the update decision
    for it. *)
Theorem contained_entry_is_accepted hdfs_dir local_dir fi rel w :
  pafs.type fi = pafs.File →
  relpath (cwd env) (pafs.path fi) hdfs_dir = Some rel →
  root `prefix_of` resolve (joinpath local_dir rel) →
  sync_entry env config hdfs_dir local_dir fi w =
  (update ← _should_update_file fi (joinpath local_dir rel);
   if update : bool then
     logging (InfoCopying (pafs.path fi) (joinpath local_dir rel));;
     _copy_file_atomically env (pafs.path fi) (joinpath local_dir rel)
   else logging (DebugUpToDate (joinpath local_dir rel))) w.
Proof.
  intros Htype Hrel Hunder. unfold sync_entry.
  rewrite bool_decide_false by (by intros H; apply H).
  rewrite Hrel. simpl. rewrite bind_unfold. simpl.
  by rewrite (path_str_prefix _ _ Hunder).
Qed.

End containment.

(** ** The cycle as a whole *)

Section whole_cycle.
Context (env : Env) (config : SyncConfig).

Local Abbreviation root := (Sync.local_model_root env config).

Lemma run_once_unfold :
  run_once env config =
  with_FileLock env (lock_path env config)
    (logging InfoCycleStart;;
     try_finally
       (try_except (cycle_body env config) (λ _, logging ExceptionInCycle))
       (logging InfoCycleFinished)).
Proof. reflexivity. Qed.

Lemma cycle_body_emits : always (emitting is_cycle_event) (cycle_body env config).
Proof.
  unfold cycle_body, read_manifest, _parse_model_config, remove_deleted_models,
    remove_item, write_models_config.
  repeat (first [ apply sync_models_cycle_events
                | always_step | progress unfold_calls | always_intro | case_match ]);
    try apply _; exact I.
Qed.

(** The cycle once the lock marker is opened. *)
Lemma run_once_locked w t :
  fs w !! root = Some (Dir t) →
  (∀ t', fs w !! lock_path env config ≠ Some (Dir t')) →
  let w1 := {| fs := <[lock_path env config := File (clock env (ticks w)) ""]> (fs w);
               ticks := S (ticks w);
               log := log w ++ [InfoCycleStart] |} in
  run_once env config w =
  match cycle_body env config w1 with
  | Return _ wb => Return tt (with_log wb [InfoCycleFinished])
  | Raise _ wb => Return tt (with_log wb [ExceptionInCycle; InfoCycleFinished])
  end.
Proof.
  intros Hroot Hlock w1. rewrite run_once_unfold. unfold with_FileLock.
  rewrite lock_path_eq in Hlock. subst w1. rewrite lock_path_eq.
  rewrite bind_unfold, (open_wb_child env root _ t w Hroot); [| | done].
  2: { pose proof (lock_path_resolved env config) as H. by rewrite lock_path_eq in H. }
  rewrite bind_unfold. simpl. unfold try_finally, try_except.
  destruct (cycle_body env config _) as [[] wb|e wb]; [reflexivity|].
  unfold logging, with_log. simpl. by rewrite <-app_assoc.
Qed.

(** X6.  No exception leaves a cycle that could take its lock: when the
    root is a directory and the lock path is not, [run_once] returns,
    whatever fails inside, and its log starts with the "cycle start" line
    and ends with the "cycle finished" line. *)
Theorem cycle_always_finishes w t :
  fs w !! root = Some (Dir t) →
  (∀ t', fs w !! lock_path env config ≠ Some (Dir t')) →
  ∃ w' evs,
    run_once env config w = Return tt w'
    ∧ log w' = log w ++ [InfoCycleStart] ++ evs ++ [InfoCycleFinished].
Proof.
  intros Hroot Hlock. rewrite (run_once_locked w t Hroot Hlock).
  set (w1 := {| fs := _; ticks := _; log := _ |}).
  destruct (cycle_body_emits w1) as (evs & Hlog & _).
  destruct (cycle_body env config w1) as [[] wb|e wb]; simpl in Hlog.
  - exists (with_log wb [InfoCycleFinished]), evs. split; [done|]. simpl.
    rewrite Hlog. subst w1. simpl. by rewrite <-!app_assoc.
  - exists (with_log wb [ExceptionInCycle; InfoCycleFinished]), (evs ++ [ExceptionInCycle]).
    split; [done|]. simpl. rewrite Hlog. subst w1. simpl. by rewrite <-!app_assoc.
Qed.

(** X7.  A manifest that cannot be read, unlike one that cannot be parsed,
    costs nothing: when opening the manifest fails, its stream breaks, or
    its bytes are not UTF-8, the cycle logs the exception and ends; apart
    from the lock marker the local tree is untouched, so no model is deleted
    and the registry is not rewritten. *)
Theorem unreadable_manifest_spares_tree w t mp :
  fs w !! root = Some (Dir t) →
  (∀ t', fs w !! lock_path env config ≠ Some (Dir t')) →
  hdfs_model_config_path config = Some mp →
  (∀ f, pafs.open_input_file (hdfs_fs env) mp = Some f →
        pafs.complete f = false ∨ decode_utf8 (pafs.data f) = None) →
  run_once env config w =
  Return tt
    {| fs := <[lock_path env config := File (clock env (ticks w)) ""]> (fs w);
       ticks := S (ticks w);
       log := log w ++ [InfoCycleStart; ExceptionInCycle; InfoCycleFinished] |}.
Proof.
  intros Hroot Hlock Hmp Hopen. rewrite (run_once_locked w t Hroot Hlock).
  assert (Hread : ∃ e, ∀ w1, read_manifest env config w1 = Raise e w1).
  { unfold read_manifest. rewrite Hmp.
    destruct (pafs.open_input_file (hdfs_fs env) mp) as [f|] eqn:Hf.
    - destruct (pafs.complete f) eqn:Hc.
      + destruct (Hopen f eq_refl) as [?|Hd]; [congruence|].
        exists UnicodeDecodeError. intros w1. rewrite bind_unfold. simpl.
        rewrite bind_unfold, Hf. simpl. rewrite bind_unfold, Hc. simpl. by rewrite Hd.
      + exists OSError. intros w1. rewrite bind_unfold. simpl.
        rewrite bind_unfold, Hf. simpl. by rewrite bind_unfold, Hc.
    - exists OSError. intros w1. rewrite bind_unfold. simpl.
      by rewrite bind_unfold, Hf. }
  destruct Hread as [e Hread].
  unfold cycle_body. rewrite (bind_Raise _ _ _ _ _ (Hread _)).
  unfold with_log. simpl. by rewrite <-app_assoc.
Qed.

(** X8.  What the registry file holds after a cycle: when the per-model
    loop returns the models [lms] and [models.config] is not a directory,
    the cycle returns and the file holds the registry document of [lms], its
    lines joined by newlines. *)
Theorem registry_is_written w hm lms w2 t :
  fs w !! root = Some (Dir t) →
  cycle_prefix env config w = Return (hm, lms) w2 →
  (∀ t', fs w2 !! config_path env config ≠ Some (Dir t')) →
  ∃ w' t',
    run_once env config w = Return tt w'
    ∧ fs w' !! config_path env config
      = Some (File t' (join newline (registry_document lms))).
Proof.
  intros Hroot Hprefix Hnd.
  destruct (run_once_outcome env config w hm lms w2 t Hroot Hprefix)
    as (w' & before & after & Hrun & _ & _ & _ & _ & _ & _ & [(t' & Hf)|(t' & Hd & _)]).
  - exists w', t'. split; [done|]. by rewrite <-build_config_lines_document.
  - by destruct (Hnd t').
Qed.

(** X9.  Deleting twice deletes once: after step 3 has run, running it
    again with the same manifest leaves the local tree as it is. *)
Theorem deletion_is_idempotent entries w t :
  fs w !! root = Some (Dir t) →
  let w1 := world_of (remove_deleted_models env config entries w) in
  let w2 := world_of (remove_deleted_models env config entries w1) in
  fs w2 = fs w1.
Proof.
  intros Hroot w1 w2.
  destruct (remove_deleted_models_spec env config entries w t Hroot)
    as (w1' & evs & Hrun & _ & _ & Hgone & Hkept).
  assert (w1 = w1') as Hw1 by (subst w1; by rewrite Hrun).
  assert (Hroot1 : fs w1 !! root = Some (Dir t)).
  { rewrite Hw1, Hkept; [done|]. intros item t' Hc Hpre.
    apply prefix_length in Hpre. apply child_snoc, (f_equal length) in Hc.
    rewrite length_app in Hc. simpl in Hc. lia. }
  destruct (remove_deleted_models_spec env config entries w1 t Hroot1)
    as (w2' & evs' & Hrun' & _ & _ & _ & Hkept').
  assert (w2 = w2') as -> by (subst w2; by rewrite Hrun').
  apply map_eq. intros p. apply Hkept'. intros item t' Hc _ Hd.
  destruct (decide (path_name item ∈ declared entries)) as [|Hout]; [done|].
  exfalso. rewrite Hw1 in Hd.
  destruct (fs w !! item) as [[t0 d0|t0]|] eqn:Hitem.
  - rewrite Hkept in Hd; [congruence|]. intros item' t0' Hc' Hpre Hd'.
    rewrite (children_prefix _ _ _ Hc' Hc Hpre) in Hd'. congruence.
  - rewrite (Hgone item t0 item Hc Hitem Hout) in Hd; done.
  - rewrite Hkept in Hd; [congruence|]. intros item' t0' Hc' Hpre Hd'.
    rewrite (children_prefix _ _ _ Hc' Hc Hpre) in Hd'. congruence.
Qed.

(** X10.  [__init__] first connects: when the constructor of the remote
    client raises, [__init__] logs the failure and raises the same
    exception, the local tree untouched.  With the handle obtained, it
    either fails in creating the root, changing nothing, or returns the
    handle with the root a directory: the entries of the local tree are all
    kept, the only new ones are directories on the path to the root, and
    the "initialized" line is logged. *)
Theorem init_establishes_root w :
  match connect env (name_services (hdfs config)) 0 (user (hdfs config))
          (Connection.extra_conf (hdfs config)) with
  | inl e =>
      init env config w = Raise e (with_log w [ErrorConnectFailed])
  | inr handle =>
      (∃ e p, init env config w = Raise e w
          ∧ p `prefix_of` root ∧ ¬ ∃ t, fs w !! p = Some (Dir t))
      ∨ (∃ w' t, init env config w = Return handle w'
          ∧ fs w' !! root = Some (Dir t)
          ∧ log w' = log w ++ [InfoRootInitialized root]
          ∧ (∀ p n, fs w !! p = Some n → fs w' !! p = Some n)
          ∧ (∀ p n, fs w' !! p = Some n → fs w !! p = None →
               (∃ t', n = Dir t') ∧ p `prefix_of` root))
  end.
Proof.
  unfold init, _initialize_hdfs_fs. rewrite bind_unfold. unfold try_except.
  destruct (connect env _ _ _ _) as [e|handle]; simpl; [done|].
  rewrite bind_unfold. unfold mkdir. rewrite writing_unfold.
  rewrite local_model_root_resolved.
  destruct (mkdir_tree _ _ _) as [e|m1] eqn:Hmk.
  - left. destruct (mkdir_tree_failure _ _ _ _ Hmk) as (p & Hp & Hn). by exists e, p.
  - right. destruct (mkdir_tree_spec _ _ _ _ Hmk) as (Hkeep & Hnew & t & Hdir).
    eexists _, t. split_and!; [done | done | done | done |].
    simpl. intros p n Hp Hnone. destruct (Hnew p n Hp Hnone) as [-> ?]. eauto.
Qed.

(** X11.  With the loop disabled, [run_continuously] logs the warning, runs
    exactly one cycle and returns what it returns, whatever the number of
    iterations observed; it never sleeps. *)
Theorem disabled_loop_runs_one_cycle fuel w :
  enable_sync_loop config = false →
  run_continuously env config fuel w
  = run_once env config (with_log w [WarnLoopDisabled])
  ∧ ∃ evs,
      log (world_of (run_continuously env config fuel w)) = log w ++ WarnLoopDisabled :: evs
      ∧ Forall (λ e, ∀ s, e ≠ Slept s ∧ e ≠ InfoSleeping s) evs.
Proof.
  intros Hoff.
  assert (Hrun : run_continuously env config fuel w
                 = run_once env config (with_log w [WarnLoopDisabled])).
  { unfold run_continuously. rewrite Hoff. reflexivity. }
  split; [done|]. rewrite Hrun.
  destruct (run_once_emits env config (with_log w [WarnLoopDisabled])) as (evs & Hlog & Hev).
  exists evs. split.
  - rewrite Hlog. simpl. by rewrite <-app_assoc.
  - eapply Forall_impl; [exact Hev|]. intros e He s. split; intros ->; exact He.
Qed.

End whole_cycle.

Lemma logging_unfold e w :
  logging e w = Return tt {| fs := fs w; ticks := ticks w; log := log w ++ [e] |}.
Proof. reflexivity. Qed.

Section aborted_cycle.
Context (env : Env) (config : SyncConfig).

(** X12.  An exception in steps 1 and 2 ends the cycle on the spot: when
    reading the manifest or reconciling a model raises, [run_once] logs the
    exception and the end of the cycle and returns; the local tree stays as
    it was when the exception was raised, so step 3 deletes nothing and
    step 4 does not rewrite the registry. *)
Theorem failed_reconciliation_skips_deletion w e wb :
  cycle_prefix env config w = Raise e wb →
  run_once env config w = Return tt (with_log wb [ExceptionInCycle; InfoCycleFinished])
  ∨ (run_once env config w = Raise e wb ∧ wb = w).
Proof.
  unfold cycle_prefix, run_once, with_FileLock. intros H.
  rewrite bind_unfold in H. rewrite bind_unfold.
  destruct (open_wb env (lock_path env config) w) as [[] w0|e0 w0] eqn:Hopen.
  2: { right. injection H as -> ->. split; [done|].
       unfold open_wb in Hopen. rewrite writing_unfold in Hopen.
       destruct (open_wb_tree _ _ _); by simplify_eq. }
  left. rewrite bind_unfold, logging_unfold in H. rewrite bind_unfold, logging_unfold.
  unfold try_finally, try_except.
  set (w1 := {| fs := fs w0; ticks := ticks w0; log := log w0 ++ [InfoCycleStart] |}) in *.
  rewrite bind_unfold in H. rewrite bind_unfold.
  destruct (read_manifest env config w1) as [content wa|ea wa].
  2: { injection H as -> ->. unfold with_log. simpl. by rewrite <-app_assoc. }
  rewrite bind_unfold in H. rewrite bind_unfold.
  destruct (_parse_model_config env content wa) as [hm wc|ec wc].
  2: { injection H as -> ->. unfold with_log. simpl. by rewrite <-app_assoc. }
  rewrite bind_unfold in H. rewrite bind_unfold.
  destruct (sync_models env config (model_config hm) [] wc) as [lms wd|ed wd].
  - discriminate H.
  - injection H as -> ->. unfold with_log. simpl. by rewrite <-app_assoc.
Qed.

End aborted_cycle.

(** ** The registry text *)

Lemma string_app_nonempty (a b : string) : a ≠ "" → a +:+ b ≠ "".
Proof.
  destruct a as [|c a]; [done|]. intros _.
  change (String c (a +:+ b) ≠ ""). discriminate.
Qed.

(** X13.  Each formatter returns the empty string exactly when its mapping
    is [None] or empty, that is, exactly when the guard of [run_once] would
    not call it. *)
Theorem formatters_empty_iff_falsy labels policy :
  (_format_version_labels labels = "" ↔ truthy labels = false)
  ∧ (_format_version_policy policy = "" ↔ truthy policy = false).
Proof.
  split.
  - destruct labels as [[|x l]|]; simpl; [done | | done].
    split; [|done]. intros E. by apply string_app_nonempty in E.
  - destruct policy as [[|x l]|]; simpl; [done | | done].
    split; [|done]. intros E. by apply string_app_nonempty in E.
Qed.

(** ** The connection settings *)

Module ConnectionFacts.
Import Connection.

Section dict.
Context {V : Type}.
Implicit Types (d : list (string * V)) (k : string) (v : V).

Lemma dict_get_set_eq k v d : dict_get k (dict_set k v d) = Some v.
Proof.
  induction d as [|[k' v'] d IH]; simpl; [by rewrite String.eqb_refl|].
  destruct (String.eqb k k') eqn:E; simpl; rewrite E; [done | exact IH].
Qed.

Lemma dict_get_set_ne k k' v d : k ≠ k' → dict_get k (dict_set k' v d) = dict_get k d.
Proof.
  intros Hne. induction d as [|[k0 v0] d IH]; simpl.
  - apply String.eqb_neq in Hne. by rewrite Hne.
  - destruct (String.eqb k' k0) eqn:E; simpl; [|by rewrite IH].
    apply String.eqb_eq in E as <-. apply String.eqb_neq in Hne. by rewrite Hne.
Qed.

Lemma dict_keys_set k v d :
  dict_keys (dict_set k v d) = if decide (k ∈ dict_keys d) then dict_keys d else dict_keys d ++ [k].
Proof.
  unfold dict_keys. induction d as [|[k0 v0] d IH].
  - destruct (decide (k ∈ fst <$> [])) as [Hin|_]; [|done]. by apply elem_of_nil in Hin.
  - change (dict_set k v ((k0, v0) :: d))
      with (if String.eqb k k0 then (k0, v) :: d else (k0, v0) :: dict_set k v d).
    destruct (String.eqb k k0) eqn:E.
    + apply String.eqb_eq in E as ->.
      destruct (decide (k0 ∈ fst <$> (k0, v0) :: d)) as [_|Hout]; [done|].
      exfalso. apply Hout. rewrite fmap_cons. by left.
    + apply String.eqb_neq in E. rewrite !fmap_cons, IH. simpl.
      destruct (decide (k ∈ fst <$> d)) as [Hin|Hout],
               (decide (k ∈ k0 :: (fst <$> d))) as [Hin'|Hout']; try done.
      * exfalso. apply Hout'. by right.
      * exfalso. by apply elem_of_cons in Hin' as [|].
Qed.

Lemma dict_get_None k d : k ∉ dict_keys d → dict_get k d = None.
Proof.
  unfold dict_keys. induction d as [|[k0 v0] d IH]; simpl; [done|].
  intros Hn. destruct (String.eqb k k0) eqn:E.
  - apply String.eqb_eq in E as ->. exfalso. apply Hn. by left.
  - apply IH. intros Hin. apply Hn. by right.
Qed.

End dict.

Lemma filter_none {A} (P : A → Prop) `{!∀ x, Decision (P x)} (l : list A) :
  (∀ x, x ∈ l → ¬ P x) → filter P l = [].
Proof.
  induction l as [|x l IH]; intros Hno; [done|].
  rewrite filter_cons_False by (apply Hno; by left).
  apply IH. intros y Hy. apply Hno. by right.
Qed.

Lemma namenode_map_snoc nns nn :
  foldl (λ d nn, dict_set (nn_id nn) (address nn) d) [] (nns ++ [nn])
  = dict_set (nn_id nn) (address nn)
      (foldl (λ d nn, dict_set (nn_id nn) (address nn) d) [] nns).
Proof. by rewrite foldl_app. Qed.

(** The dictionary of the name nodes: the last address given for an id. *)
Lemma namenode_map_get conf i :
  dict_get i (namenode_map conf)
  = address <$> last (filter (λ nn, nn_id nn = i) (namenodes conf)).
Proof.
  unfold namenode_map. induction (namenodes conf) as [|nn nns IH] using rev_ind; [done|].
  rewrite namenode_map_snoc, filter_app.
  destruct (decide (i = nn_id nn)) as [->|Hne].
  - rewrite dict_get_set_eq. rewrite filter_cons_True by done.
    rewrite filter_nil. by rewrite last_snoc.
  - rewrite dict_get_set_ne by done. rewrite filter_cons_False by done.
    by rewrite filter_nil, app_nil_r.
Qed.

Lemma namenode_map_keys conf :
  NoDup (dict_keys (namenode_map conf))
  ∧ (∀ i, i ∈ dict_keys (namenode_map conf) ↔ i ∈ nn_id <$> namenodes conf)
  ∧ (NoDup (nn_id <$> namenodes conf) →
     dict_keys (namenode_map conf) = nn_id <$> namenodes conf).
Proof.
  unfold namenode_map. induction (namenodes conf) as [|nn nns (IH1 & IH2 & IH3)] using rev_ind.
  - split_and!; [constructor | done | done].
  - rewrite namenode_map_snoc, dict_keys_set, fmap_app. simpl.
    destruct (decide (nn_id nn ∈ _)) as [Hin|Hout].
    + split_and!; [done | |].
      * intros i. rewrite elem_of_app, list_elem_of_singleton, IH2. split; [by left|].
        intros [?| ->]; [done|]. by apply IH2.
      * intros [_ [Hd _]]%NoDup_app. exfalso. apply (Hd (nn_id nn)).
        -- by apply IH2.
        -- by apply list_elem_of_singleton.
    + split_and!.
      * apply NoDup_app. split_and!; [done | | apply NoDup_singleton].
        intros x Hx ->%list_elem_of_singleton. done.
      * intros i. by rewrite !elem_of_app, IH2.
      * intros [Hnd _]%NoDup_app. by rewrite IH3.
Qed.

Section connection_settings.
Context (conf : HDFSConfig).

Local Abbreviation ns := (name_services conf).

Lemma rpc_address_key_inj i j : rpc_address_key ns i = rpc_address_key ns j → i = j.
Proof.
  unfold rpc_address_key. intros E.
  apply (inj (String.app _)) in E. apply (inj (String.app _)) in E.
  by apply (inj (String.app _)) in E.
Qed.

Lemma rpc_address_key_fresh i :
  rpc_address_key ns i ≠ "dfs.nameservices"
  ∧ rpc_address_key ns i ≠ ha_namenodes_key ns
  ∧ rpc_address_key ns i ≠ failover_key ns.
Proof.
  unfold rpc_address_key, ha_namenodes_key, failover_key.
  split_and!; intros E; cbv in E; discriminate E.
Qed.

Lemma fixed_keys_apart :
  ha_namenodes_key ns ≠ "dfs.nameservices"
  ∧ failover_key ns ≠ "dfs.nameservices"
  ∧ failover_key ns ≠ ha_namenodes_key ns.
Proof.
  unfold ha_namenodes_key, failover_key.
  split_and!; intros E; cbv in E; discriminate E.
Qed.

(** The loop over the items of the dictionary of the name nodes. *)
Lemma rpc_loop_get (items base : list (string * string)) k :
  dict_get k
    (foldl (λ d item, dict_set (rpc_address_key ns item.1) item.2 d) base items)
  = match last (filter (λ item, rpc_address_key ns item.1 = k) items) with
    | Some item => Some item.2
    | None => dict_get k base
    end.
Proof.
  induction items as [|item items IH] using rev_ind; [done|].
  rewrite foldl_app, filter_app. simpl.
  destruct (decide (rpc_address_key ns item.1 = k)) as [<-|Hne].
  - rewrite dict_get_set_eq, filter_cons_True by done. by rewrite filter_nil, last_snoc.
  - rewrite dict_get_set_ne by done. rewrite filter_cons_False by done.
    by rewrite filter_nil, app_nil_r.
Qed.

Lemma unique_key_last (items : list (string * string)) i :
  NoDup (dict_keys items) →
  (λ item : string * string, item.2) <$> last (filter (λ item, item.1 = i) items)
  = dict_get i items.
Proof.
  unfold dict_keys. induction items as [|[k v] items IH]; [done|].
  rewrite fmap_cons. intros [Hk Hnd]%NoDup_cons. simpl in Hk. simpl dict_get.
  destruct (String.eqb i k) eqn:E.
  - apply String.eqb_eq in E as ->. rewrite filter_cons_True by done.
    assert (filter (λ item : string * string, item.1 = k) items = []) as ->; [|done].
    apply filter_none. intros [k' v'] Hin E. simpl in E. subst k'. apply Hk.
    apply list_elem_of_fmap. by exists (k, v').
  - apply String.eqb_neq in E. rewrite filter_cons_False by (simpl; congruence).
    by apply IH.
Qed.

(** X15.  The address of a name node in the connection settings: for every
    id, the settings map the rpc-address key of that id to the address of
    the last configured name node with that id, and hold no such key when no
    name node has the id. *)
Theorem extra_conf_rpc_address i :
  dict_get (rpc_address_key ns i) (extra_conf conf)
  = address <$> last (filter (λ nn, nn_id nn = i) (namenodes conf)).
Proof.
  unfold extra_conf. rewrite rpc_loop_get.
  destruct (rpc_address_key_fresh i) as (F1 & F2 & F3).
  assert (Hfilter : filter (λ item : string * string, rpc_address_key ns item.1 = rpc_address_key ns i)
                      (namenode_map conf)
                    = filter (λ item : string * string, item.1 = i) (namenode_map conf)).
  { apply list_filter_iff. intros item. split; [apply rpc_address_key_inj | by intros ->]. }
  rewrite Hfilter, <-namenode_map_get.
  rewrite <-(unique_key_last _ i) by apply namenode_map_keys.
  destruct (last _) as [item|]; [done|]. cbv beta iota.
  rewrite !dict_get_set_ne by done. done.
Qed.

(** X16.  The fixed entries of the connection settings survive the loop
    over the name nodes: the name service, the failover provider, and the
    comma-separated list of name node ids, which holds every configured id
    once and is the configured list itself when that has no duplicate. *)
Theorem extra_conf_fixed_entries :
  dict_get "dfs.nameservices" (extra_conf conf) = Some ns
  ∧ dict_get (failover_key ns) (extra_conf conf) = Some failover_provider
  ∧ dict_get (ha_namenodes_key ns) (extra_conf conf)
    = Some (join "," (dict_keys (namenode_map conf)))
  ∧ NoDup (dict_keys (namenode_map conf))
  ∧ (∀ i, i ∈ dict_keys (namenode_map conf) ↔ i ∈ nn_id <$> namenodes conf)
  ∧ (NoDup (nn_id <$> namenodes conf) →
     dict_keys (namenode_map conf) = nn_id <$> namenodes conf).
Proof.
  destruct fixed_keys_apart as (A1 & A2 & A3).
  assert (Hfixed : ∀ k, (∀ i, rpc_address_key ns i ≠ k) →
    dict_get k (extra_conf conf)
    = dict_get k
        (dict_set (failover_key ns) failover_provider
           (dict_set (ha_namenodes_key ns) (join "," (dict_keys (namenode_map conf)))
              (dict_set "dfs.nameservices" ns [])))).
  { intros k Hk. unfold extra_conf. rewrite rpc_loop_get.
    assert (filter (λ item : string * string, rpc_address_key ns item.1 = k) (namenode_map conf) = [])
      as ->; [|done].
    apply filter_none. intros item _. apply Hk. }
  split_and!; [| | |apply namenode_map_keys..].
  - rewrite Hfixed by (intros i; apply rpc_address_key_fresh).
    rewrite !dict_get_set_ne by done. apply dict_get_set_eq.
  - rewrite Hfixed by (intros i; apply rpc_address_key_fresh). apply dict_get_set_eq.
  - rewrite Hfixed by (intros i; apply rpc_address_key_fresh).
    rewrite dict_get_set_ne by done. apply dict_get_set_eq.
Qed.

End connection_settings.

End ConnectionFacts.

(** ** Loading the configuration *)

Module LoaderFacts.
Import Loader.

(** What a successful [load_config] has gone through. *)
Lemma load_config_inr le path c :
  load_config le path = inr c →
  ∃ text fields c0,
    open_text le path = inr text
    ∧ safe_load le text = Some (YDict fields)
    ∧ truth (dict_get (default "dev" (environ le !! "APP_ENV")) fields) = true
    ∧ from_dict le (dict_get (default "dev" (environ le !! "APP_ENV")) fields) = Some c0
    ∧ c = (if str_truthy (environ le !! "HDFS_MODEL_CONFIG_PATH")
           then set_hdfs_model_config_path c0
                  (default "" (environ le !! "HDFS_MODEL_CONFIG_PATH"))
           else c0)
    ∧ str_truthy (hdfs_model_config_path c) = true.
Proof.
  unfold load_config. intros H.
  destruct (open_text le path) as [e|text] eqn:Hopen; [done|].
  destruct (safe_load le text) as [[| | | | |fields|]|] eqn:Hload; try done.
  destruct (truth _) eqn:Htruth; simpl in H; [|done].
  destruct (from_dict le _) as [c0|] eqn:Hfrom; [|done].
  destruct (str_truthy (hdfs_model_config_path _)) eqn:Hpath; simpl in H; [|done].
  injection H as <-. exists text, fields, c0. split_and!; done.
Qed.

(** X17.  A configuration that [load_config] returns always names the
    manifest: its [hdfs_model_config_path] is a non-empty string [p], so
    the first step of a cycle never fails for want of a path.  It fails in
    two ways only, the world unchanged: with an error of the remote file
    system, when [p] cannot be opened or its stream breaks, and with a
    decoding error, when the bytes read are not UTF-8. *)
Theorem loaded_config_names_manifest le path c :
  load_config le path = inr c →
  ∃ p, hdfs_model_config_path c = Some p ∧ p ≠ ""
    ∧ ∀ env w e w', read_manifest env c w = Raise e w' →
        w' = w
        ∧ ((e = OSError
            ∧ ∀ f, pafs.open_input_file (hdfs_fs env) p = Some f → pafs.complete f = false)
           ∨ (e = UnicodeDecodeError
              ∧ ∃ f, pafs.open_input_file (hdfs_fs env) p = Some f
                  ∧ pafs.complete f = true
                  ∧ decode_utf8 (pafs.data f) = None)).
Proof.
  intros (text & fields & c0 & _ & _ & _ & _ & _ & Hpath)%load_config_inr.
  destruct (hdfs_model_config_path c) as [p|] eqn:Hp; [|done].
  exists p. split_and!; [done | by intros -> |].
  intros env w e w'. unfold read_manifest. rewrite Hp, bind_unfold. simpl.
  rewrite bind_unfold.
  destruct (pafs.open_input_file (hdfs_fs env) p) as [f|]; simpl;
    [|intros [= <- <-]; split; [done|]; left; by split].
  rewrite bind_unfold.
  destruct (pafs.complete f) eqn:Hc; simpl.
  - destruct (decode_utf8 (pafs.data f)) eqn:Hd; simpl; [done|].
    intros [= <- <-]. split; [done|]. right. split; [done|]. by exists f.
  - intros [= <- <-]. split; [done|]. left. split; [done|]. by intros ? [= <-].
Qed.

(** X18.  The environment variable takes precedence: a configuration that
    [load_config] returns is what [from_dict] builds from the section of
    the selected environment (the one [APP_ENV] names, [dev] when it is not
    set), with the manifest path replaced by [HDFS_MODEL_CONFIG_PATH] when
    that variable is set and not empty, and left as the file gives it
    otherwise; no other field is changed. *)
Theorem manifest_path_override le path c :
  load_config le path = inr c →
  ∃ text fields c0,
    open_text le path = inr text
    ∧ safe_load le text = Some (YDict fields)
    ∧ from_dict le (dict_get (default "dev" (environ le !! "APP_ENV")) fields) = Some c0
    ∧ hdfs c = hdfs c0
    ∧ Config.local_model_root c = Config.local_model_root c0
    ∧ sync_interval_minutes c = sync_interval_minutes c0
    ∧ enable_sync_loop c = enable_sync_loop c0
    ∧ hdfs_model_config_path c =
      match environ le !! "HDFS_MODEL_CONFIG_PATH" with
      | Some v => if String.eqb v "" then hdfs_model_config_path c0 else Some v
      | None => hdfs_model_config_path c0
      end.
Proof.
  intros (text & fields & c0 & Hopen & Hload & _ & Hfrom & -> & _)%load_config_inr.
  exists text, fields, c0. split_and!; [done | done | done | ..];
    destruct (environ le !! "HDFS_MODEL_CONFIG_PATH") as [v|]; simpl; try done;
    destruct (String.eqb v ""); done.
Qed.

End LoaderFacts.

(** ** The local files the remote listing does not name *)

Global Instance entry_stays_preorder p n : PreOrder (entry_stays p n).
Proof.
  split.
  - by intros m H.
  - intros m1 m2 m3 H1 H2 H. by apply H2, H1.
Qed.

Section frame.
Context (env : Env) (config : SyncConfig) (hdfs_dir : string) (local_dir : Path).

Lemma sync_entry_entry_stays fi p n :
  (∀ lf, local_target env config hdfs_dir local_dir fi = Some lf →
     p ≠ resolve lf ∧ ∀ tmp, with_tmp_suffix lf = Some tmp → p ≠ resolve tmp) →
  always (moving (entry_stays p n)) (sync_entry env config hdfs_dir local_dir fi).
Proof.
  intros Hapart w. unfold moving, entry_stays. intros Hp.
  destruct (local_target env config hdfs_dir local_dir fi) as [lf|] eqn:Htarget.
  - destruct (Hapart lf eq_refl) as [Hlf Htmp].
    rewrite (sync_entry_targeted _ _ _ _ _ _ _ Htarget), bind_unfold, should_update_file_eq.
    match goal with |- context [if ?b then _ else _] => destruct b end; [|done].
    rewrite bind_unfold. simpl.
    set (w1 := {| fs := fs w; ticks := ticks w; log := _ |}).
    destruct (copy_outcomes env (pafs.path fi) lf w1)
      as [[e ->]|(m1 & Hmk & [(_ & e & w' & -> & Hfs & _)|(tmp & Htmpeq & Hcase)])].
    + done.
    + simpl. rewrite Hfs. by apply (mkdir_tree_spec _ _ _ _ Hmk).
    + specialize (Htmp tmp Htmpeq).
      assert (Hm1 : m1 !! p = Some n) by by apply (mkdir_tree_spec _ _ _ _ Hmk).
      destruct Hcase as [(w' & k & src & -> & _ & _ & Hfs & _)
                        |[(w' & -> & Hfs & _)|(w' & t0 & -> & _ & Hfs & _)]];
        simpl; rewrite Hfs.
      * by rewrite lookup_insert_ne, lookup_delete_ne.
      * by rewrite lookup_delete_ne.
      * done.
  - destruct (sync_entry_untargeted env config hdfs_dir local_dir fi Htarget)
      as [Hr|(evs & _ & Hr)]; rewrite Hr; done.
Qed.

(** X19.  The reconciler leaves alone what the remote listing does not
    name: an entry of the local tree that is neither the destination nor
    the staging path of a listed file that passes the containment check is,
    after [_sync_directory], exactly what it was before, whether the call
    returns or raises. *)
Theorem reconciler_leaves_unlisted_entries w p n :
  fs w !! p = Some n →
  (∀ fi lf, fi ∈ listed env hdfs_dir →
     local_target env config hdfs_dir local_dir fi = Some lf →
     p ≠ resolve lf ∧ ∀ tmp, with_tmp_suffix lf = Some tmp → p ≠ resolve tmp) →
  fs (world_of (_sync_directory env config hdfs_dir local_dir w)) !! p = Some n.
Proof.
  intros Hp Hapart. unfold _sync_directory. rewrite bind_unfold.
  unfold mkdir. rewrite writing_unfold.
  destruct (mkdir_tree _ _ _) as [e|m1] eqn:Hmk; [done|].
  apply (mkdir_tree_spec _ _ _ _ Hmk) in Hp.
  rewrite bind_unfold.
  destruct (pafs.get_file_info (hdfs_fs env) hdfs_dir) as [info|]; [|done]. simpl.
  destruct (bool_decide (pafs.type info ≠ pafs.Directory)); [done|].
  rewrite bind_unfold. unfold listed in Hapart.
  destruct (pafs.get_file_info_selector (hdfs_fs env) hdfs_dir) as [xs|]; [|done]. simpl.
  assert (always (moving (entry_stays p n))
            (for_each xs (sync_entry env config hdfs_dir local_dir))) as Hall.
  { apply always_for_each; [apply _|]. intros fi Hin.
    apply sync_entry_entry_stays. intros lf. by apply Hapart. }
  by apply Hall.
Qed.

End frame.

(** ** The continuous mode *)

(** *** The lock marker is no staging path *)

Lemma string_last_app (a b : string) :
  string_last (a +:+ b) = match string_last b with Some c => Some c | None => string_last a end.
Proof.
  induction a as [|x a IH]; [change ("" +:+ b) with b; by destruct (string_last b)|].
  change (string_last (String x (a +:+ b))
          = match string_last b with Some c => Some c | None => string_last (String x a) end).
  simpl. rewrite IH. by destruct (string_last b), (string_last a).
Qed.

Lemma char_free_last c s : char_free c s = true → string_last s ≠ Some c.
Proof.
  induction s as [|x s IH]; simpl; [done|].
  intros [Hx Hs]%andb_true_iff. specialize (IH Hs).
  destruct (string_last s) as [c'|]; [done|].
  intros [= ->]. by rewrite Ascii.eqb_refl in Hx.
Qed.

Lemma char_free_app c (a b : string) :
  char_free c a = true → char_free c b = true → char_free c (a +:+ b) = true.
Proof.
  intros Ha Hb. induction a as [|x a IH]; [done|].
  change (char_free c (String x (a +:+ b)) = true). simpl in Ha |- *.
  apply andb_true_iff in Ha as [Hx Ha]. rewrite Hx. simpl. by apply IH.
Qed.

Lemma char_free_uint d : char_free "p"%char (NilEmpty.string_of_uint d) = true.
Proof. induction d; simpl; done. Qed.

Lemma char_free_str_of_int z : char_free "p"%char (str_of_int z) = true.
Proof.
  unfold str_of_int, NilZero.string_of_int.
  assert (∀ d, char_free "p"%char (NilZero.string_of_uint d) = true) as Hu.
  { intros d. unfold NilZero.string_of_uint.
    destruct d; first [reflexivity | apply char_free_uint]. }
  destruct (Z.to_int z); simpl; by rewrite ?Hu.
Qed.

Lemma resolve_tmp lf tmp :
  with_tmp_suffix lf = Some tmp →
  resolve tmp = resolve (parent lf) ++ [path_name lf +:+ ".tmp"].
Proof.
  unfold with_tmp_suffix. destruct lf as [|x lf']; [done|]. intros [= <-].
  rewrite resolve_snoc. unfold resolve_step. by rewrite tmp_name_not_pardir.
Qed.

Lemma lock_not_staging env config lf tmp :
  with_tmp_suffix lf = Some tmp → resolve tmp ≠ lock_path env config.
Proof.
  intros Htmp. rewrite (resolve_tmp _ _ Htmp), lock_path_eq.
  intros [_ E]%app_inj_tail. apply (f_equal string_last) in E.
  unfold lock_name in E. rewrite !string_last_app in E. simpl in E.
  pose proof (char_free_last _ _ (char_free_str_of_int (getpid env))) as Hp.
  destruct (string_last (str_of_int (getpid env))) as [c|]; [congruence | discriminate].
Qed.

(** *** A regular file that no transfer stages at stays a regular file *)

Global Instance file_stays_preorder q : PreOrder (file_stays q).
Proof.
  split.
  - by intros m H.
  - intros m1 m2 m3 H1 H2 H. by apply H2, H1.
Qed.

Global Instance locked_stays_preorder env config : PreOrder (locked_stays env config).
Proof.
  split.
  - by intros m H.
  - intros m1 m2 m3 H1 H2 H. by apply H2, H1.
Qed.

Lemma file_stays_mkdir q t q' m m' : mkdir_tree t q' m = inr m' → file_stays q m m'.
Proof. intros H (t0 & d & Hq). exists t0, d. by apply (mkdir_tree_spec _ _ _ _ H). Qed.

Lemma file_stays_insert (q q' : Path) (t : Z) (d : string) (m : tree) :
  file_stays q m (<[q' := File t d]> m).
Proof.
  intros (t0 & d0 & Hq). destruct (decide (q' = q)) as [->|Hne].
  - exists t, d. by rewrite lookup_insert_eq.
  - exists t0, d0. by rewrite lookup_insert_ne.
Qed.

Lemma file_stays_open_wb q t q' m m' : open_wb_tree t q' m = inr m' → file_stays q m m'.
Proof.
  unfold open_wb_tree. intros H.
  repeat case_match; simplify_eq; apply file_stays_insert.
Qed.

Lemma file_stays_write q t q' c m m' : write_tree t q' c m = inr m' → file_stays q m m'.
Proof.
  unfold write_tree. intros H.
  repeat case_match; simplify_eq; apply file_stays_insert.
Qed.

Lemma file_stays_replace q qs qd m m' :
  qs ≠ q → replace_tree qs qd m = inr m' → file_stays q m m'.
Proof.
  unfold replace_tree. intros Hne H (t0 & d0 & Hq).
  assert (∀ t d, ∃ t' d', <[qd := File t d]> (delete qs m) !! q = Some (File t' d')) as Hins.
  { intros t d. destruct (decide (qd = q)) as [->|Hne'].
    - exists t, d. by rewrite lookup_insert_eq.
    - exists t0, d0. by rewrite lookup_insert_ne, lookup_delete_ne. }
  repeat case_match; simplify_eq; apply Hins.
Qed.

Lemma file_stays_unlink q q' m m' : q' ≠ q → unlink_tree q' m = inr m' → file_stays q m m'.
Proof.
  unfold unlink_tree. intros Hne H (t0 & d0 & Hq).
  repeat case_match; simplify_eq; exists t0, d0; [|done].
  by rewrite lookup_delete_ne.
Qed.

Lemma always_bind_ret {A B} (R : relation world) (a : A) (f : A → M B) :
  always R (f a) → always R (mret a ≫= f).
Proof. intros H w. apply H. Qed.

Ltac file_auto :=
  repeat (first
    [ always_step
    | progress unfold_calls
    | apply moving_writing_clock; try apply _; intros ? ? ?;
      first [ apply file_stays_mkdir | apply file_stays_open_wb | apply file_stays_write ]
    | always_intro | case_match ]);
  try apply _.

Section files.
Context (env : Env) (config : SyncConfig) (q : Path).
Hypothesis q_not_staging : ∀ lf tmp, with_tmp_suffix lf = Some tmp → resolve tmp ≠ q.

Lemma copy_keeps_file hp lf : always (moving (file_stays q)) (_copy_file_atomically env hp lf).
Proof.
  unfold _copy_file_atomically.
  apply always_bind; [apply _ | file_auto |]. intros _.
  destruct (with_tmp_suffix lf) as [tmp|] eqn:Htmp; simpl.
  2: { intros w. unfold moving. simpl. reflexivity. }
  pose proof (q_not_staging lf tmp Htmp) as Hne.
  apply always_bind_ret. apply always_try_except; [apply _ | |].
  - apply always_bind; [apply _ | apply always_lift_option; apply _ |]. intros src.
    apply always_bind; [apply _ | file_auto |]. intros _.
    apply always_bind; [apply _ | file_auto |]. intros _.
    unfold replace. apply moving_writing_clock; [apply _|]. intros k m m'.
    by apply file_stays_replace.
  - intros e. apply always_bind; [apply _ | apply moving_logging; apply _ |]. intros _.
    apply always_bind; [apply _ | apply always_reading; apply _ |]. intros [].
    + unfold unlink. apply moving_writing_clock; [apply _|]. intros k m m'.
      by apply file_stays_unlink.
    + apply always_ret; apply _.
Qed.

Lemma sync_entry_keeps_file d l fi :
  always (moving (file_stays q)) (sync_entry env config d l fi).
Proof.
  unfold sync_entry.
  repeat (first [ apply should_update_always | apply copy_keeps_file | always_step
                | always_intro | case_match ]); apply _.
Qed.

Lemma sync_directory_keeps_file d l :
  always (moving (file_stays q)) (_sync_directory env config d l).
Proof.
  unfold _sync_directory.
  repeat (first [ apply sync_entry_keeps_file | progress file_auto ]).
Qed.

Lemma sync_models_keeps_file entries acc :
  always (moving (file_stays q)) (sync_models env config entries acc).
Proof.
  revert acc. induction entries as [|m entries IH]; intros acc; simpl.
  - apply always_ret; apply _.
  - repeat (first [ apply IH | apply sync_directory_keeps_file | always_step
                  | always_intro | case_match ]); apply _.
Qed.

End files.

(** *** A cycle leaves the root and the lock marker in place *)

Section cycles.
Context (env : Env) (config : SyncConfig).

Local Abbreviation root := (Sync.local_model_root env config).

Lemma lock_path_child : is_child root (lock_path env config).
Proof.
  rewrite lock_path_eq. unfold is_child, parent, path_name.
  rewrite removelast_last, last_last. split_and!; [by destruct root | done |].
  intros E. apply (f_equal String.length) in E. unfold lock_name in E.
  rewrite string_length_app in E. simpl in E. lia.
Qed.

Lemma root_above_children item p : is_child root item → item `prefix_of` p → p ≠ root.
Proof.
  intros Hc Hpre ->. apply prefix_length in Hpre.
  apply child_snoc, (f_equal length) in Hc. rewrite length_app in Hc. simpl in Hc. lia.
Qed.

Lemma sync_models_keeps_locked entries acc :
  always (moving (locked_stays env config)) (sync_models env config entries acc).
Proof.
  intros w [[t Hroot] Hlock]. split.
  - exists t. by apply (sync_models_keeps_dirs env config entries acc w).
  - apply (sync_models_keeps_file env config _ (lock_not_staging env config) entries acc w Hlock).
Qed.

Lemma remove_deleted_models_keeps_locked entries :
  always (moving (locked_stays env config)) (remove_deleted_models env config entries).
Proof.
  intros w [[t Hroot] (t0 & d0 & Hlock)].
  destruct (remove_deleted_models_spec env config entries w t Hroot)
    as (w' & evs & -> & _ & _ & _ & Hkept).
  simpl. split.
  - exists t. rewrite Hkept; [done|]. intros item t' Hc Hpre.
    by destruct (root_above_children item root Hc Hpre).
  - exists t0, d0. rewrite Hkept; [done|]. intros item t' Hc Hpre Hd.
    rewrite (children_prefix _ _ _ Hc lock_path_child Hpre) in Hd. congruence.
Qed.

Lemma write_models_config_keeps_locked lms :
  always (moving (locked_stays env config)) (write_models_config env config lms).
Proof.
  intros w [[t Hroot] Hlock]. split.
  - exists t.
    assert (always (moving dirs_persist) (write_models_config env config lms)) as H
      by (unfold write_models_config; dirs_auto).
    by apply (H w).
  - assert (always (moving (file_stays (lock_path env config)))
              (write_models_config env config lms)) as H
      by (unfold write_models_config; file_auto).
    by apply (H w).
Qed.

Lemma cycle_body_keeps_locked :
  always (moving (locked_stays env config)) (cycle_body env config).
Proof.
  unfold cycle_body, read_manifest, _parse_model_config.
  repeat (first [ apply sync_models_keeps_locked | apply remove_deleted_models_keeps_locked
                | apply write_models_config_keeps_locked
                | always_step | always_intro | case_match ]); apply _.
Qed.

Lemma cycle_body_marks :
  always (emitting (λ e, is_schedule_mark e = false)) (cycle_body env config).
Proof.
  assert (∀ entries acc, always (emitting (λ e, is_schedule_mark e = false))
                           (sync_models env config entries acc)) as Hsync.
  { intros entries acc. eapply always_mono; [|apply sync_models_emits].
    intros w w'. apply emitting_mono. by intros []. }
  unfold cycle_body, read_manifest, _parse_model_config, remove_deleted_models,
    remove_item, write_models_config.
  repeat (first [ apply Hsync
                | always_step | progress unfold_calls | always_intro | case_match ]);
    try apply _; reflexivity.
Qed.

(** One cycle from a tree whose root is a directory and whose lock path is
    none: it returns, marks its end once, and leaves the tree locked. *)
Lemma run_once_cycles w t :
  fs w !! root = Some (Dir t) →
  (∀ t', fs w !! lock_path env config ≠ Some (Dir t')) →
  ∃ w' evs,
    run_once env config w = Return tt w'
    ∧ log w' = log w ++ evs
    ∧ List.filter is_schedule_mark evs = [InfoCycleFinished]
    ∧ locked env config (fs w').
Proof.
  intros Hroot Hlock. rewrite (run_once_locked env config w t Hroot Hlock).
  set (w1 := {| fs := _; ticks := _; log := _ |}).
  assert (Hlocked1 : locked env config (fs w1)).
  { subst w1. simpl. split.
    - exists t. rewrite lookup_insert_ne; [done|]. intros E. rewrite E in Hlock.
      by destruct (Hlock t).
    - eexists _, _. by rewrite lookup_insert_eq. }
  destruct (cycle_body_marks w1) as (evs & Hlog & Hmarks).
  pose proof (cycle_body_keeps_locked w1 Hlocked1) as Hlockedb.
  assert (Hnone : List.filter is_schedule_mark evs = []).
  { clear -Hmarks. induction Hmarks as [|e evs He _ IH]; [done|]. simpl. by rewrite He. }
  destruct (cycle_body env config w1) as [[] wb|e wb]; simpl in Hlog, Hlockedb.
  - exists (with_log wb [InfoCycleFinished]), ([InfoCycleStart] ++ evs ++ [InfoCycleFinished]).
    split_and!; [done | | | done].
    + simpl. rewrite Hlog. subst w1. simpl. by rewrite <-!app_assoc.
    + simpl. by rewrite List.filter_app, Hnone.
  - exists (with_log wb [ExceptionInCycle; InfoCycleFinished]),
      ([InfoCycleStart] ++ evs ++ [ExceptionInCycle; InfoCycleFinished]).
    split_and!; [done | | | done].
    + simpl. rewrite Hlog. subst w1. simpl. by rewrite <-!app_assoc.
    + simpl. by rewrite List.filter_app, Hnone.
Qed.

Lemma loop_cycles n w t :
  fs w !! root = Some (Dir t) →
  (∀ t', fs w !! lock_path env config ≠ Some (Dir t')) →
  ∃ w' evs,
    loop env config n w = Return tt w'
    ∧ log w' = log w ++ evs
    ∧ List.filter is_schedule_mark evs
      = concat (replicate n [InfoCycleFinished; Slept (interval config)]).
Proof.
  revert w t. induction n as [|n IH]; intros w t Hroot Hlock.
  - exists w, []. split_and!; [done | by rewrite app_nil_r | done].
  - destruct (run_once_cycles w t Hroot Hlock)
      as (w1 & evs1 & Hrun & Hlog1 & Hmarks1 & [[t1 Hroot1] (t2 & d2 & Hlock1)]).
    set (w2 := with_log w1 [InfoSleeping (interval config); Slept (interval config)]).
    destruct (IH w2 t1) as (w' & evs2 & Hloop & Hlog2 & Hmarks2); [done | |].
    { intros t'. subst w2. simpl. congruence. }
    exists w', (evs1 ++ [InfoSleeping (interval config); Slept (interval config)] ++ evs2).
    split_and!.
    + simpl. rewrite (bind_Return _ _ _ _ _ Hrun). unfold sleep.
      rewrite bind_unfold, logging_unfold, bind_unfold, logging_unfold.
      rewrite <-Hloop. f_equal. subst w2. unfold with_log. simpl. by rewrite <-app_assoc.
    + rewrite Hlog2. subst w2. simpl. rewrite Hlog1. by rewrite <-!app_assoc.
    + rewrite !List.filter_app, Hmarks1, Hmarks2. reflexivity.
Qed.

(** X20.  The continuous mode keeps cycling: started with the loop enabled
    in a tree whose root is a directory and whose lock path is not one, it
    never stops on an exception; whatever fails inside the cycles, every
    cycle runs to its "finished" line and is followed by one sleep of the
    interval, as many times as iterations are observed. *)
Theorem continuous_mode_keeps_cycling fuel w t :
  enable_sync_loop config = true →
  fs w !! root = Some (Dir t) →
  (∀ t', fs w !! lock_path env config ≠ Some (Dir t')) →
  ∃ w' evs,
    run_continuously env config fuel w = Return tt w'
    ∧ log w' = log w ++ InfoStartContinuous (interval config) :: evs
    ∧ List.filter is_schedule_mark evs
      = concat (replicate fuel [InfoCycleFinished; Slept (interval config)]).
Proof.
  intros Hon Hroot Hlock. unfold run_continuously. rewrite Hon. simpl.
  rewrite bind_unfold, logging_unfold.
  set (w0 := {| fs := fs w; ticks := ticks w; log := _ |}).
  destruct (loop_cycles fuel w0 t Hroot Hlock) as (w' & evs & Hloop & Hlog & Hmarks).
  exists w', evs. split_and!; [done | | done].
  rewrite Hlog. subst w0. simpl. by rewrite <-app_assoc.
Qed.

End cycles.

(** ** What the containment check means for paths *)

Lemma string_app_nil_r (s : string) : s +:+ "" = s.
Proof.
  induction s as [|c s IH]; [done|].
  change (String c (s +:+ "") = String c s). by rewrite IH.
Qed.

Lemma string_prefix_nil (s : string) : String.prefix "" s = true.
Proof. by destruct s. Qed.

Lemma string_prefix_cons a b (s1 s2 : string) :
  String.prefix (String a s1) (String b s2) = true ↔ a = b ∧ String.prefix s1 s2 = true.
Proof.
  simpl. destruct (Ascii.ascii_dec a b) as [->|Hne]; [tauto|].
  split; [done | by intros [? _]].
Qed.

Lemma concat_segments_boundary p : at_boundary (concat_segments p).
Proof.
  destruct p as [|x p]; intros c r E; [done|].
  change (String sep (x +:+ concat_segments p) = String c r) in E. congruence.
Qed.

Lemma sep_free_cons c s : sep_free (String c s) = true → c ≠ sep ∧ sep_free s = true.
Proof.
  simpl. intros [Hc Hs]%andb_true_iff. split; [|done].
  intros ->. by rewrite Ascii.eqb_refl in Hc.
Qed.

(** A separator-free prefix of a text ends before the first boundary. *)
Lemma prefix_within_segment y x rest :
  sep_free y = true → at_boundary rest →
  String.prefix y (x +:+ rest) = true → String.prefix y x = true.
Proof.
  revert x. induction y as [|a y IH]; intros x Hy Hrest H; [apply string_prefix_nil|].
  apply sep_free_cons in Hy as [Ha Hy].
  destruct x as [|b x].
  - change ("" +:+ rest) with rest in H. destruct rest as [|c r]; [done|].
    apply string_prefix_cons in H as [-> _]. by destruct (Ha (Hrest _ _ eq_refl)).
  - change (String.prefix (String a y) (String b (x +:+ rest)) = true) in H.
    apply string_prefix_cons in H as [-> H]. apply string_prefix_cons. split; [done|].
    by apply IH.
Qed.

(** Two separator-free segments followed by a boundary coincide. *)
Lemma prefix_across_segment y x r1 rest :
  sep_free y = true → sep_free x = true → at_boundary rest →
  String.prefix (y +:+ String sep r1) (x +:+ rest) = true →
  y = x ∧ String.prefix (String sep r1) rest = true.
Proof.
  revert x. induction y as [|a y IH]; intros x Hy Hx Hrest H.
  - change ("" +:+ String sep r1) with (String sep r1) in H.
    destruct x as [|b x]; [done|].
    change (String.prefix (String sep r1) (String b (x +:+ rest)) = true) in H.
    apply string_prefix_cons in H as [<- _]. apply sep_free_cons in Hx as [Hx _]. done.
  - apply sep_free_cons in Hy as [Ha Hy].
    change (String.prefix (String a (y +:+ String sep r1)) (x +:+ rest) = true) in H.
    destruct x as [|b x].
    + change ("" +:+ rest) with rest in H. destruct rest as [|c r]; [done|].
      apply string_prefix_cons in H as [-> _]. by destruct (Ha (Hrest _ _ eq_refl)).
    + change (String.prefix (String a (y +:+ String sep r1)) (String b (x +:+ rest)) = true)
        in H.
      apply string_prefix_cons in H as [-> H]. apply sep_free_cons in Hx as [_ Hx].
      destruct (IH x Hy Hx Hrest H) as [-> ?]. done.
Qed.

Lemma concat_segments_prefix p q :
  well_formed p → well_formed q → p ≠ [] →
  String.prefix (concat_segments p) (concat_segments q) = true →
  ∃ front y x rest,
    p = front ++ [y] ∧ q = front ++ x :: rest ∧ String.prefix y x = true.
Proof.
  revert q. induction p as [|y p IH]; intros q Hp Hq Hne H; [done|].
  apply Forall_cons in Hp as [[Hy Hy0] Hp].
  destruct q as [|x q].
  { change (String.prefix (String sep (y +:+ concat_segments p)) "" = true) in H. done. }
  apply Forall_cons in Hq as [[Hx Hx0] Hq].
  change (String.prefix (String sep (y +:+ concat_segments p))
            (String sep (x +:+ concat_segments q)) = true) in H.
  apply string_prefix_cons in H as [_ H].
  destruct p as [|y' p].
  - change (concat_segments []) with "" in H. rewrite string_app_nil_r in H.
    exists [], y, x, q. split_and!; [done | done |].
    eapply prefix_within_segment; [done | apply concat_segments_boundary | done].
  - change (concat_segments (y' :: p)) with (String sep (y' +:+ concat_segments p)) in H.
    destruct (prefix_across_segment y x _ _ Hy Hx (concat_segments_boundary q) H) as [-> H'].
    destruct (IH q) as (front & y0 & x0 & rest & Ep & Eq & Hpre); [done | done | done | done |].
    exists (x :: front), y0, x0, rest. split_and!; [by rewrite Ep | by rewrite Eq | done].
Qed.

(** The containment test, read on paths. *)
Lemma text_prefix_under_or_beside root q :
  well_formed root → well_formed q →
  startswith (path_str q) (path_str root) = true → under_or_beside root q.
Proof.
  intros Hroot Hq H. unfold startswith in H.
  destruct root as [|r0 root']; [left; by exists q|].
  set (root := r0 :: root') in *.
  assert (path_str root = concat_segments root) as Er by done. rewrite Er in H.
  destruct q as [|x0 q'].
  { exfalso. apply Forall_cons in Hroot as [[_ Hr0] _].
    change (String.prefix (String sep (r0 +:+ concat_segments root')) (String sep "") = true)
      in H.
    apply string_prefix_cons in H as [_ H].
    destruct r0 as [|c r0]; [done|].
    change (String.prefix (String c (r0 +:+ concat_segments root')) "" = true) in H. done. }
  set (q := x0 :: q') in *.
  assert (path_str q = concat_segments q) as Eq by done. rewrite Eq in H.
  destruct (concat_segments_prefix root q Hroot Hq ltac:(done) H)
    as (front & y & x & rest & Ep & Eqq & Hpre).
  destruct (decide (x = y)) as [->|Hne].
  - left. exists rest. rewrite Ep, Eqq. by rewrite <-app_assoc.
  - right. exists x, rest. unfold parent, path_name.
    rewrite Ep, removelast_last, last_last. done.
Qed.

(** Paths that come out of parsing and resolving are well formed. *)
Lemma split_sep_sep_free s : Forall (λ x, sep_free x = true) (split_sep s).
Proof.
  induction s as [|c s IH]; simpl; [by repeat constructor|].
  destruct (Ascii.eqb c sep) eqn:E; [by constructor|].
  destruct (split_sep s) as [|x xs]; [by repeat constructor; simpl; rewrite E|].
  apply Forall_cons in IH as [Hx Hxs]. constructor; [|done]. simpl. by rewrite E.
Qed.

Lemma parse_parts_well_formed s : well_formed (parse_parts s).
Proof.
  unfold parse_parts, well_formed.
  pose proof (split_sep_sep_free s) as H.
  induction H as [|x xs Hx _ IH]; simpl; [constructor|].
  destruct (is_segment x) eqn:E; [|done]. constructor; [|done]. split; [done|].
  intros ->. done.
Qed.

Lemma well_formed_removelast p : well_formed p → well_formed (removelast p).
Proof.
  unfold well_formed. induction p as [|x p IH]; [done|].
  intros [Hx Hp]%Forall_cons. destruct p as [|y p]; [constructor|].
  change (removelast (x :: y :: p)) with (x :: removelast (y :: p)).
  constructor; [done | by apply IH].
Qed.

Lemma resolve_well_formed p : well_formed p → well_formed (resolve p).
Proof.
  induction p as [|x p IH] using rev_ind; [constructor|].
  intros [Hp Hx]%Forall_app. rewrite resolve_snoc. unfold resolve_step.
  destruct (String.eqb x pardir).
  - by apply well_formed_removelast, IH.
  - apply Forall_app. split; [by apply IH | done].
Qed.

Lemma joinpath_well_formed p s : well_formed p → well_formed (joinpath p s).
Proof.
  intros Hp. unfold joinpath. destruct (isabs s); [apply parse_parts_well_formed|].
  apply Forall_app. split; [done | apply parse_parts_well_formed].
Qed.

Section check_meaning.
Context (env : Env) (config : SyncConfig).
Hypothesis cwd_well_formed : well_formed (cwd env).

Local Abbreviation root := (Sync.local_model_root env config).

Lemma local_model_root_well_formed : well_formed root.
Proof. by apply resolve_well_formed, joinpath_well_formed. Qed.

(** X21.  What passing the containment check means for a path: a model
    directory that [run_once] accepts, and the local path of a listed file
    that [_sync_directory] accepts, lies under the local model root or
    under a sibling of the root whose name starts with the name of the
    root; nothing else gets through. *)
Theorem accepted_paths_under_or_beside_root :
  (∀ entry,
     name_accepted env config entry = true →
     under_or_beside root (resolve (joinpath root (Config.name entry))))
  ∧ (∀ hdfs_dir local_dir fi lf,
       well_formed local_dir →
       local_target env config hdfs_dir local_dir fi = Some lf →
       under_or_beside root (resolve lf)).
Proof.
  pose proof local_model_root_well_formed as Hroot. split.
  - intros entry H. apply text_prefix_under_or_beside; [done | | done].
    by apply resolve_well_formed, joinpath_well_formed.
  - intros hdfs_dir local_dir fi lf Hdir. unfold local_target.
    destruct (bool_decide _); [done|].
    destruct (relpath _ _ _) as [rel|]; simpl; [|done].
    destruct (startswith _ _) eqn:H; [|done]. intros [= <-].
    apply text_prefix_under_or_beside; [done | | done].
    by apply resolve_well_formed, joinpath_well_formed.
Qed.

End check_meaning.

(** ** A transfer and the next update decision *)

Section transfer_then_decide.
Context (env : Env).

(** X22.  A failed transfer is never mistaken for an up-to-date file: when
    [_copy_file_atomically] returns after logging a failure, the update
    decision for the destination is the one it was before the call, so the
    next run tries again whatever it tried this time. *)
Theorem failed_transfer_is_retried hp lf tmp t0 fi w w' :
  with_tmp_suffix lf = Some tmp →
  fs w !! resolve (parent lf) = Some (Dir t0) →
  _copy_file_atomically env hp lf w = Return tt w' →
  log w' = log w ++ [ErrorCopyFailed hp] →
  ∃ update : bool,
    _should_update_file fi lf w = Return update w
    ∧ _should_update_file fi lf w' = Return update w'.
Proof.
  intros Htmp Hparent Hrun Hlog. pose proof (tmp_apart lf tmp Htmp) as Hapart.
  assert (Hsame : fs w' !! resolve lf = fs w !! resolve lf).
  { destruct (copy_after_mkdir env hp lf tmp t0 w Htmp Hparent)
      as [(w1 & k & src & Hr & _ & _ & _ & Hlog1)
         |[(w1 & Hr & Hfs & _)|(w1 & t & Hr & _)]]; rewrite Hrun in Hr.
    - injection Hr as <-. rewrite Hlog1 in Hlog.
      apply (f_equal length) in Hlog. rewrite length_app in Hlog. simpl in Hlog. lia.
    - injection Hr as <-. by rewrite Hfs, lookup_delete_ne.
    - discriminate Hr. }
  eexists. split; [apply should_update_file_eq|].
  rewrite should_update_file_eq, Hsame. done.
Qed.




End transfer_then_decide.

(** ** The registry file, line by line *)

Lemma split_lines_single s : single_line s = true → split_lines s = [s].
Proof.
  unfold single_line. induction s as [|c s IH]; simpl; [done|].
  intros [Hc Hs]%andb_true_iff. apply negb_true_iff in Hc. rewrite Hc.
  by rewrite (IH Hs).
Qed.

Lemma split_lines_break a b :
  single_line a = true → split_lines (a +:+ newline +:+ b) = a :: split_lines b.
Proof.
  unfold single_line. induction a as [|c a IH]; [done|].
  simpl. intros [Hc Ha]%andb_true_iff. apply negb_true_iff in Hc.
  change (split_lines (String c (a +:+ newline +:+ b)) = String c a :: split_lines b).
  simpl. rewrite Hc. by rewrite (IH Ha).
Qed.

Lemma split_lines_join ls :
  ls ≠ [] → Forall (λ l, single_line l = true) ls → split_lines (join newline ls) = ls.
Proof.
  intros Hne Hls. induction Hls as [|x ls Hx Hls IH]; [done|].
  destruct ls as [|y r]; [by apply split_lines_single|].
  change (split_lines (x +:+ newline +:+ join newline (y :: r)) = x :: y :: r).
  rewrite (split_lines_break _ _ Hx). by rewrite IH.
Qed.

Lemma single_line_app (a b : string) :
  single_line a = true → single_line b = true → single_line (a +:+ b) = true.
Proof. apply char_free_app. Qed.

Lemma single_line_uint d : single_line (NilEmpty.string_of_uint d) = true.
Proof. unfold single_line. induction d; simpl; done. Qed.

Lemma single_line_str_of_int z : single_line (str_of_int z) = true.
Proof.
  unfold str_of_int, NilZero.string_of_int.
  assert (∀ d, single_line (NilZero.string_of_uint d) = true) as Hu.
  { intros d. unfold NilZero.string_of_uint.
    destruct d; first [reflexivity | apply single_line_uint]. }
  destruct (Z.to_int z); [apply Hu|].
  change (single_line ("-" +:+ NilZero.string_of_uint d) = true).
  by apply single_line_app.
Qed.

Lemma Forall_with_commas (P : string → Prop) ls :
  Forall (λ y, P y ∧ P (y +:+ ",")) ls → Forall P (with_commas ls).
Proof.
  intros H. apply Forall_forall. intros x (y & Hy & Hx)%elem_of_with_commas.
  rewrite Forall_forall in H. destruct (H y Hy) as [H1 H2].
  by destruct Hx as [-> | ->].
Qed.

Local Ltac each_line := repeat first [apply Forall_nil_2 | apply Forall_cons_2].

Lemma model_lines_single m :
  single_line_model m = true → Forall (λ l, single_line l = true) (model_lines m).
Proof.
  unfold single_line_model.
  intros [[[[Hn Hb]%andb_true_iff Hp]%andb_true_iff Hl]%andb_true_iff Hq]%andb_true_iff.
  rewrite forallb_forall in Hl. rewrite forallb_forall in Hq.
  unfold model_lines. repeat apply Forall_app_2.
  - each_line; repeat first [reflexivity | assumption | apply single_line_app].
  - unfold labels_lines. destruct (nonempty _); [|constructor].
    repeat apply Forall_app_2; [by each_line | | by each_line].
    apply Forall_with_commas, Forall_fmap, Forall_forall. intros kv Hkv.
    apply list_elem_of_In, Hl in Hkv.
    assert (single_line (label_line kv) = true) as Hline.
    { unfold label_line.
      repeat first [reflexivity | assumption | apply single_line_str_of_int
                   | apply single_line_app]. }
    split; [done | by apply single_line_app].
  - unfold policy_lines. destruct (nonempty _); [|constructor].
    repeat apply Forall_app_2; [by each_line | | by each_line].
    apply Forall_fmap, Forall_forall. intros kv Hkv.
    apply list_elem_of_In, Hq, andb_true_iff in Hkv as [H1 H2].
    unfold policy_line. simpl.
    repeat first [reflexivity | assumption | apply single_line_app].
  - by each_line.
Qed.

Lemma model_lines_nonempty m : Forall (λ l, l ≠ "") (model_lines m).
Proof.
  unfold model_lines. repeat apply Forall_app_2.
  - each_line; first [done | by apply string_app_nonempty].
  - unfold labels_lines. destruct (nonempty _); [|constructor].
    repeat apply Forall_app_2; [by each_line | | by each_line].
    apply Forall_with_commas, Forall_fmap, Forall_forall. intros kv _.
    split; [by apply string_app_nonempty | by do 2 apply string_app_nonempty].
  - unfold policy_lines. destruct (nonempty _); [|constructor].
    repeat apply Forall_app_2; [by each_line | | by each_line].
    apply Forall_fmap, Forall_forall. intros kv _. by apply string_app_nonempty.
  - by each_line.
Qed.

(** X14.  The registry file has no empty line: provided no name, base
    path, platform, label or policy entry of a model holds a line break, the
    text [run_once] writes, split at its line breaks, is line for line the
    document of the format, and none of its lines is empty; a missing or
    empty labels or policy mapping contributes no line at all. *)
Theorem registry_has_no_empty_line lms :
  Forall (λ m, single_line_model m = true) lms →
  split_lines (join newline (build_config_lines lms)) = registry_lines lms
  ∧ Forall (λ line, line ≠ "") (split_lines (join newline (build_config_lines lms))).
Proof.
  intros Hlms.
  assert (Hsplit : split_lines (join newline (build_config_lines lms)) = registry_lines lms).
  { rewrite build_config_lines_document, join_registry.
    apply split_lines_join; [done|].
    unfold registry_lines. repeat apply Forall_app_2; [by each_line | | by each_line].
    apply Forall_concat, Forall_fmap. eapply Forall_impl; [exact Hlms|].
    intros m Hm. by apply model_lines_single. }
  split; [done|]. rewrite Hsplit.
  unfold registry_lines. repeat apply Forall_app_2; [by each_line | | by each_line].
  apply Forall_concat, Forall_fmap, Forall_forall. intros m _. apply model_lines_nonempty.
Qed.

(** ** The further properties on the deployments *)

Import Examples2.


(** A transfer into the blocked tree meets the hypothesis of
    [transfer_parent_blocked]. *)
Lemma transfer_parent_blocked_example :
  let lf := root ++ ["A"; "f"] in
  fs blocked_world !! resolve (parent lf) = Some (File 10 "in the way")
  ∧ _copy_file_atomically abc_env "/m/A/1/f" lf blocked_world
    = Raise FileExistsError blocked_world.
Proof.
  intros lf.
  assert (H1 : fs blocked_world !! resolve (parent lf) = Some (File 10 "in the way"))
    by (vm_compute; reflexivity).
  split; [exact H1|].
  exact (transfer_parent_blocked abc_env "/m/A/1/f" lf _ _ blocked_world H1).
Defined.

(** The listed file of model A meets the hypotheses of
    [contained_entry_is_accepted]. *)
Lemma contained_entry_is_accepted_abc :
  let config := settings 0 in
  let fi := file_info "/m/A/1/f" (Some 5%Z) in
  let local_dir := root ++ ["A"] in
  pafs.type fi = pafs.File
  ∧ relpath (cwd abc_env) (pafs.path fi) "/m/A" = Some "1/f"
  ∧ local_model_root abc_env config `prefix_of` resolve (joinpath local_dir "1/f")
  ∧ sync_entry abc_env config "/m/A" local_dir fi abc_world
    = Return tt (with_log abc_world [DebugUpToDate (root ++ ["A"; "1"; "f"])]).
Proof.
  intros config fi local_dir.
  assert (H1 : pafs.type fi = pafs.File) by reflexivity.
  assert (H2 : relpath (cwd abc_env) (pafs.path fi) "/m/A" = Some "1/f")
    by (vm_compute; reflexivity).
  assert (H3 : local_model_root abc_env config `prefix_of` resolve (joinpath local_dir "1/f"))
    by (exists ["A"; "1"; "f"]; vm_compute; reflexivity).
  split_and!; [exact H1 | exact H2 | exact H3 |].
  rewrite (contained_entry_is_accepted abc_env config "/m/A" local_dir fi "1/f" abc_world
             H1 H2 H3).
  vm_compute. reflexivity.
Defined.

(** The three-model cycle meets the hypotheses of [cycle_always_finishes]. *)
Lemma cycle_always_finishes_abc :
  let config := settings 0 in
  fs abc_world !! local_model_root abc_env config = Some (Dir 0)
  ∧ (∀ t', fs abc_world !! lock_path abc_env config ≠ Some (Dir t'))
  ∧ ∃ w' evs,
      run_once abc_env config abc_world = Return tt w'
      ∧ log w' = log abc_world ++ [InfoCycleStart] ++ evs ++ [InfoCycleFinished].
Proof.
  intros config.
  assert (H1 : fs abc_world !! local_model_root abc_env config = Some (Dir 0))
    by (vm_compute; reflexivity).
  assert (H2 : ∀ t', fs abc_world !! lock_path abc_env config ≠ Some (Dir t'))
    by (intros t' E; vm_compute in E; discriminate E).
  split_and!; [exact H1 | exact H2 |].
  exact (cycle_always_finishes abc_env config abc_world 0%Z H1 H2).
Defined.

(** The same local tree with a manifest that does not decode meets the
    hypotheses of [unreadable_manifest_spares_tree]: A, B and C stay. *)
Lemma unreadable_manifest_spares_abc :
  let config := settings 0 in
  fs abc_world !! local_model_root garbled_env config = Some (Dir 0)
  ∧ (∀ t', fs abc_world !! lock_path garbled_env config ≠ Some (Dir t'))
  ∧ hdfs_model_config_path config = Some "/conf/models.yml"
  ∧ (∀ f, pafs.open_input_file (hdfs_fs garbled_env) "/conf/models.yml" = Some f →
          pafs.complete f = false ∨ decode_utf8 (pafs.data f) = None)
  ∧ run_once garbled_env config abc_world =
    Return tt
      {| fs := <[lock_path garbled_env config := File (clock garbled_env (ticks abc_world)) ""]>
                 (fs abc_world);
         ticks := S (ticks abc_world);
         log := log abc_world ++ [InfoCycleStart; ExceptionInCycle; InfoCycleFinished] |}.
Proof.
  intros config.
  assert (H1 : fs abc_world !! local_model_root garbled_env config = Some (Dir 0))
    by (vm_compute; reflexivity).
  assert (H2 : ∀ t', fs abc_world !! lock_path garbled_env config ≠ Some (Dir t'))
    by (intros t' E; vm_compute in E; discriminate E).
  assert (H3 : hdfs_model_config_path config = Some "/conf/models.yml") by reflexivity.
  assert (H4 : ∀ f, pafs.open_input_file (hdfs_fs garbled_env) "/conf/models.yml" = Some f →
                    pafs.complete f = false ∨ decode_utf8 (pafs.data f) = None)
    by (intros f E; injection E as <-; right; reflexivity).
  split_and!; [exact H1 | exact H2 | exact H3 | exact H4 |].
  exact (unreadable_manifest_spares_tree garbled_env config abc_world 0%Z _ H1 H2 H3 H4).
Defined.

(** The three-model cycle meets the hypotheses of [registry_is_written]. *)
Lemma registry_is_written_abc :
  let config := settings 0 in
  fs abc_world !! local_model_root abc_env config = Some (Dir 0)
  ∧ cycle_prefix abc_env config abc_world = Return (abc_manifest, abc_models) abc_reconciled
  ∧ (∀ t', fs abc_reconciled !! config_path abc_env config ≠ Some (Dir t'))
  ∧ ∃ w' t',
      run_once abc_env config abc_world = Return tt w'
      ∧ fs w' !! config_path abc_env config
        = Some (File t' (join newline (registry_document abc_models))).
Proof.
  intros config.
  assert (H1 : fs abc_world !! local_model_root abc_env config = Some (Dir 0))
    by (vm_compute; reflexivity).
  assert (H2 : cycle_prefix abc_env config abc_world
               = Return (abc_manifest, abc_models) abc_reconciled)
    by (vm_compute; reflexivity).
  assert (H3 : ∀ t', fs abc_reconciled !! config_path abc_env config ≠ Some (Dir t'))
    by (intros t' E; vm_compute in E; discriminate E).
  split_and!; [exact H1 | exact H2 | exact H3 |].
  exact (registry_is_written abc_env config abc_world _ _ _ 0%Z H1 H2 H3).
Defined.

(** The deletion step on the three-model tree meets the hypothesis of
    [deletion_is_idempotent]. *)
Lemma deletion_is_idempotent_abc :
  let config := settings 0 in
  let entries := model_config abc_manifest in
  let w1 := world_of (remove_deleted_models abc_env config entries abc_world) in
  let w2 := world_of (remove_deleted_models abc_env config entries w1) in
  fs abc_world !! local_model_root abc_env config = Some (Dir 0)
  ∧ fs w1 !! (root ++ ["B"]) = None
  ∧ fs w2 = fs w1.
Proof.
  intros config entries w1 w2.
  assert (H1 : fs abc_world !! local_model_root abc_env config = Some (Dir 0))
    by (vm_compute; reflexivity).
  split_and!; [exact H1 | vm_compute; reflexivity |].
  exact (deletion_is_idempotent abc_env config entries abc_world 0%Z H1).
Defined.

(** The settings with the loop disabled meet the hypothesis of
    [disabled_loop_runs_one_cycle]. *)
Lemma disabled_loop_runs_one_cycle_abc :
  enable_sync_loop settings_once = false
  ∧ run_continuously abc_env settings_once 7 abc_world
    = run_once abc_env settings_once (with_log abc_world [WarnLoopDisabled]).
Proof.
  assert (H1 : enable_sync_loop settings_once = false) by reflexivity.
  split; [exact H1|].
  destruct (disabled_loop_runs_one_cycle abc_env settings_once 7 abc_world H1) as [Hrun _].
  exact Hrun.
Defined.

(** The cycle of the deployment whose staging path is a directory meets the
    hypothesis of [failed_reconciliation_skips_deletion]. *)
Lemma failed_reconciliation_example :
  let config := settings 0 in
  let wb := world_of (cycle_prefix clash_env config (start [])) in
  cycle_prefix clash_env config (start []) = Raise IsADirectoryError wb
  ∧ run_once clash_env config (start [])
    = Return tt (with_log wb [ExceptionInCycle; InfoCycleFinished]).
Proof.
  intros config wb.
  assert (H1 : cycle_prefix clash_env config (start []) = Raise IsADirectoryError wb)
    by (vm_compute; reflexivity).
  split; [exact H1|].
  destruct (failed_reconciliation_skips_deletion clash_env config (start []) _ wb H1)
    as [Hrun|[Hrun _]]; [exact Hrun|].
  vm_compute in Hrun. discriminate Hrun.
Defined.

(** The loader of the example meets the hypothesis of
    [loaded_config_names_manifest] and of [manifest_path_override]: the
    file names no manifest, the environment does. *)
Lemma loaded_config_names_manifest_example :
  Loader.load_config loader "config/config.yml"
  = inr (Loader.set_hdfs_model_config_path file_settings "/conf/models.yml")
  ∧ ∃ p, hdfs_model_config_path
           (Loader.set_hdfs_model_config_path file_settings "/conf/models.yml") = Some p
         ∧ p ≠ "".
Proof.
  assert (H1 : Loader.load_config loader "config/config.yml"
               = inr (Loader.set_hdfs_model_config_path file_settings "/conf/models.yml"))
    by (vm_compute; reflexivity).
  split; [exact H1|].
  destruct (LoaderFacts.loaded_config_names_manifest loader _ _ H1) as (p & Hp & Hne & _).
  exists p. split; [exact Hp | exact Hne].
Defined.

Lemma manifest_path_override_example :
  Loader.load_config loader "config/config.yml"
  = inr (Loader.set_hdfs_model_config_path file_settings "/conf/models.yml")
  ∧ hdfs_model_config_path file_settings = None
  ∧ hdfs_model_config_path
      (Loader.set_hdfs_model_config_path file_settings "/conf/models.yml")
    = Some "/conf/models.yml".
Proof.
  assert (H1 : Loader.load_config loader "config/config.yml"
               = inr (Loader.set_hdfs_model_config_path file_settings "/conf/models.yml"))
    by (vm_compute; reflexivity).
  split_and!; [exact H1 | reflexivity |].
  destruct (LoaderFacts.manifest_path_override loader _ _ H1)
    as (text & fields & c0 & _ & _ & _ & _ & _ & _ & _ & Hpath).
  rewrite Hpath. vm_compute. reflexivity.
Defined.

(** The reconciler of model A in the three-model deployment meets the
    hypotheses of [reconciler_leaves_unlisted_entries] for the file of
    model B. *)
Lemma reconciler_leaves_unlisted_abc :
  let config := settings 0 in
  let p := root ++ ["B"; "g"] in
  fs abc_world !! p = Some (File 10 "gb")
  ∧ (∀ fi lf, fi ∈ listed abc_env "/m/A" →
       local_target abc_env config "/m/A" (root ++ ["A"]) fi = Some lf →
       p ≠ resolve lf ∧ ∀ tmp, with_tmp_suffix lf = Some tmp → p ≠ resolve tmp)
  ∧ fs (world_of (_sync_directory abc_env config "/m/A" (root ++ ["A"]) abc_world)) !! p
    = Some (File 10 "gb").
Proof.
  intros config p.
  assert (H1 : fs abc_world !! p = Some (File 10 "gb")) by (vm_compute; reflexivity).
  assert (H2 : ∀ fi lf, fi ∈ listed abc_env "/m/A" →
       local_target abc_env config "/m/A" (root ++ ["A"]) fi = Some lf →
       p ≠ resolve lf ∧ ∀ tmp, with_tmp_suffix lf = Some tmp → p ≠ resolve tmp).
  { assert (Hlisted : listed abc_env "/m/A"
                      = [dir_info "/m/A/1"; file_info "/m/A/1/f" (Some 5%Z)]) by reflexivity.
    rewrite Hlisted. intros fi lf Hin Ht.
    apply elem_of_cons in Hin as [->|Hin]; [vm_compute in Ht; discriminate Ht|].
    apply list_elem_of_singleton in Hin as ->.
    vm_compute in Ht. injection Ht as <-. split.
    - intros E. vm_compute in E. discriminate E.
    - intros tmp Htmp. vm_compute in Htmp. injection Htmp as <-.
      intros E. vm_compute in E. discriminate E. }
  split_and!; [exact H1 | exact H2 |].
  exact (reconciler_leaves_unlisted_entries abc_env config "/m/A" (root ++ ["A"])
           abc_world p _ H1 H2).
Defined.

(** The three-model deployment meets the hypotheses of
    [continuous_mode_keeps_cycling]. *)
Lemma continuous_mode_keeps_cycling_abc :
  let config := settings 0 in
  enable_sync_loop config = true
  ∧ fs abc_world !! local_model_root abc_env config = Some (Dir 0)
  ∧ (∀ t', fs abc_world !! lock_path abc_env config ≠ Some (Dir t'))
  ∧ ∃ w' evs,
      run_continuously abc_env config 3 abc_world = Return tt w'
      ∧ log w' = log abc_world ++ InfoStartContinuous (interval config) :: evs
      ∧ List.filter is_schedule_mark evs
        = concat (replicate 3 [InfoCycleFinished; Slept (interval config)]).
Proof.
  intros config.
  assert (H1 : enable_sync_loop config = true) by reflexivity.
  assert (H2 : fs abc_world !! local_model_root abc_env config = Some (Dir 0))
    by (vm_compute; reflexivity).
  assert (H3 : ∀ t', fs abc_world !! lock_path abc_env config ≠ Some (Dir t'))
    by (intros t' E; vm_compute in E; discriminate E).
  split_and!; [exact H1 | exact H2 | exact H3 |].
  exact (continuous_mode_keeps_cycling abc_env config 3 abc_world 0%Z H1 H2 H3).
Defined.

(** The deployment whose manifest names a sibling of the root meets the
    hypothesis of [accepted_paths_under_or_beside_root]: the accepted model
    directory lies beside the root, not under it. *)
Lemma accepted_paths_sibling_example :
  let config := settings 0 in
  well_formed (cwd sibling_env)
  ∧ name_accepted sibling_env config (entry "../models_evil" "/m/E") = true
  ∧ under_or_beside (local_model_root sibling_env config) ["data"; "models_evil"]
  ∧ ¬ local_model_root sibling_env config `prefix_of` ["data"; "models_evil"].
Proof.
  intros config.
  assert (H1 : well_formed (cwd sibling_env)) by constructor.
  assert (H2 : name_accepted sibling_env config (entry "../models_evil" "/m/E") = true)
    by (vm_compute; reflexivity).
  split_and!; [exact H1 | exact H2 | |].
  - destruct (accepted_paths_under_or_beside_root sibling_env config H1) as [Hname _].
    exact (Hname _ H2).
  - intros [k Hk]. vm_compute in Hk. discriminate Hk.
Defined.

(** The transfer of a file that the remote side does not serve meets the
    hypotheses of [failed_transfer_is_retried]. *)
Lemma failed_transfer_is_retried_example :
  let lf := root ++ ["A"; "1"; "missing"] in
  let tmp := root ++ ["A"; "1"; "missing.tmp"] in
  let fi := file_info "/m/A/1/missing" (Some 5%Z) in
  let w' := world_of (_copy_file_atomically abc_env "/m/A/1/missing" lf abc_world) in
  with_tmp_suffix lf = Some tmp
  ∧ fs abc_world !! resolve (parent lf) = Some (Dir 0)
  ∧ _copy_file_atomically abc_env "/m/A/1/missing" lf abc_world = Return tt w'
  ∧ log w' = log abc_world ++ [ErrorCopyFailed "/m/A/1/missing"]
  ∧ ∃ update : bool,
      _should_update_file fi lf abc_world = Return update abc_world
      ∧ _should_update_file fi lf w' = Return update w'.
Proof.
  intros lf tmp fi w'.
  assert (H1 : with_tmp_suffix lf = Some tmp) by reflexivity.
  assert (H2 : fs abc_world !! resolve (parent lf) = Some (Dir 0)) by (vm_compute; reflexivity).
  assert (H3 : _copy_file_atomically abc_env "/m/A/1/missing" lf abc_world = Return tt w')
    by (vm_compute; reflexivity).
  assert (H4 : log w' = log abc_world ++ [ErrorCopyFailed "/m/A/1/missing"])
    by (vm_compute; reflexivity).
  split_and!; [exact H1 | exact H2 | exact H3 | exact H4 |].
  exact (failed_transfer_is_retried abc_env _ lf tmp 0%Z fi abc_world w' H1 H2 H3 H4).
Defined.


(** The models of the three-model deployment meet the hypothesis of
    [registry_has_no_empty_line]. *)
Lemma registry_has_no_empty_line_abc :
  Forall (λ m, single_line_model m = true) abc_models
  ∧ split_lines (join newline (build_config_lines abc_models)) = registry_lines abc_models
  ∧ Forall (λ line, line ≠ "") (split_lines (join newline (build_config_lines abc_models))).
Proof.
  assert (H : Forall (λ m, single_line_model m = true) abc_models)
    by (repeat constructor).
  split; [exact H|]. exact (registry_has_no_empty_line abc_models H).
Defined.
